(** * vessel_tool: skeleton-to-tree decomposition ([vessel_tool/tree.py])

    A shallow embedding of [VesselTree] (labelling of a skeleton mask by
    breadth-first traversal, reconstruction of segments, tree building,
    depth annotation, canonicalisation) and of the tail of
    [VesselProcessor.get_all_lines_and_tree] ([vessel_tool/main.py]),
    followed by the properties of the specification that concern them. *)

From Stdlib Require Import ZArith Lia.
From stdpp Require Import base option list gmap relations.

Open Scope Z_scope.

(** ** Outcomes of a call

    A Python call either returns a value or raises.  Loops whose number of
    iterations is not structurally bounded are run with fuel; [OutOfFuel]
    is an outcome of the model only, and the theorems below show that it
    does not occur with the fuel the entry points supply. *)

Inductive exn := IndexError | ValueError | KeyError.

Inductive res (A : Type) : Type :=
| Ret (a : A)
| Raise (e : exn)
| OutOfFuel.
Arguments Ret {A} a.
Arguments Raise {A} e.
Arguments OutOfFuel {A}.

#[global] Instance res_bind : MBind res := λ A B k m,
  match m with
  | Ret a => k a
  | Raise e => Raise e
  | OutOfFuel => OutOfFuel
  end.

(** [l[i]] for a Python list and a non-negative index. *)
Definition py_index {A} (l : list A) (i : nat) : res A :=
  match l !! i with
  | Some a => Ret a
  | None => Raise IndexError
  end.

(** ** Voxel coordinates, pairs, arrays *)

Abbreviation coord := (Z * Z * Z)%type.
(** A [(point, parent)] pair as recorded by the labeller. *)
Abbreviation ppair := ((Z * Z * Z) * (Z * Z * Z))%type.

Definition cadd (p d : coord) : coord :=
  let '(x, y, z) := p in
  let '(dx, dy, dz) := d in
  (x + dx, y + dy, z + dz).

Definition directions : list coord :=
  [(-1, 0, 0); (1, 0, 0); (0, -1, 0); (0, 1, 0); (0, 0, -1);
   (0, 0, 1); (-1, -1, 0); (-1, 1, 0); (1, -1, 0); (1, 1, 0);
   (-1, 0, -1); (-1, 0, 1); (1, 0, -1); (1, 0, 1); (0, -1, -1);
   (0, -1, 1); (0, 1, -1); (0, 1, 1); (-1, -1, -1); (-1, -1, 1);
   (-1, 1, -1); (-1, 1, 1); (1, -1, -1); (1, 1, -1); (1, -1, 1); (1, 1, 1)].

(** A three-dimensional numpy array: its shape and its cells; a cell that
    was never written holds the fill value of [np.zeros]. *)
Record ndarray (A : Type) := NdArray { shape : coord; cells : gmap (Z * Z * Z) A }.
Arguments NdArray {A} shape cells.
Arguments shape {A} n.
Arguments cells {A} n.

Definition np_zeros {A} (s : coord) : ndarray A := NdArray s ∅.

(** [0 <= x < shape[0] and 0 <= y < shape[1] and 0 <= z < shape[2]] *)
Definition in_shape (s c : coord) : bool :=
  let '(sx, sy, sz) := s in
  let '(x, y, z) := c in
  (0 <=? x) && (x <? sx) && (0 <=? y) && (y <? sy) && (0 <=? z) && (z <? sz).

(** numpy's treatment of one index along an axis of length [n]: negative
    indices count from the end, anything else out of range raises. *)
Definition np_index (i n : Z) : res Z :=
  if (0 <=? i) && (i <? n) then Ret i
  else if (- n <=? i) && (i <? 0) then Ret (i + n)
  else Raise IndexError.

Definition np_locate (s c : coord) : res coord :=
  let '(sx, sy, sz) := s in
  let '(x, y, z) := c in
  x' ← np_index x sx ;
  y' ← np_index y sy ;
  z' ← np_index z sz ;
  Ret (x', y', z').

(** Read of a cell whose index is already known to be within the shape. *)
Definition arr_get {A} (d : A) (a : ndarray A) (c : coord) : A :=
  default d (cells a !! c).

Definition arr_put {A} (a : ndarray A) (c : coord) (v : A) : ndarray A :=
  NdArray (shape a) (<[c := v]> (cells a)).

(** [a[x, y, z] = v] *)
Definition arr_set {A} (a : ndarray A) (c : coord) (v : A) : res (ndarray A) :=
  c' ← np_locate (shape a) c ;
  Ret (arr_put a c' v).

(** ** Insertion-ordered dictionaries with natural-number keys *)

Definition dict (V : Type) := list (nat * V).

Fixpoint dict_get {V} (d : dict V) (k : nat) : option V :=
  match d with
  | [] => None
  | (k', v) :: d' => if decide (k' = k) then Some v else dict_get d' k
  end.

(** [d[k] = v]: replaces in place, or appends a new key at the end. *)
Fixpoint dict_set {V} (d : dict V) (k : nat) (v : V) : dict V :=
  match d with
  | [] => [(k, v)]
  | (k', v') :: d' =>
      if decide (k' = k) then (k', v) :: d' else (k', v') :: dict_set d' k v
  end.

Definition dict_keys {V} (d : dict V) : list nat := d.*1.

(** ** SkeletonGraphLabeler: [label_vessel_grades] *)

(** The variables of the [while] loop.  [grades] is a float array in the
    source; it only ever holds 0 and generations, which are naturals. *)
Record bfs_state := BfsState {
  grades : ndarray nat;
  queue : list (coord * nat * coord);
  point_list_with_prior : dict (list ppair)
}.

(** The body of [for dx, dy, dz in directions], for the voxel [p] dequeued
    with generation [current_grade]; the loop carries [connections]. *)
Definition visit (vessel_data : ndarray Z) (p : coord) (current_grade : nat)
    (acc : nat * bfs_state) (d : coord) : nat * bfs_state :=
  let '(connections, st) := acc in
  let n := cadd p d in
  if in_shape (shape vessel_data) n
     && bool_decide (arr_get 0 vessel_data n = 1)
     && bool_decide (arr_get 0%nat (grades st) n = 0%nat)
  then
    let connections := S connections in
    let new_grade :=
      if (1 <? connections)%nat then (current_grade + 1)%nat else current_grade in
    let plwp := point_list_with_prior st in
    let plwp :=
      match dict_get plwp new_grade with
      | None => dict_set plwp new_grade []
      | Some _ => plwp
      end in
    let plwp :=
      dict_set plwp new_grade (default [] (dict_get plwp new_grade) ++ [(n, p)]) in
    (connections,
     BfsState (arr_put (grades st) n new_grade)
              (queue st ++ [(n, new_grade, p)])
              plwp)
  else acc.

(** One iteration of [while queue]. *)
Definition bfs_iter (vessel_data : ndarray Z) (st : bfs_state) : option bfs_state :=
  match queue st with
  | [] => None
  | (p, current_grade, _) :: q =>
      Some (foldl (visit vessel_data p current_grade)
                  (0%nat, BfsState (grades st) q (point_list_with_prior st))
                  directions).2
  end.

Fixpoint bfs_loop (fuel : nat) (vessel_data : ndarray Z) (st : bfs_state)
    : res bfs_state :=
  match bfs_iter vessel_data st with
  | None => Ret st
  | Some st' =>
      match fuel with
      | O => OutOfFuel
      | S fuel' => bfs_loop fuel' vessel_data st'
      end
  end.

Definition box_size (s : coord) : nat :=
  let '(sx, sy, sz) := s in
  (Z.to_nat sx * Z.to_nat sy * Z.to_nat sz)%nat.

(** ** Segment reconstruction: [_get_all_segments] *)

(** State of the [while] loop for one generation [k]: the [readed] flags,
    [seg_num], the segments built so far ([seg_dic[k]], keyed by segment
    number; each deque is a list whose head is the deque's left end) and
    [find_flag]. *)
Record seg_state := SegState {
  readed : list nat;
  seg_num : nat;
  segs : dict (list ppair);
  find_flag : nat
}.

(** The first [for] loop over [enumerate(point_list_with_prior[k])] from
    index [i] on: the first pair not yet read, with its index. *)
Fixpoint first_unread (i : nat) (rd : list nat) (pl : list ppair)
    : res (option (nat * ppair)) :=
  match pl, rd with
  | [], _ => Ret None
  | _ :: _, [] => Raise IndexError
  | pp :: pl', r :: rd' =>
      if decide (r = 1%nat) then first_unread (S i) rd' pl' else Ret (Some (i, pp))
  end.

(** The second [for] loop, from index [i] on: the first unread pair that
    extends the current segment [seg_dic[k][seg_num]] at its right end
    ([append]: its point is the parent of the last pair) or at its left end
    ([appendleft]: its parent is the point of the first pair), with the
    extended segment. *)
Fixpoint scan (cur : option (list ppair)) (i : nat) (rd : list nat) (pl : list ppair)
    : res (option (nat * list ppair)) :=
  match pl, rd with
  | [], _ => Ret None
  | _ :: _, [] => Raise IndexError
  | pp :: pl', r :: rd' =>
      if decide (r = 1%nat) then scan cur (S i) rd' pl'
      else
        match cur with
        | None => Raise KeyError
        | Some seg =>
            match last seg, head seg with
            | Some tl, Some hd =>
                if decide (pp.1 = tl.2) then Ret (Some (i, seg ++ [pp]))
                else if decide (pp.2 = hd.1) then Ret (Some (i, pp :: seg))
                else scan cur (S i) rd' pl'
            | _, _ => Raise IndexError
            end
        end
  end.

(** [if find_flag != 1: seg_num += 1; ...] *)
Definition seg_seed (pl : list ppair) (st : seg_state) : res seg_state :=
  if decide (find_flag st = 1%nat) then Ret st
  else
    let sn := S (seg_num st) in
    r ← first_unread 0 (readed st) pl;
    match r with
    | Some (i, pp) =>
        Ret (SegState (<[i := 1%nat]> (readed st)) sn
                      (dict_set (segs st) sn [pp]) (find_flag st))
    | None => Ret (SegState (readed st) sn (segs st) (find_flag st))
    end.

(** One iteration of [while sum(readed) < len(point_list_with_prior[k])]. *)
Definition seg_iter (pl : list ppair) (st : seg_state) : res seg_state :=
  st ← seg_seed pl st;
  r ← scan (dict_get (segs st) (seg_num st)) 0 (readed st) pl;
  match r with
  | Some (i, cur') =>
      Ret (SegState (<[i := 1%nat]> (readed st)) (seg_num st)
                    (dict_set (segs st) (seg_num st) cur') 1)
  | None => Ret (SegState (readed st) (seg_num st) (segs st) 0)
  end.

Fixpoint seg_loop (fuel : nat) (pl : list ppair) (st : seg_state) : res seg_state :=
  if decide (sum_list (readed st) < length pl)%nat then
    match fuel with
    | O => OutOfFuel
    | S fuel' => st' ← seg_iter pl st; seg_loop fuel' pl st'
    end
  else Ret st.

(** The body of [for k in point_list_with_prior]: the segments of one
    generation. *)
Definition segments_of (pl : list ppair) : res (dict (list ppair)) :=
  st ← seg_loop (2 * length pl) pl (SegState (replicate (length pl) 0%nat) 0 [] 0);
  Ret (segs st).

Fixpoint get_all_segments_from (seg_dic : dict (dict (list ppair)))
    (plwp : dict (list ppair)) : res (dict (dict (list ppair))) :=
  match plwp with
  | [] => Ret seg_dic
  | (k, pl) :: rest =>
      sk ← segments_of pl;
      get_all_segments_from (dict_set seg_dic k sk) rest
  end.

Definition _get_all_segments (plwp : dict (list ppair))
    : res (dict (dict (list ppair))) :=
  get_all_segments_from [] plwp.

Definition label_vessel_grades (vessel_data : ndarray Z) (start_point : coord)
    : res (ndarray nat * dict (dict (list ppair))) :=
  g0 ← arr_set (np_zeros (shape vessel_data)) start_point 1%nat;
  st ← bfs_loop (S (box_size (shape vessel_data))) vessel_data
         (BfsState g0 [(start_point, 1%nat, (-1, -1, -1))] []);
  seg_dic ← _get_all_segments (point_list_with_prior st);
  Ret (grades st, seg_dic).

(** ** BranchNode *)

(** The dictionary with keys ["line"], ["subtree"], ["deep"], ["subLength"],
    ["dividePointIndex"], ["layer"].  Divide indices are positions produced
    by [enumerate] or sums of such positions and lengths, hence naturals. *)
#[local] Set Warnings "-register-all".
Inductive tree : Type := Node {
  line : list ppair;
  subtree : list tree;
  deep : list nat;
  subLength : list nat;
  dividePointIndex : list nat;
  layer : nat
}.

#[global] Instance tree_inhabited : Inhabited tree :=
  populate (Node [] [] [] [] [] 0).

(** Number of nodes of a tree. *)
Fixpoint tree_size (t : tree) : nat :=
  S (sum_list (map tree_size (subtree t))).

(** ** TreeBuilder: [build_tree_structure] *)

(** [find_dad]: a two-dimensional integer array. *)
Definition fd_get (find_dad : list (list nat)) (i j : nat) : option nat :=
  row ← find_dad !! i; row !! j.

Definition fd_set (find_dad : list (list nat)) (i j v : nat) : list (list nat) :=
  match find_dad !! i with
  | Some row => <[i := <[j := v]> row]> find_dad
  | None => find_dad
  end.

(** The segments in the order of [for i in seg_dic: for j in seg_dic[i]]. *)
Definition seg_items (seg_dic : dict (dict (list ppair)))
    : list (nat * nat * list ppair) :=
  '(i, sd) ← seg_dic; '(j, seg) ← sd; [(i, j, seg)].

Section build.
(** The recursive call ([seg_dic] and the next layer being fixed by the
    caller) and the argument [layer]. *)
Variable rec : tree → list (list nat) → res (tree * list (list nat)).
Variable lyr : nat.

(** The body of [for k, point in enumerate(blood_tree['line'])] for the
    segment [seg_dic[i][j]]; the loop carries the [subtree] and
    [dividePointIndex] lists of [blood_tree] and [find_dad].  An exception
    raised by [seg_dic[i][j][-1]] or [find_dad[i][j]] is caught by the
    [except] clause, which prints and goes on with the next [k]. *)
Definition attach (i j : nat) (seg : list ppair)
    (acc : list tree * list nat * list (list nat)) (kp : nat * ppair)
    : res (list tree * list nat * list (list nat)) :=
  let '(subs, dpis, find_dad) := acc in
  let '(k, point) := kp in
  match last seg with
  | None => Ret acc
  | Some tl =>
      if decide (tl.2 = point.1) then
        match fd_get find_dad i j with
        | None => Ret acc
        | Some v =>
            if decide (v = 0%nat) then
              let new_tree := Node seg [] [] [] [] lyr in
              '(child, find_dad) ← rec new_tree (fd_set find_dad i j 1);
              Ret (subs ++ [child], dpis ++ [k], find_dad)
            else Ret acc
        end
      else Ret acc
  end.

Fixpoint attach_all (i j : nat) (seg : list ppair)
    (acc : list tree * list nat * list (list nat)) (kps : list (nat * ppair))
    : res (list tree * list nat * list (list nat)) :=
  match kps with
  | [] => Ret acc
  | kp :: kps' => acc' ← attach i j seg acc kp; attach_all i j seg acc' kps'
  end.

Fixpoint build_segs (ln : list ppair)
    (acc : list tree * list nat * list (list nat))
    (items : list (nat * nat * list ppair))
    : res (list tree * list nat * list (list nat)) :=
  match items with
  | [] => Ret acc
  | (i, j, seg) :: items' =>
      acc' ← attach_all i j seg acc (imap pair ln);
      build_segs ln acc' items'
  end.
End build.

(** [fuel] bounds the depth of the recursion. *)
Fixpoint build_tree_structure (fuel : nat) (blood_tree : tree) (lyr : nat)
    (seg_dic : dict (dict (list ppair))) (find_dad : list (list nat))
    : res (tree * list (list nat)) :=
  match fuel with
  | O => OutOfFuel
  | S fuel' =>
      '(subs, dpis, find_dad) ←
        build_segs
          (λ t fd, build_tree_structure fuel' t (lyr + 1) seg_dic fd) lyr
          (line blood_tree)
          (subtree blood_tree, dividePointIndex blood_tree, find_dad)
          (seg_items seg_dic);
      Ret (Node (line blood_tree) subs (deep blood_tree) (subLength blood_tree)
                dpis (layer blood_tree), find_dad)
  end.

(** ** DepthAnnotator: [assign_depth] *)

(** Loop state of [assign_depth]: the children already annotated, then
    [max_deep], [max_length], [max_length_ind] and the node's [deep] and
    [subLength] lists. *)
Record depth_acc := DepthAcc {
  da_subs : list tree;
  da_max_deep : nat;
  da_max_length : nat;
  da_max_length_ind : nat;
  da_deep : list nat;
  da_subLength : list nat
}.

Section depth.
(** The recursive call and the node's [dividePointIndex] list. *)
Variable rec : tree → res (tree * (nat * nat)).
Variable dpi : list nat.

(** [for i, subt in enumerate(blood_tree['subtree'])], from index [i] on. *)
Fixpoint depth_children (subs : list tree) (i : nat) (acc : depth_acc)
    : res depth_acc :=
  match subs with
  | [] => Ret acc
  | subt :: rest =>
      '(subt', (sb_deep, sb_length)) ← rec subt;
      index ← py_index dpi i;
      let max_deep := Nat.max sb_deep (da_max_deep acc) in
      let '(max_length, max_length_ind) :=
        if (da_max_length acc <? sb_length)%nat then (sb_length, index)
        else (da_max_length acc, da_max_length_ind acc) in
      depth_children rest (S i)
         (DepthAcc (da_subs acc ++ [subt']) max_deep max_length max_length_ind
                   (da_deep acc ++ [sb_deep]) (da_subLength acc ++ [sb_length]))
  end.
End depth.

(** The node is mutated in place: the result carries the annotated node
    next to the returned pair. *)
Fixpoint assign_depth (blood_tree : tree) : res (tree * (nat * nat)) :=
  acc ← depth_children assign_depth (dividePointIndex blood_tree)
           (subtree blood_tree) 0%nat
           (DepthAcc [] 0 0 0 (deep blood_tree) (subLength blood_tree));
  Ret (Node (line blood_tree) (da_subs acc) (da_deep acc) (da_subLength acc)
            (dividePointIndex blood_tree) (layer blood_tree),
       ((da_max_deep acc + 1)%nat,
        (da_max_length acc
         + length (drop (da_max_length_ind acc) (line blood_tree)))%nat)).

(** [empty_depth_info] *)
Fixpoint empty_depth_info (blood_tree : tree) : tree :=
  Node (line blood_tree) (map empty_depth_info (subtree blood_tree))
       (deep blood_tree) [] (dividePointIndex blood_tree) (layer blood_tree).

(** ** TreeCanonicalizer *)

(** [np.argmax] of a list of integers: the first index of the greatest
    value; [ValueError] on an empty list. *)
Fixpoint argmax_from (best_i best_v i : nat) (l : list nat) : nat :=
  match l with
  | [] => best_i
  | x :: l' =>
      if (best_v <? x)%nat then argmax_from i x (S i) l'
      else argmax_from best_i best_v (S i) l'
  end.

Definition np_argmax (l : list nat) : res nat :=
  match l with
  | [] => Raise ValueError
  | x :: l' => Ret (argmax_from 0 x 1 l')
  end.

(** [f(l[n])], written so that a recursive [f] is applied to a subterm. *)
Fixpoint on_index {A B} (f : A → res B) (l : list A) (n : nat) : res B :=
  match l, n with
  | [], _ => Raise IndexError
  | c :: _, O => f c
  | _ :: l', S n' => on_index f l' n'
  end.

Fixpoint find_longest_line (blood_tree : tree) : res (list ppair) :=
  if (0 <? length (line blood_tree))%nat && (0 <? length (subtree blood_tree))%nat
  then
    index ← np_argmax (subLength blood_tree);
    sub_line ← on_index find_longest_line (subtree blood_tree) index;
    d ← py_index (dividePointIndex blood_tree) index;
    Ret (sub_line ++ drop d (line blood_tree))
  else Ret (line blood_tree).

(** An entry [{'branch': ..., 'dividePointIndex': ...}]. *)
Record branch_entry := BranchEntry {
  branch : tree;
  br_dividePointIndex : nat
}.

(** The loop [for i in range(len(dividePointIndex))] of the first case
    (the dominant child attaches at index 0), over the indices [idx]. *)
Fixpoint siblings0 (blood_tree : tree) (max_length_ind : nat)
    (branches : list branch_entry) (idx : list nat) : res (list branch_entry) :=
  match idx with
  | [] => Ret branches
  | i :: idx' =>
      if decide (i ≠ max_length_ind) then
        b ← py_index (subtree blood_tree) i;
        sl ← py_index (subLength blood_tree) max_length_ind;
        di ← py_index (dividePointIndex blood_tree) i;
        dm ← py_index (dividePointIndex blood_tree) max_length_ind;
        siblings0 blood_tree max_length_ind
                  (branches ++ [BranchEntry b (sl + di - dm)]) idx'
      else siblings0 blood_tree max_length_ind branches idx'
  end.

(** The loop of the second case: children attached before the dominant one
    go to [new_tree], the others to [branches]. *)
Fixpoint siblings1 (blood_tree : tree) (max_length_ind : nat)
    (new_tree : tree) (branches : list branch_entry) (idx : list nat)
    : res (tree * list branch_entry) :=
  match idx with
  | [] => Ret (new_tree, branches)
  | i :: idx' =>
      di ← py_index (dividePointIndex blood_tree) i;
      dm ← py_index (dividePointIndex blood_tree) max_length_ind;
      if (di <? dm)%nat then
        b ← py_index (subtree blood_tree) i;
        sli ← py_index (subLength blood_tree) i;
        siblings1 blood_tree max_length_ind
          (Node (line new_tree) (subtree new_tree ++ [b]) (deep new_tree)
                (subLength new_tree ++ [sli]) (dividePointIndex new_tree ++ [di])
                (layer new_tree))
          branches idx'
      else if (dm <=? di)%nat && bool_decide (i ≠ max_length_ind) then
        b ← py_index (subtree blood_tree) i;
        sl ← py_index (subLength blood_tree) max_length_ind;
        siblings1 blood_tree max_length_ind new_tree
                  (branches ++ [BranchEntry b (sl + di - dm)]) idx'
      else siblings1 blood_tree max_length_ind new_tree branches idx'
  end.

Fixpoint find_small_branches (blood_tree : tree) : res (list branch_entry) :=
  if decide (length (subtree blood_tree) = 0%nat) then Ret []
  else
    max_length_ind ← np_argmax (subLength blood_tree);
    dm ← py_index (dividePointIndex blood_tree) max_length_ind;
    if decide (dm = 0%nat) then
      branches ← siblings0 blood_tree max_length_ind []
                   (seq 0 (length (dividePointIndex blood_tree)));
      rest ← on_index find_small_branches (subtree blood_tree) max_length_ind;
      Ret (branches ++ rest)
    else
      let new_tree := Node (take dm (line blood_tree)) [] [] [] [] 999 in
      '(new_tree, branches) ←
        siblings1 blood_tree max_length_ind new_tree []
                  (seq 0 (length (dividePointIndex blood_tree)));
      sl ← py_index (subLength blood_tree) max_length_ind;
      let branches := branches ++ [BranchEntry new_tree sl] in
      rest ← on_index find_small_branches (subtree blood_tree) max_length_ind;
      Ret (branches ++ rest).

(** [max] of a non-empty list of integers. *)
Definition py_max (l : list nat) : nat := foldr Nat.max 0%nat l.

Section canon.
Variable rec : tree → res tree.

(** The loop [for br in branches] of [create_new_tree_from_old], carrying
    the [subtree], [dividePointIndex] and [subLength] lists of [new_tree]. *)
Fixpoint canon_branches (acc : list tree * list nat * list nat)
    (branches : list branch_entry) : res (list tree * list nat * list nat) :=
  match branches with
  | [] => Ret acc
  | br :: branches' =>
      let '(subs, dpis, sls) := acc in
      sub ← rec (branch br);
      let sls :=
        match subLength (branch br) with
        | [] => sls
        | _ :: _ => sls ++ [py_max (subLength (branch br))]
        end in
      canon_branches (subs ++ [sub], dpis ++ [br_dividePointIndex br], sls)
                     branches'
  end.
End canon.

(** [fuel] bounds the depth of the recursion. *)
Fixpoint create_new_tree_from_old (fuel : nat) (blood_tree : tree) : res tree :=
  match fuel with
  | O => OutOfFuel
  | S fuel' =>
      new_line ← find_longest_line blood_tree;
      branches ← find_small_branches blood_tree;
      '(subs, dpis, sls) ←
        canon_branches (create_new_tree_from_old fuel') ([], [], []) branches;
      Ret (Node new_line subs [] sls dpis 0)
  end.

(** ** The pipeline: [get_tree_from_region] and [get_all_lines_and_tree] *)

(** [np.sum((center_middle - sk_coords)**2, axis=1)], for integer
    coordinates. *)
Definition sq_dist (c p : coord) : Z :=
  let '(cx, cy, cz) := c in
  let '(x, y, z) := p in
  (cx - x) * (cx - x) + (cy - y) * (cy - y) + (cz - z) * (cz - z).

(** [np.argmin]: the first index of the least value; [ValueError] on an
    empty array. *)
Fixpoint argmin_from (best_i : nat) (best_v : Z) (i : nat) (l : list Z) : nat :=
  match l with
  | [] => best_i
  | x :: l' =>
      if x <? best_v then argmin_from i x (S i) l'
      else argmin_from best_i best_v (S i) l'
  end.

Definition np_argmin (l : list Z) : res nat :=
  match l with
  | [] => Raise ValueError
  | x :: l' => Ret (argmin_from 0 x 1 l')
  end.

(** [skeleton_data[sk_coords[:, 0], sk_coords[:, 1], sk_coords[:, 2]] = 1] *)
Fixpoint set_all (a : ndarray Z) (cs : list coord) : res (ndarray Z) :=
  match cs with
  | [] => Ret a
  | c :: cs' => a' ← arr_set a c 1; set_all a' cs'
  end.

(** [max] of a list of integers; [ValueError] on an empty list. *)
Definition py_max_list (l : list nat) : res nat :=
  match l with
  | [] => Raise ValueError
  | _ :: _ => Ret (py_max l)
  end.

(** The number of cells of [find_dad] that hold 0. *)
Definition fd_zeros (find_dad : list (list nat)) : nat :=
  sum_list (map (λ row, length (filter (λ v, v = 0%nat) row)) find_dad).

(** The raw tree of a skeleton: the part of [get_tree_from_region] before
    annotation.  [data] is used for its shape only. *)
Definition raw_tree_from_region (data_shape : coord) (center_middle : coord)
    (sk_coords : list coord) : res tree :=
  most_recent ← np_argmin (sq_dist center_middle <$> sk_coords);
  most_recent_coord ← py_index sk_coords most_recent;
  let blood_tree := Node [(most_recent_coord, (0, 0, 0))] [] [] [] [] 0 in
  skeleton_data ← set_all (np_zeros data_shape) sk_coords;
  '(_, seg_dic) ← label_vessel_grades skeleton_data most_recent_coord;
  max_length ← py_max_list ((λ kv, length kv.2) <$> seg_dic);
  let find_dad :=
    replicate (length (dict_keys seg_dic) + 3) (replicate (max_length + 3) 0%nat) in
  '(blood_tree, _) ←
    build_tree_structure (S (fd_zeros find_dad)) blood_tree 0 seg_dic find_dad;
  Ret blood_tree.

Definition get_tree_from_region (data_shape : coord) (center_middle : coord)
    (sk_coords : list coord) : res tree :=
  blood_tree ← raw_tree_from_region data_shape center_middle sk_coords;
  '(blood_tree, _) ← assign_depth blood_tree;
  create_new_tree_from_old (tree_size blood_tree) blood_tree.

(** The tail of [get_all_lines_and_tree] of [main.py]: [empty_depth_info],
    [assign_depth], [create_new_tree_from_old] on [main_tree]. *)
Definition recanonicalize (main_tree : tree) : res tree :=
  let main_tree := empty_depth_info main_tree in
  '(main_tree, _) ← assign_depth main_tree;
  create_new_tree_from_old (tree_size main_tree) main_tree.

(** [get_all_lines_and_tree], for the skeleton [bigger_regions[0]] that the
    connected-component extraction delivers. *)
Definition get_all_lines_and_tree (data_shape : coord) (center_point : coord)
    (sk_coords : list coord) : res tree :=
  main_tree ← get_tree_from_region data_shape center_point sk_coords;
  recanonicalize main_tree.

(** ** Predicates on trees *)

(** A property of every node of a tree. *)
Fixpoint all_nodes (P : tree → Prop) (t : tree) : Prop :=
  P t ∧ foldr (λ c Q, all_nodes P c ∧ Q) True (subtree t).

(** What tree building guarantees of a node: a non-empty line, one divide
    index per child, each of them a position of the node's line. *)
Definition raw_node_ok (t : tree) : Prop :=
  line t ≠ [] ∧
  length (dividePointIndex t) = length (subtree t) ∧
  Forall (λ d, d < length (line t))%nat (dividePointIndex t).

(** A raw tree, before annotation. *)
Definition raw_wf : tree → Prop :=
  all_nodes (λ t, raw_node_ok t ∧ deep t = [] ∧ subLength t = []).

(** The length that annotation records for a node, read off the node's own
    [subLength] list: the greatest entry (the first one, on a tie) plus the
    points of the line from that child's divide index on. *)
Definition path_len (t : tree) : nat :=
  match np_argmax (subLength t) with
  | Ret i =>
      (subLength t !!! i + length (drop (dividePointIndex t !!! i) (line t)))%nat
  | _ => length (line t)
  end.

(** An annotated tree: [subLength] holds, child by child, the length of the
    child. *)
Definition ann_node_ok (t : tree) : Prop :=
  raw_node_ok t ∧ subLength t = map path_len (subtree t).

Definition ann_wf : tree → Prop := all_nodes ann_node_ok.

(** Every divide index of a node is a position of the node's own line. *)
Definition indices_valid (t : tree) : Prop :=
  Forall (λ d, 0 ≤ d < length (line t))%nat (dividePointIndex t).

(** The [subLength] entries that [create_new_tree_from_old] records for the
    collected branches: one for each branch whose own [subLength] list is
    not empty. *)
Definition canon_subLength (branches : list branch_entry) : list nat :=
  flat_map (λ br, match subLength (branch br) with
                  | [] => []
                  | _ :: _ => [py_max (subLength (branch br))]
                  end) branches.

(** ** Root-to-leaf paths, as the specification counts them

    Every root-to-leaf path of a tree, with its voxel count: down the path,
    the points of each node's line from the divide index of the followed
    child to the end, plus the full line of the leaf. *)
Fixpoint path_counts (t : tree) : list nat :=
  match subtree t with
  | [] => [length (line t)]
  | _ :: _ =>
      concat (zip_with
                (λ c d, map (λ n, (n + length (drop d (line t)))%nat) (path_counts c))
                (subtree t) (dividePointIndex t))
  end.

(** The maximum found by enumerating all root-to-leaf paths. *)
Definition max_path_count (t : tree) : nat := py_max (path_counts t).

(** ** Skeletons used as examples *)

(** A Y: the trunk [(5,5,0) .. (5,5,4)] and two arms of five voxels that
    leave the trunk's end [(5,5,4)] diagonally. *)
Definition y_skeleton : list coord :=
  ((λ z, (5, 5, z)) <$> seqZ 0 5)
  ++ ((λ i, (5 + i, 5, 4 + i)) <$> seqZ 1 5)
  ++ ((λ i, (5 - i, 5, 4 + i)) <$> seqZ 1 5).

(** The same Y with its arms in the other diagonal plane. *)
Definition y_skeleton' : list coord :=
  ((λ z, (5, 5, z)) <$> seqZ 0 5)
  ++ ((λ i, (5, 5 + i, 4 + i)) <$> seqZ 1 5)
  ++ ((λ i, (5, 5 - i, 4 + i)) <$> seqZ 1 5).

(** A trunk of ten voxels with a side branch of three voxels near the root
    and a side branch of one voxel near the far end. *)
Definition comb_skeleton : list coord :=
  ((λ z, (5, 5, z)) <$> seqZ 0 10) ++ [(6, 5, 2); (7, 5, 3); (8, 5, 4)] ++ [(4, 5, 9)].

Definition ret_or {A} (d : A) (r : res A) : A :=
  match r with Ret a => a | _ => d end.

(** The raw trees of the Y and of the comb, rooted at [(5,5,0)]. *)
Definition y_raw : tree :=
  Eval vm_compute in
    ret_or inhabitant (raw_tree_from_region (12, 12, 12) (5, 5, 0) y_skeleton).

Definition comb_raw : tree :=
  Eval vm_compute in
    ret_or inhabitant (raw_tree_from_region (12, 12, 12) (5, 5, 0) comb_skeleton).

(** The annotated trees of the Y and of the comb. *)
Definition y_annotated : tree :=
  Eval vm_compute in (ret_or (inhabitant, (0, 0)%nat) (assign_depth y_raw)).1.

Definition comb_annotated : tree :=
  Eval vm_compute in (ret_or (inhabitant, (0, 0)%nat) (assign_depth comb_raw)).1.

(** The four parallel lists of a node have one entry per child. *)
Definition lists_parallel (n : tree) : Prop :=
  length (subtree n) = length (dividePointIndex n) ∧
  length (subLength n) = length (subtree n) ∧
  length (deep n) = length (subtree n).

(** The canonical tree of the Y. *)
Definition y_canonical : tree :=
  Eval vm_compute in
    ret_or inhabitant (create_new_tree_from_old (tree_size y_annotated) y_annotated).

(** ** Attachment of children *)

(** The child [c] hangs at index [k] of the line [ln]: the parent of the
    last pair of its line is the point at [ln[k]]. *)
Definition child_attached (ln : list ppair) (c : tree) (k : nat) : Prop :=
  ∃ tl pt, last (line c) = Some tl ∧ ln !! k = Some pt ∧ tl.2 = pt.1.

Definition attach_ok (n : tree) : Prop :=
  Forall2 (child_attached (line n)) (subtree n) (dividePointIndex n).

(** The nodes of a tree, the root first, and the nodes below the root. *)
Fixpoint nodes (t : tree) : list tree := t :: flat_map nodes (subtree t).

Definition descendants (t : tree) : list tree := flat_map nodes (subtree t).

(** Two segments offered to a root at the origin: the first hangs at the
    root, the parent of the second's tail, [(9,9,9)], is on no line. *)
Definition stray_seg_dic : dict (dict (list ppair)) :=
  [(1%nat, [(1%nat, [((0, 0, 2), (0, 0, 1)); ((0, 0, 1), (0, 0, 0))]);
            (2%nat, [((5, 5, 5), (9, 9, 9))])])].

Definition origin_root : tree := Node [((0, 0, 0), (0, 0, 0))] [] [] [] [] 0.

(** ** Reachability in the mask and the effect of one traversal step *)

(** The voxel [c] lies in the grid and is set in the mask. *)
Definition is_set (vessel_data : ndarray Z) (c : coord) : Prop :=
  in_shape (shape vessel_data) c = true ∧ arr_get 0 vessel_data c = 1.

(** 26-connectivity: [n] is [p] moved by one of the 26 directions. *)
Definition adjacent (p n : coord) : Prop :=
  ∃ d, d ∈ directions ∧ n = cadd p d.

Definition mask_edge (vessel_data : ndarray Z) (p n : coord) : Prop :=
  adjacent p n ∧ is_set vessel_data n.

(** [c] can be reached from the set voxel [root] by steps between adjacent
    set voxels. *)
Definition reachable (vessel_data : ndarray Z) (root c : coord) : Prop :=
  is_set vessel_data root ∧ rtc (mask_edge vessel_data) root c.

(** The test of [visit]: within the grid, set, and not yet labelled. *)
Definition fresh (vessel_data : ndarray Z) (g : ndarray nat) (n : coord) : bool :=
  in_shape (shape vessel_data) n
  && bool_decide (arr_get 0 vessel_data n = 1)
  && bool_decide (arr_get 0%nat g n = 0%nat).

(** The unvisited qualifying neighbours of [p], in the enumeration order of
    the 26 directions. *)
Definition unvisited_neighbors (vessel_data : ndarray Z) (g : ndarray nat)
    (p : coord) : list coord :=
  filter (λ n, fresh vessel_data g n) (cadd p <$> directions).

(** The generations that a voxel dequeued with [current_grade] hands out to
    its [k] unvisited qualifying neighbours: the first keeps the current
    generation, each of the others gets the next one. *)
Definition handed_out (current_grade : nat) (ns : list coord) : list (coord * nat) :=
  match ns with
  | [] => []
  | n :: ns' => (n, current_grade) :: ((λ m, (m, (current_grade + 1)%nat)) <$> ns')
  end.

(** Recording a newly labelled voxel [n] with generation [gr] and
    predecessor [p]: the three updates of the body of [visit]. *)
Definition dict_app {V} (d : dict (list V)) (k : nat) (v : V) : dict (list V) :=
  let d :=
    match dict_get d k with
    | None => dict_set d k []
    | Some _ => d
    end in
  dict_set d k (default [] (dict_get d k) ++ [v]).

Definition record_new (p : coord) (st : bfs_state) (ng : coord * nat) : bfs_state :=
  BfsState (arr_put (grades st) ng.1 ng.2)
           (queue st ++ [(ng.1, ng.2, p)])
           (dict_app (point_list_with_prior st) ng.2 (ng.1, p)).

(** The points of all segments, generation by generation, segment by
    segment. *)
Definition segment_points (seg_dic : dict (dict (list ppair))) : list coord :=
  '(i, j, seg) ← seg_items seg_dic; seg.*1.


(** The mask of the Y skeleton. *)
Definition y_mask : ndarray Z :=
  Eval vm_compute in
    ret_or (np_zeros (12, 12, 12)) (set_all (np_zeros (12, 12, 12)) y_skeleton).

(** * Notions used in the proofs *)

Open Scope nat_scope.

(** ** Labelling *)

(** The generation handed to the next fresh neighbour when [c] neighbours
    have been counted already. *)
Definition grade_after (cg c : nat) : nat := if 1 <? S c then cg + 1 else cg.

Fixpoint handed_from (cg c : nat) (ns : list coord) : list (coord * nat) :=
  match ns with
  | [] => []
  | n :: ns' => (n, grade_after cg c) :: handed_from cg (S c) ns'
  end.

(** The state after dequeuing. *)
Definition popped (st : bfs_state) : bfs_state :=
  BfsState (grades st) (tail (queue st)) (point_list_with_prior st).

(** The recorded pairs with their generation, in dictionary order. *)
Definition recorded (d : dict (list ppair)) : list (nat * ppair) :=
  '(k, pl) ← d; pair k <$> pl.

(** The cells of a grid of shape [s]. *)
Definition box_cells (s : coord) : list coord :=
  x ← seqZ 0 s.1.1; y ← seqZ 0 s.1.2; z ← seqZ 0 s.2; [(x, y, z)].

(** The generation of a voxel in a state, and the recorded points. *)
Definition grade_of (st : bfs_state) (c : coord) : nat := arr_get 0 (grades st) c.

Definition rec_points (st : bfs_state) : list coord :=
  (recorded (point_list_with_prior st)).*2.*1.

(** The invariant of [while queue] for the mask [vd] and the root [root];
    [ex] is the voxel being expanded, the only labelled voxel that may be
    neither queued nor closed. *)
Record bfs_inv (vd : ndarray Z) (root : coord) (ex : coord → Prop)
    (st : bfs_state) : Prop := BfsInv {
  inv_root : grade_of st root = 1;
  inv_box : ∀ c, grade_of st c ≠ 0 → in_shape (shape vd) c = true;
  inv_queue : ∀ n gr prev, (n, gr, prev) ∈ queue st → grade_of st n = gr ∧ 1 ≤ gr;
  inv_rec : ∀ gen n p,
    (gen, (n, p)) ∈ recorded (point_list_with_prior st) →
    grade_of st n = gen ∧ 1 ≤ grade_of st p ∧ grade_of st p ≤ gen ∧ gen ≤ grade_of st p + 1 ∧
    mask_edge vd p n;
  inv_lab : ∀ c, grade_of st c ≠ 0 ↔ c = root ∨ c ∈ rec_points st;
  inv_nodup : NoDup (root :: rec_points st);
  inv_reach : ∀ c, grade_of st c ≠ 0 → rtc (mask_edge vd) root c;
  inv_closed : ∀ c, grade_of st c ≠ 0 →
    c ∈ (queue st).*1.*1 ∨ ex c ∨ ∀ n, mask_edge vd c n → grade_of st n ≠ 0;
  inv_keys : NoDup (dict_keys (point_list_with_prior st))
}.

(** What decreases in every iteration: the queued voxels plus the cells of
    the grid that are not labelled yet. *)
Definition measure (vd : ndarray Z) (st : bfs_state) : nat :=
  length (queue st) + length (filter (λ c, grade_of st c = 0) (box_cells (shape vd))).

(** The state in which the loop starts, for a root within the grid. *)
Definition bfs_start (vd : ndarray Z) (root : coord) : bfs_state :=
  BfsState (arr_put (np_zeros (shape vd)) root 1) [(root, 1, (-1, -1, -1)%Z)] [].

(** ** Segment reconstruction *)

(** The pairs not yet read. *)
Definition unread (rd : list nat) (pl : list ppair) : list ppair :=
  (filter (λ rp, rp.1 ≠ 1) (zip rd pl)).*2.

(** All pairs of the segments of one generation. *)
Definition seg_pairs (sk : dict (list ppair)) : list ppair := concat sk.*2.

(** The invariant of the [while] loop of [_get_all_segments] for the pairs
    [pl] of one generation. *)
Record seg_inv (pl : list ppair) (st : seg_state) : Prop := SegInv {
  si_len : length (readed st) = length pl;
  si_bits : Forall (λ r, r ≤ 1) (readed st);
  si_keys : dict_keys (segs st) = seq 1 (seg_num st);
  si_nonempty : Forall (λ kv, kv.2 ≠ []) (segs st);
  si_perm : seg_pairs (segs st) ++ unread (readed st) pl ≡ₚ pl;
  si_flag : find_flag st = 1 → 1 ≤ seg_num st
}.

(** What decreases in every iteration of that loop. *)
Definition seg_measure (pl : list ppair) (st : seg_state) : nat :=
  2 * length (unread (readed st) pl) + (if decide (find_flag st = 1) then 1 else 0).

(** The pairs of a segment dictionary with their generation. *)
Definition tagged (sd : dict (dict (list ppair))) : list (nat * ppair) :=
  '(i, sk) ← sd; pair i <$> seg_pairs sk.

(** ** Tree building *)

(** What tree building maintains of every node. *)
Definition built_ok (n : tree) : Prop :=
  attach_ok n ∧ deep n = [] ∧ subLength n = [].

(** The loop state of tree building for a node with line [ln]: the children
    attached so far hang at their indices, and are built. *)
Definition state_ok (ln : list ppair)
    (acc : list tree * list nat * list (list nat)) : Prop :=
  Forall2 (child_attached ln) acc.1.1 acc.1.2 ∧
  Forall (all_nodes built_ok) acc.1.1.

(** ** Annotation and canonicalisation *)

(** [r] is the first index of the greatest value of [l]. *)
Definition is_argmax (l : list nat) (r : nat) : Prop :=
  ∃ v, l !! r = Some v ∧ (∀ j x, l !! j = Some x → x ≤ v) ∧
       (∀ j x, j < r → l !! j = Some x → x < v).

(** The update of [(max_length, max_length_ind)] in the loop of
    [assign_depth], for a child of length [sd.1] attached at [sd.2]. *)
Definition track (acc : nat * nat) (sd : nat * nat) : nat * nat :=
  if acc.1 <? sd.1 then sd else acc.

(** What annotation preserves and establishes, child by child. *)
Definition annotates (c c' : tree) : Prop :=
  ann_wf c' ∧ line c' = line c ∧ dividePointIndex c' = dividePointIndex c ∧
  length (subtree c') = length (subtree c) ∧
  tree_size c' = tree_size c ∧
  all_nodes (λ n, length (deep n) = length (subtree n)) c' ∧
  1 ≤ path_len c'.

(** The weight of the children at the indices [idx], the one at [a] left out. *)
Definition others_size (t : tree) (a : nat) (idx : list nat) : nat :=
  sum_list (map (λ j, if decide (j = a) then 0 else tree_size (subtree t !!! j)) idx).

(** A sibling collected from the node [t], whose dominant child has length
    [sl] and hangs at index [dm]: annotated, a child of [t], and attached at
    a position of the part of the new line that [t] contributes. *)
Definition sibling_ok (t : tree) (dm sl : nat) (br : branch_entry) : Prop :=
  ann_wf (branch br) ∧ branch br ∈ subtree t ∧
  br_dividePointIndex br < sl + (length (line t) - dm).

(** The synthetic node under construction in the second case of
    [find_small_branches]. *)
Definition new_tree_ok (t : tree) (dm : nat) (nt : tree) : Prop :=
  line nt = take dm (line t) ∧
  length (dividePointIndex nt) = length (subtree nt) ∧
  Forall (λ d, d < dm) (dividePointIndex nt) ∧
  subLength nt = map path_len (subtree nt) ∧
  Forall ann_wf (subtree nt).

(** A collected branch: annotated, attached at a position of the new line
    of [t], and smaller than [t]. *)
Definition branch_ok (t : tree) (br : branch_entry) : Prop :=
  ann_wf (branch br) ∧ br_dividePointIndex br < path_len t ∧
  tree_size (branch br) < tree_size t.

(** What canonicalisation guarantees of every node it creates. *)
Definition canon_node_ok (n : tree) : Prop := raw_node_ok n ∧ deep n = [].

(** A canonical tree: the canonicalisation of an annotated raw tree. *)
Definition canonical (c : tree) : Prop :=
  ∃ t0 t r, raw_wf t0 ∧ assign_depth t0 = Ret (t, r) ∧
            create_new_tree_from_old (tree_size t) t = Ret c.

(** * Further code and notions *)

(** ** Tree statistics ([vessel_tool/main.py]) *)

(** [_calculate_tree_depth]: 1 for a node without children, else one more
    than the greatest depth of a child. *)
Fixpoint _calculate_tree_depth (t : tree) : nat :=
  match subtree t with
  | [] => 1
  | _ :: _ =>
      foldl (λ max_depth sub, Nat.max max_depth (_calculate_tree_depth sub)) 0
            (subtree t) + 1
  end.

(** The integer entries of the [stats] dictionary of
    [visualize_tree_statistics]; [average_branch_length], the float quotient
    of the first two, is left out. *)
Record tree_stats := TreeStats {
  total_points : nat;
  total_branches : nat;
  max_depth : nat
}.

(** The inner function [count_tree_stats(node, depth)], which updates
    [stats] in place. *)
Fixpoint count_tree_stats (node : tree) (depth : nat) (stats : tree_stats)
    : tree_stats :=
  foldl (λ stats sub, count_tree_stats sub (depth + 1) stats)
        (TreeStats (total_points stats + length (line node))
                   (total_branches stats + 1)
                   (Nat.max (max_depth stats) depth))
        (subtree node).

Definition visualize_tree_statistics (t : tree) : tree_stats :=
  count_tree_stats t 0 (TreeStats 0 0 0).

(** All pairs of all lines of a tree, the root's line first. *)
Fixpoint all_points (t : tree) : list ppair :=
  line t ++ flat_map all_points (subtree t).

(** Every node has a divide index for each of its children. *)
Definition indexed (t : tree) : Prop :=
  all_nodes (λ n, length (subtree n) ≤ length (dividePointIndex n)) t.

(** A tree without its annotations: [deep] and [subLength] emptied in every
    node. *)
Fixpoint strip (t : tree) : tree :=
  Node (line t) (map strip (subtree t)) [] [] (dividePointIndex t) (layer t).

(** ** Annotation in closed form *)

(** The length that [assign_depth] returns for a tree: the loop's
    [max_length] and [max_length_ind] over the children's returned lengths
    and divide indices, then [max_length + len(line[max_length_ind:])]. *)
Fixpoint returned_length (t : tree) : nat :=
  let m := foldl track (0, 0) (zip (map returned_length (subtree t))
                                   (dividePointIndex t)) in
  m.1 + length (drop m.2 (line t)).

(** The tree as [assign_depth] leaves it. *)
Fixpoint annotated (t : tree) : tree :=
  Node (line t) (map annotated (subtree t))
       (deep t ++ map _calculate_tree_depth (subtree t))
       (subLength t ++ map returned_length (subtree t))
       (dividePointIndex t) (layer t).

(** The node [n'] is the node [n] with one entry per child appended to
    [deep] and to [subLength], and nothing else changed. *)
Definition grows (n n' : tree) : Prop :=
  line n' = line n ∧ dividePointIndex n' = dividePointIndex n ∧
  layer n' = layer n ∧ length (subtree n') = length (subtree n) ∧
  ∃ ds ls, deep n' = deep n ++ ds ∧ subLength n' = subLength n ++ ls ∧
           length ds = length (subtree n) ∧ length ls = length (subtree n).

(** ** Shape of the labeller's result *)

(** numpy accepts the index [c] for an array of shape [s]: every component
    lies in [-n, n) for its axis of length [n]. *)
Definition in_np_range (s c : coord) : Prop :=
  (- s.1.1 ≤ c.1.1 < s.1.1 ∧ - s.1.2 ≤ c.1.2 < s.1.2 ∧ - s.2 ≤ c.2 < s.2)%Z.

(** What holds of the queue and of [point_list_with_prior] whatever the
    start point is: the generations in use are [1 .. K], in this order, each
    with at least one pair, and a queued voxel has a generation of at most
    [K + 1]. *)
Record bfs_shape (st : bfs_state) : Prop := BfsShape {
  sh_queue : ∀ n gr prev, (n, gr, prev) ∈ queue st →
    1 ≤ gr ≤ length (point_list_with_prior st) + 1;
  sh_keys : dict_keys (point_list_with_prior st)
            = seq 1 (length (point_list_with_prior st));
  sh_nonempty : Forall (λ kv, kv.2 ≠ []) (point_list_with_prior st)
}.

(** A segment is a chain: the parent of each pair is the point of the next
    pair. *)
Fixpoint chain (seg : list ppair) : Prop :=
  match seg with
  | x :: rest =>
      match rest with
      | y :: _ => x.2 = y.1 ∧ chain rest
      | [] => True
      end
  | [] => True
  end.

(** The segments of one generation: numbered [1 .. n], each a non-empty
    chain. *)
Definition segs_ok (sk : dict (list ppair)) : Prop :=
  dict_keys sk = seq 1 (length sk) ∧ Forall (λ js, js.2 ≠ [] ∧ chain js.2) sk.

(** A segment dictionary as the labeller returns it: generations [1 .. K],
    each with at least one segment. *)
Definition seg_dic_ok (sd : dict (dict (list ppair))) : Prop :=
  dict_keys sd = seq 1 (length sd) ∧ Forall (λ kv, kv.2 ≠ [] ∧ segs_ok kv.2) sd.

(** The result of labelling the Y skeleton from the foot of its trunk. *)
Definition y_labelled : ndarray nat * dict (dict (list ppair)) :=
  Eval vm_compute in
    ret_or (np_zeros (12, 12, 12)%Z, []) (label_vessel_grades y_mask (5, 5, 0)%Z).

(** ** Tree building, step by step *)

(** The segments that can still be attached: their flag exists and is 0. *)
Definition open_items (find_dad : list (list nat))
    (items : list (nat * nat * list ppair)) : list (nat * nat * list ppair) :=
  filter (λ x, fd_get find_dad x.1.1 x.1.2 = Some 0) items.

(** No flag is cleared from [fd] to [fd']. *)
Definition fd_mono (fd fd' : list (list nat)) : Prop :=
  ∀ i j, fd_get fd' i j = Some 0 → fd_get fd i j = Some 0.

(** A node created by a call with argument [layer = l], with everything
    that call attached below it. *)
Fixpoint layered (l : nat) (c : tree) : Prop :=
  layer c = l ∧ foldr (λ s Q, layered (l + 1) s ∧ Q) True (subtree c).

(** The parent of the tail of [seg] is on none of the lines of [ns]. *)
Definition tail_off (seg : list ppair) (ns : list tree) : Prop :=
  ∀ tl n pt, last seg = Some tl → n ∈ ns → pt ∈ line n → pt.1 ≠ tl.2.

(** The effect of a stretch of the loops of [build_tree_structure] for a
    node with line [ln], called with [layer = lyr], on the loop state
    (children, divide indices, [find_dad]): children [news] are appended
    with their indices; the lines of the new nodes are the segments whose
    flag was raised, each once; a segment that is still open at the end
    hangs on none of the new nodes; nodes and zero flags are conserved. *)
Definition build_step (items : list (nat * nat * list ppair)) (lyr : nat)
    (ln : list ppair) (acc acc' : list tree * list nat * list (list nat)) : Prop :=
  ∃ news ks,
    acc'.1.1 = acc.1.1 ++ news ∧ acc'.1.2 = acc.1.2 ++ ks ∧
    length ks = length news ∧ Forall (λ k, k < length ln) ks ∧
    fd_mono acc.2 acc'.2 ∧
    map line (flat_map nodes news) ++ (open_items acc'.2 items).*2
    ≡ₚ (open_items acc.2 items).*2 ∧
    (∀ y, y ∈ open_items acc'.2 items → tail_off y.2 (flat_map nodes news)) ∧
    sum_list (map tree_size news) + fd_zeros acc'.2 = fd_zeros acc.2 ∧
    Forall (layered lyr) news.

(** What a call of [build_tree_structure] on the node [t] achieves. *)
Definition built_from (items : list (nat * nat * list ppair)) (lyr : nat)
    (t : tree) (fd : list (list nat)) (t' : tree) (fd' : list (list nat)) : Prop :=
  line t' = line t ∧ deep t' = deep t ∧ subLength t' = subLength t ∧
  layer t' = layer t ∧
  build_step items lyr (line t) (subtree t, dividePointIndex t, fd)
             (subtree t', dividePointIndex t', fd') ∧
  (∀ y tl pt, y ∈ open_items fd' items → last y.2 = Some tl →
              pt ∈ line t → pt.1 ≠ tl.2).

(** ** Ancestry of labelled voxels *)

(** Following recorded [(point, parent)] pairs from [c] leads to [root]. *)
Inductive rooted (R : list ppair) (root : coord) : coord → Prop :=
| rooted_root : rooted R root root
| rooted_step n p : (n, p) ∈ R → rooted R root p → rooted R root n.

(** Every labelled voxel descends from the root by recorded pairs. *)
Definition rooted_inv (root : coord) (st : bfs_state) : Prop :=
  ∀ c, grade_of st c ≠ 0 →
       rooted (recorded (point_list_with_prior st)).*2 root c.

(** The voxels connected to [root] within the skeleton [sk]. *)
Definition connected (sk : list coord) (root c : coord) : Prop :=
  rtc (λ p n, adjacent p n ∧ n ∈ sk) root c.

(** ** Points through canonicalisation *)

(** All pairs of the collected branches. *)
Definition branch_points (brs : list branch_entry) : list ppair :=
  brs ≫= (λ br, all_points (branch br)).

(** All pairs of the children of [t] at the indices [idx], the child at
    [a] left out. *)
Definition except_points (t : tree) (a : nat) (idx : list nat) : list ppair :=
  idx ≫= (λ j, if decide (j = a) then [] else all_points (subtree t !!! j)).

(** ** [mean_insert] ([vessel_tool/base.py]) *)

Section mean_insert.
(** The points are lists of floats.  Their arithmetic is not modelled:
    [midpoint p q] stands for [((np.array(p) + np.array(q)) / 2).tolist()]
    and [nudge p] for [(np.array(p) + 0.001).tolist()]. *)
Variable point : Type.
Variable midpoint : point → point → point.
Variable nudge : point → point.

(** The body of [for i, point in enumerate(points)]. *)
Definition mean_step (points : list point) (acc : res (list point))
    (ip : nat * point) : res (list point) :=
  newpoints ← acc;
  if decide (ip.1 + 1 < length points) then
    next ← py_index points (ip.1 + 1);
    Ret (newpoints ++ [ip.2; midpoint ip.2 next])
  else Ret newpoints.

(** [points[-1]] *)
Definition py_last (points : list point) : res point :=
  match last points with
  | Some p => Ret p
  | None => Raise IndexError
  end.

(** [num_insert] is a parameter of the source that the body never uses. *)
Definition mean_insert (points : list point) (num_insert : nat)
    : res (list point) :=
  newpoints ← foldl (mean_step points) (Ret []) (imap pair points);
  p ← py_last points;
  q ← py_last points;
  Ret (newpoints ++ [p; nudge q]).
End mean_insert.

(** ** Voxel paths *)

(** A node whose line is a voxel path and whose children hang where their
    own path continues: the parent of the last pair of a child's line is
    the point of the node's line at the child's divide index. *)
Definition path_node_ok (n : tree) : Prop := chain (line n) ∧ attach_ok n.

Definition path_tree : tree → Prop := all_nodes path_node_ok.

(** A collected branch hangs at its index of the line [l] and is a tree of
    voxel paths. *)
Definition branch_hangs (l : list ppair) (br : branch_entry) : Prop :=
  child_attached l (branch br) (br_dividePointIndex br) ∧ path_tree (branch br).

(** ** What canonicalisation reads *)

(** A tree with the [deep] list of every node emptied. *)
Fixpoint forget_deep (t : tree) : tree :=
  Node (line t) (map forget_deep (subtree t)) [] (subLength t)
       (dividePointIndex t) (layer t).

Definition forget_branch (br : branch_entry) : branch_entry :=
  BranchEntry (forget_deep (branch br)) (br_dividePointIndex br).

(** The outcome [r] with [f] applied to its value. *)
Definition res_map {A B} (f : A → B) (r : res A) : res B := x ← r; Ret (f x).

(** * Properties *)

(** ** The outcome monad *)

Lemma bind_Ret {A B} (m : res A) (k : A → res B) (b : B) :
  m ≫= k = Ret b ↔ ∃ a, m = Ret a ∧ k a = Ret b.
Proof.
  destruct m as [a| |]; simpl; split.
  - eauto.
  - intros (a' & [= ->] & ?); done.
  - done.
  - intros (? & ? & _); done.
  - done.
  - intros (? & ? & _); done.
Qed.

Lemma py_index_Ret {A} (l : list A) i a : py_index l i = Ret a ↔ l !! i = Some a.
Proof. unfold py_index. destruct (l !! i); split; congruence. Qed.

Lemma py_index_lt {A} (l : list A) i :
  i < length l → ∃ a, py_index l i = Ret a ∧ l !! i = Some a.
Proof.
  intros [a Ha]%lookup_lt_is_Some_2. exists a. by rewrite py_index_Ret.
Qed.

(** ** Lists *)

Lemma Forall2_right {A B} (R : A → B → Prop) (Q : B → Prop) l l' :
  Forall2 R l l' → (∀ x y, R x y → Q y) → Forall Q l'.
Proof. induction 1; intros HQ; constructor; eauto. Qed.

(** ** Induction on trees *)

Lemma tree_ind' (P : tree → Prop) :
  (∀ t, Forall P (subtree t) → P t) → ∀ t, P t.
Proof.
  intros IH. fix self 1. intros [ln subs dp sl dpi ly]. apply IH. simpl.
  induction subs as [|c subs IHs]; constructor; [apply self | apply IHs].
Qed.

Lemma all_nodes_unfold P t :
  all_nodes P t ↔ P t ∧ Forall (all_nodes P) (subtree t).
Proof.
  destruct t as [ln subs dp sl dpi ly]; simpl.
  assert (foldr (λ c Q, all_nodes P c ∧ Q) True subs ↔ Forall (all_nodes P) subs) as ->; [|done].
  induction subs as [|c subs IHs]; simpl.
  - split; [constructor | done].
  - rewrite Forall_cons, IHs. done.
Qed.

Lemma all_nodes_impl (P Q : tree → Prop) t :
  (∀ t, P t → Q t) → all_nodes P t → all_nodes Q t.
Proof.
  intros HPQ. induction t as [t IH] using tree_ind'.
  rewrite !all_nodes_unfold. intros [Ht Hs]. split; [auto|].
  rewrite Forall_forall in IH. rewrite Forall_forall in Hs.
  apply Forall_forall. intros c Hc. apply IH; auto.
Qed.

Lemma tree_size_unfold t : tree_size t = S (sum_list (map tree_size (subtree t))).
Proof. by destruct t. Qed.

(** ** [np.argmax] *)

Lemma is_argmax_unique l r1 r2 : is_argmax l r1 → is_argmax l r2 → r1 = r2.
Proof.
  intros (v1 & H1 & Hle1 & Hlt1) (v2 & H2 & Hle2 & Hlt2).
  destruct (Nat.lt_trichotomy r1 r2) as [Hlt|[->|Hlt]]; [|done|].
  - specialize (Hlt2 _ _ Hlt H1). specialize (Hle1 _ _ H2). lia.
  - specialize (Hlt1 _ _ Hlt H2). specialize (Hle2 _ _ H1). lia.
Qed.

Lemma argmax_from_spec pre l bi bv :
  pre !! bi = Some bv →
  (∀ j x, pre !! j = Some x → x ≤ bv) →
  (∀ j x, j < bi → pre !! j = Some x → x < bv) →
  is_argmax (pre ++ l) (argmax_from bi bv (length pre) l).
Proof.
  revert pre bi bv. induction l as [|x l IH]; intros pre bi bv Hbi Hle Hlt; simpl.
  - rewrite app_nil_r. exists bv. eauto.
  - replace (pre ++ x :: l) with ((pre ++ [x]) ++ l) by by rewrite <- app_assoc.
    replace (S (length pre)) with (length (pre ++ [x]))
      by (rewrite length_app; simpl; lia).
    destruct (bv <? x) eqn:Hc.
    + apply Nat.ltb_lt in Hc. apply IH.
      * by rewrite lookup_app_r, Nat.sub_diag.
      * intros j y Hj. apply lookup_app_Some in Hj as [Hj|[_ Hj]].
        -- apply Hle in Hj. lia.
        -- apply list_lookup_singleton_Some in Hj as [_ ->]. lia.
      * intros j y Hjl Hj. rewrite lookup_app_l in Hj by done.
        apply Hle in Hj. lia.
    + apply Nat.ltb_ge in Hc. apply IH.
      * rewrite lookup_app_l; [done|]. by eapply lookup_lt_Some.
      * intros j y Hj. apply lookup_app_Some in Hj as [Hj|[_ Hj]].
        -- by eapply Hle.
        -- apply list_lookup_singleton_Some in Hj as [_ ->]. lia.
      * intros j y Hjl Hj. apply lookup_lt_Some in Hbi as Hb.
        rewrite lookup_app_l in Hj by lia. by eapply Hlt.
Qed.

Lemma np_argmax_is_argmax l r : np_argmax l = Ret r → is_argmax l r.
Proof.
  destruct l as [|x l]; [done|]. simpl. intros [= <-].
  apply (argmax_from_spec [x] l 0 x).
  - done.
  - intros [|j] y; simpl; [intros [= ->]; lia|done].
  - intros; lia.
Qed.

Lemma np_argmax_nonempty l : l ≠ [] → ∃ r, np_argmax l = Ret r.
Proof. destruct l; [done|]. simpl. eauto. Qed.

Lemma np_argmax_spec l r : np_argmax l = Ret r ↔ is_argmax l r.
Proof.
  split; [apply np_argmax_is_argmax|].
  intros Hr. destruct (np_argmax_nonempty l) as [r' Hr'].
  - destruct Hr as (v & Hv & _). intros ->. done.
  - rewrite Hr'. f_equal. eapply is_argmax_unique; [|done].
    by apply np_argmax_is_argmax.
Qed.

Lemma np_argmax_lt l r : np_argmax l = Ret r → r < length l.
Proof.
  intros (v & Hv & _)%np_argmax_is_argmax. by eapply lookup_lt_Some.
Qed.

Lemma is_argmax_snoc l r v x :
  is_argmax l r → l !! r = Some v →
  is_argmax (l ++ [x]) (if v <? x then length l else r).
Proof.
  intros (v' & Hv' & Hle & Hlt) Hv. assert (v' = v) as -> by congruence.
  destruct (v <? x) eqn:Hc.
  - apply Nat.ltb_lt in Hc. exists x. split_and!.
    + by rewrite lookup_app_r, Nat.sub_diag.
    + intros j y Hj. apply lookup_app_Some in Hj as [Hj|[_ Hj]].
      * apply Hle in Hj. lia.
      * apply list_lookup_singleton_Some in Hj as [_ ->]. lia.
    + intros j y Hjl Hj. rewrite lookup_app_l in Hj by done.
      apply Hle in Hj. lia.
  - apply Nat.ltb_ge in Hc. exists v. split_and!.
    + rewrite lookup_app_l; [done|]. by eapply lookup_lt_Some.
    + intros j y Hj. apply lookup_app_Some in Hj as [Hj|[_ Hj]].
      * by eapply Hle.
      * apply list_lookup_singleton_Some in Hj as [_ ->]. lia.
    + intros j y Hjl Hj. apply lookup_lt_Some in Hv as Hb.
      rewrite lookup_app_l in Hj by lia. by eapply Hlt.
Qed.

(** ** Labelling: the 26 neighbours *)

Lemma cadd_inj p d1 d2 : cadd p d1 = cadd p d2 → d1 = d2.
Proof.
  destruct p as [[x y] z], d1 as [[a1 b1] c1], d2 as [[a2 b2] c2]. simpl.
  intros [= ? ? ?]. f_equal; [f_equal|]; lia.
Qed.

Lemma directions_NoDup : NoDup directions.
Proof. apply (bool_decide_unpack _). vm_compute. exact I. Qed.

Lemma neighbors_NoDup p : NoDup (cadd p <$> directions).
Proof.
  apply NoDup_fmap_2; [|apply directions_NoDup].
  intros d1 d2. apply cadd_inj.
Qed.

(** ** Labelling: one iteration in closed form *)

Lemma filter_ext_in {A} (P Q : A → Prop) `{∀ x, Decision (P x)} `{∀ x, Decision (Q x)}
    (l : list A) :
  (∀ x, x ∈ l → P x ↔ Q x) → filter P l = filter Q l.
Proof.
  induction l as [|x l IH]; intros Hext; [done|].
  rewrite !filter_cons.
  rewrite IH by (intros y Hy; apply Hext; by apply list_elem_of_further).
  destruct (decide (P x)) as [HP|HP], (decide (Q x)) as [HQ|HQ]; try done.
  - exfalso. apply HQ, Hext; [apply list_elem_of_here|done].
  - exfalso. apply HP, Hext; [apply list_elem_of_here|done].
Qed.

Lemma fresh_spec vd g n :
  fresh vd g n = true ↔ is_set vd n ∧ arr_get 0 g n = 0.
Proof.
  unfold fresh, is_set. rewrite !andb_true_iff, !bool_decide_eq_true. tauto.
Qed.

Lemma arr_get_put_eq {A} (d : A) a c v : arr_get d (arr_put a c v) c = v.
Proof. unfold arr_get, arr_put. simpl. by rewrite lookup_insert_eq. Qed.

Lemma arr_get_put_ne {A} (d : A) a c c' v :
  c ≠ c' → arr_get d (arr_put a c v) c' = arr_get d a c'.
Proof. intros. unfold arr_get, arr_put. simpl. by rewrite lookup_insert_ne. Qed.

Lemma fresh_put_ne vd g c v n : c ≠ n → fresh vd (arr_put g c v) n = fresh vd g n.
Proof. intros. unfold fresh. by rewrite arr_get_put_ne. Qed.

Lemma handed_from_S cg c ns :
  handed_from cg (S c) ns = (λ m, (m, cg + 1)) <$> ns.
Proof.
  revert c. induction ns as [|n ns IH]; intros c; simpl; [done|].
  by rewrite IH.
Qed.

Lemma handed_from_0 cg ns : handed_from cg 0 ns = handed_out cg ns.
Proof. destruct ns as [|n ns]; simpl; [done|]. by rewrite handed_from_S. Qed.

Lemma visit_fresh vd p cg c st d :
  fresh vd (grades st) (cadd p d) = true →
  visit vd p cg (c, st) d = (S c, record_new p st (cadd p d, grade_after cg c)).
Proof.
  unfold visit, fresh. intros ->. unfold record_new, grade_after, dict_app. done.
Qed.

Lemma visit_stale vd p cg c st d :
  fresh vd (grades st) (cadd p d) = false → visit vd p cg (c, st) d = (c, st).
Proof. unfold visit, fresh. by intros ->. Qed.

Lemma visit_fold vd p cg ds :
  NoDup (cadd p <$> ds) →
  ∀ c st,
    foldl (visit vd p cg) (c, st) ds
    = (c + length (filter (λ n, fresh vd (grades st) n) (cadd p <$> ds)),
       foldl (record_new p) st
             (handed_from cg c (filter (λ n, fresh vd (grades st) n) (cadd p <$> ds)))).
Proof.
  induction ds as [|d ds IH]; intros Hnd c st.
  { simpl. f_equal. lia. }
  rewrite fmap_cons in Hnd. apply NoDup_cons in Hnd as [Hnotin Hnd].
  cbn [foldl]. rewrite fmap_cons.
  destruct (fresh vd (grades st) (cadd p d)) eqn:Hf.
  - rewrite visit_fresh by done. rewrite IH by done.
    rewrite filter_cons_True by (by rewrite Hf).
    assert (filter (λ n, fresh vd (grades (record_new p st (cadd p d, grade_after cg c))) n)
                   (cadd p <$> ds)
            = filter (λ n, fresh vd (grades st) n) (cadd p <$> ds)) as ->.
    { apply filter_ext_in. intros n Hn. simpl.
      rewrite fresh_put_ne; [done|]. by intros <-. }
    simpl. f_equal. lia.
  - rewrite visit_stale by done. rewrite IH by done.
    rewrite filter_cons_False by (rewrite Hf; simpl; tauto). done.
Qed.

Lemma bfs_iter_spec vd st p cg prev q :
  queue st = (p, cg, prev) :: q →
  bfs_iter vd st
  = Some (foldl (record_new p) (popped st)
                (handed_out cg (unvisited_neighbors vd (grades st) p))).
Proof.
  intros Hq. unfold bfs_iter. rewrite Hq. f_equal.
  rewrite (visit_fold vd p cg directions (neighbors_NoDup p)). simpl.
  rewrite handed_from_0. unfold popped. by rewrite Hq.
Qed.

Lemma bfs_iter_None vd st : bfs_iter vd st = None ↔ queue st = [].
Proof. unfold bfs_iter. destruct (queue st) as [|[[? ?] ?] ?]; done. Qed.

(** ** Dictionaries *)

Lemma dict_app_nil {V} k (v : V) : dict_app [] k v = [(k, [v])].
Proof. unfold dict_app. simpl. by repeat (case_decide; simplify_eq/=). Qed.

Lemma dict_app_cons {V} k' (l : list V) d k v :
  dict_app ((k', l) :: d) k v
  = if decide (k' = k) then (k', l ++ [v]) :: d else (k', l) :: dict_app d k v.
Proof.
  unfold dict_app. simpl. destruct (decide (k' = k)) as [->|Hne]; simpl.
  - by repeat (case_decide; simplify_eq/=).
  - destruct (dict_get d k); simpl; by repeat (case_decide; simplify_eq/=).
Qed.

Lemma recorded_cons k pl d : recorded ((k, pl) :: d) = (pair k <$> pl) ++ recorded d.
Proof. done. Qed.

Lemma recorded_app d k v : recorded (dict_app d k v) ≡ₚ recorded d ++ [(k, v)].
Proof.
  induction d as [|[k' l] d IH].
  - by rewrite dict_app_nil.
  - rewrite dict_app_cons. destruct (decide (k' = k)) as [->|Hne].
    + rewrite !recorded_cons, fmap_app. simpl.
      rewrite <- !(assoc_L (++)). f_equiv. apply Permutation_app_comm.
    + rewrite !recorded_cons, IH. by rewrite (assoc_L (++)).
Qed.

Lemma dict_keys_app {V} (d : dict (list V)) k v :
  NoDup (dict_keys d) → NoDup (dict_keys (dict_app d k v)).
Proof.
  unfold dict_keys.
  assert (∀ k0, k0 ∈ (dict_app d k v).*1 → k0 = k ∨ k0 ∈ d.*1) as Hin.
  { induction d as [|[k' l] d IH]; intros k0.
    - rewrite dict_app_nil. simpl. rewrite list_elem_of_singleton. auto.
    - rewrite dict_app_cons. destruct (decide (k' = k)); simpl; [auto|].
      rewrite !elem_of_cons. intros [->|H]; [auto|].
      destruct (IH _ H); auto. }
  clear Hin. induction d as [|[k' l] d IH]; intros Hnd.
  - rewrite dict_app_nil. simpl. apply NoDup_singleton.
  - rewrite dict_app_cons. simpl in Hnd. apply NoDup_cons in Hnd as [Hk Hnd].
    destruct (decide (k' = k)) as [->|Hne]; simpl.
    + by apply NoDup_cons.
    + apply NoDup_cons. split; [|by apply IH].
      clear IH Hnd. induction d as [|[k2 l2] d IHd].
      * rewrite dict_app_nil. simpl. rewrite list_elem_of_singleton. done.
      * rewrite dict_app_cons. simpl in Hk. rewrite not_elem_of_cons in Hk.
        destruct Hk as [Hk1 Hk2].
        destruct (decide (k2 = k)); simpl; rewrite not_elem_of_cons; auto.
Qed.

(** ** The cells of the grid *)

Lemma elem_of_box_cells s c : c ∈ box_cells s ↔ in_shape s c = true.
Proof.
  destruct s as [[sx sy] sz], c as [[x y] z]. unfold box_cells, in_shape. simpl.
  rewrite !andb_true_iff, !Z.leb_le, !Z.ltb_lt.
  rewrite list_elem_of_bind. split.
  - intros (x' & H & Hx). apply list_elem_of_bind in H as (y' & H & Hy).
    apply list_elem_of_bind in H as (z' & H & Hz).
    apply list_elem_of_singleton in H as [= -> -> ->].
    apply elem_of_seqZ in Hx, Hy, Hz. lia.
  - intros H. exists x. split; [|apply elem_of_seqZ; lia].
    apply list_elem_of_bind. exists y. split; [|apply elem_of_seqZ; lia].
    apply list_elem_of_bind. exists z. split; [|apply elem_of_seqZ; lia].
    by apply list_elem_of_singleton.
Qed.

Lemma NoDup_box_cells s : NoDup (box_cells s).
Proof.
  destruct s as [[sx sy] sz]. unfold box_cells. simpl.
  apply NoDup_bind; [| |apply NoDup_seqZ].
  - intros x1 x2 c _ _ H1 H2.
    apply list_elem_of_bind in H1 as (y1 & H1 & _).
    apply list_elem_of_bind in H1 as (z1 & H1 & _).
    apply list_elem_of_bind in H2 as (y2 & H2 & _).
    apply list_elem_of_bind in H2 as (z2 & H2 & _).
    apply list_elem_of_singleton in H1, H2. congruence.
  - intros x _. apply NoDup_bind; [| |apply NoDup_seqZ].
    + intros y1 y2 c _ _ H1 H2.
      apply list_elem_of_bind in H1 as (z1 & H1 & _).
      apply list_elem_of_bind in H2 as (z2 & H2 & _).
      apply list_elem_of_singleton in H1, H2. congruence.
    + intros y _. apply NoDup_bind; [| |apply NoDup_seqZ].
      * intros z1 z2 c _ _ H1 H2.
        apply list_elem_of_singleton in H1, H2. congruence.
      * intros z _. apply NoDup_singleton.
Qed.

Lemma length_bind_const {A B} (f : A → list B) n l :
  (∀ x, length (f x) = n) → length (l ≫= f) = length l * n.
Proof.
  intros Hf. induction l as [|x l IH]; [done|].
  rewrite bind_cons, length_app, Hf, IH. simpl. lia.
Qed.

Lemma length_box_cells s : length (box_cells s) = box_size s.
Proof.
  destruct s as [[sx sy] sz]. unfold box_cells, box_size. simpl.
  rewrite (length_bind_const _ (Z.to_nat sy * Z.to_nat sz)).
  - rewrite length_seqZ. lia.
  - intros x. rewrite (length_bind_const _ (Z.to_nat sz)).
    + by rewrite length_seqZ.
    + intros y. rewrite (length_bind_const _ 1).
      * rewrite length_seqZ. lia.
      * done.
Qed.

(** Removing one element from the filtered cells. *)
Lemma length_filter_remove {A} `{EqDecision A} (P Q : A → Prop)
    `{∀ x, Decision (P x)} `{∀ x, Decision (Q x)} (l : list A) (a : A) :
  NoDup l → a ∈ l → P a → ¬ Q a → (∀ x, x ≠ a → P x ↔ Q x) →
  S (length (filter Q l)) = length (filter P l).
Proof.
  intros Hnd Ha HP HQ Hext. induction l as [|x l IH]; [by apply elem_of_nil in Ha|].
  apply NoDup_cons in Hnd as [Hx Hnd]. rewrite !filter_cons.
  destruct (decide (x = a)) as [->|Hne].
  - destruct (decide (Q a)); [done|]. destruct (decide (P a)); [|done].
    simpl. f_equal. f_equal. apply filter_ext_in. intros y Hy. symmetry. apply Hext. by intros ->.
  - apply elem_of_cons in Ha as [->|Ha]; [done|]. specialize (IH Hnd Ha).
    destruct (decide (P x)) as [HPx|HPx], (decide (Q x)) as [HQx|HQx]; simpl.
    + lia.
    + exfalso. by apply HQx, Hext.
    + exfalso. by apply HPx, Hext.
    + done.
Qed.

(** ** Labelling: the loop invariant *)

Section bfs.
Variable vd : ndarray Z.
Variable root : coord.

Lemma grade_of_record_new p st n gr c :
  grade_of (record_new p st (n, gr)) c = if decide (c = n) then gr else grade_of st c.
Proof.
  unfold grade_of, record_new. simpl. destruct (decide (c = n)) as [->|Hne].
  - apply arr_get_put_eq.
  - by apply arr_get_put_ne.
Qed.

Lemma record_new_inv ex p cg st n gr :
  bfs_inv vd root ex st → fresh vd (grades st) n = true → adjacent p n →
  grade_of st p = cg → 1 ≤ cg → cg ≤ gr ≤ cg + 1 →
  bfs_inv vd root ex (record_new p st (n, gr)) ∧
  measure vd (record_new p st (n, gr)) = measure vd st.
Proof.
  intros Hinv Hfresh Hadj Hp Hcg Hgr.
  apply fresh_spec in Hfresh as [Hset Hn0]. fold (grade_of st n) in Hn0.
  assert (∀ c, grade_of st c ≠ 0 → c ≠ n) as Hlab_ne by (intros c Hc ->; done).
  assert (recorded (point_list_with_prior (record_new p st (n, gr)))
          ≡ₚ recorded (point_list_with_prior st) ++ [(gr, (n, p))]) as Hrec.
  { simpl. apply recorded_app. }
  assert (rec_points (record_new p st (n, gr)) ≡ₚ rec_points st ++ [n]) as Hpts.
  { unfold rec_points. rewrite Hrec, !fmap_app. done. }
  split; [split|].
  - rewrite grade_of_record_new. rewrite decide_False; [apply Hinv|].
    apply Hlab_ne. rewrite (inv_root _ _ _ _ Hinv). done.
  - intros c. rewrite grade_of_record_new. destruct (decide (c = n)) as [->|_].
    + intros _. apply Hset.
    + apply Hinv.
  - intros m g' prev. simpl. rewrite elem_of_app, list_elem_of_singleton.
    rewrite grade_of_record_new. intros [Hin|[= -> -> ->]].
    + destruct (inv_queue _ _ _ _ Hinv _ _ _ Hin) as [Hm Hg].
      rewrite decide_False; [done|]. apply Hlab_ne. lia.
    + rewrite decide_True by done. split; [done|lia].
  - intros gen m q. rewrite Hrec, elem_of_app, list_elem_of_singleton.
    rewrite !grade_of_record_new. intros [Hin|[= -> -> ->]].
    + destruct (inv_rec _ _ _ _ Hinv _ _ _ Hin) as (Hm & Hq1 & Hq2 & Hq3 & He).
      rewrite !decide_False; [done| |]; apply Hlab_ne; lia.
    + rewrite decide_True by done. rewrite decide_False by (apply Hlab_ne; lia).
      split_and!; try lia. split; [done|exact Hset].
  - intros c. rewrite Hpts, elem_of_app, list_elem_of_singleton, grade_of_record_new.
    pose proof (inv_lab _ _ _ _ Hinv c) as Hl.
    destruct (decide (c = n)) as [->|Hne].
    + split; [auto|]. intros _. lia.
    + rewrite Hl. tauto.
  - rewrite Hpts. rewrite app_comm_cons. apply NoDup_app. split_and!.
    + apply Hinv.
    + intros c Hc. rewrite list_elem_of_singleton. intros ->.
      apply elem_of_cons in Hc. apply (proj2 (inv_lab _ _ _ _ Hinv n)) in Hc. done.
    + apply NoDup_singleton.
  - intros c. rewrite grade_of_record_new. destruct (decide (c = n)) as [->|Hne].
    + intros _. eapply rtc_r; [apply (inv_reach _ _ _ _ Hinv p); lia|].
      split; [done|exact Hset].
    + apply Hinv.
  - intros c. rewrite grade_of_record_new. simpl. rewrite !fmap_app, elem_of_app. simpl.
    destruct (decide (c = n)) as [->|Hne].
    + intros _. left. right. apply list_elem_of_singleton. done.
    + intros Hc. destruct (inv_closed _ _ _ _ Hinv c Hc) as [Hq|[Hex|Hcl]]; [auto|auto|].
      right. right. intros m Hm. rewrite grade_of_record_new.
      destruct (decide (m = n)); [lia|]. by apply Hcl.
  - simpl. apply dict_keys_app, Hinv.
  - unfold measure. simpl. rewrite length_app. simpl.
    rewrite <- (length_filter_remove (λ c, grade_of st c = 0)
                  (λ c, grade_of (record_new p st (n, gr)) c = 0) _ n).
    + simpl. lia.
    + apply NoDup_box_cells.
    + apply elem_of_box_cells, Hset.
    + done.
    + rewrite grade_of_record_new, decide_True by done. lia.
    + intros c Hc. rewrite grade_of_record_new, decide_False by done. done.
Qed.

Lemma record_fold ex p cg new :
  ∀ st,
    bfs_inv vd root ex st → grade_of st p = cg → 1 ≤ cg → NoDup new.*1 →
    Forall (λ ng, fresh vd (grades st) ng.1 = true ∧ adjacent p ng.1 ∧
                  cg ≤ ng.2 ≤ cg + 1) new →
    bfs_inv vd root ex (foldl (record_new p) st new) ∧
    measure vd (foldl (record_new p) st new) = measure vd st ∧
    (∀ c, grade_of st c ≠ 0 → grade_of (foldl (record_new p) st new) c = grade_of st c) ∧
    (∀ n gr, (n, gr) ∈ new → grade_of (foldl (record_new p) st new) n = gr).
Proof.
  induction new as [|[n gr] new IH]; intros st Hinv Hp Hcg Hnd Hall; simpl.
  { split_and!; try done. intros n gr H. by apply elem_of_nil in H. }
  rewrite fmap_cons in Hnd. apply NoDup_cons in Hnd as [Hn Hnd].
  apply Forall_cons in Hall as [(Hf & Ha & Hgr) Hall]. simpl in *.
  destruct (record_new_inv ex p cg st n gr Hinv Hf Ha Hp Hcg Hgr) as [Hinv1 Hm1].
  apply fresh_spec in Hf as Hf'. destruct Hf' as [_ Hn0]. fold (grade_of st n) in Hn0.
  assert (p ≠ n) as Hpn by (intros ->; lia).
  destruct (IH (record_new p st (n, gr))) as (Hinv2 & Hm2 & Hmono & Hnew);
    [done| |done|done| |].
  { rewrite grade_of_record_new, decide_False by done. done. }
  { rewrite Forall_forall in Hall. apply Forall_forall. intros [m g'] Hin.
    destruct (Hall _ Hin) as (Hfm & Ham & Hgm). simpl in *.
    split; [|done]. rewrite fresh_put_ne; [done|].
    intros ->. apply Hn. apply list_elem_of_fmap. by exists (m, g'). }
  split_and!; [done|lia| |].
  - intros c Hc. rewrite Hmono; rewrite grade_of_record_new.
    + rewrite decide_False; [done|]. by intros ->.
    + destruct (decide (c = n)); [lia|done].
  - intros m g' Hin. apply elem_of_cons in Hin as [[= -> ->]|Hin].
    + rewrite Hmono; rewrite grade_of_record_new, decide_True by done; [done|lia].
    + by apply Hnew.
Qed.

Lemma handed_out_fst cg ns : (handed_out cg ns).*1 = ns.
Proof.
  destruct ns as [|n ns]; simpl; [done|]. f_equal.
  rewrite <- list_fmap_compose. apply list_fmap_id.
Qed.

Lemma handed_out_grade cg ns n gr :
  (n, gr) ∈ handed_out cg ns → cg ≤ gr ≤ cg + 1 ∧ n ∈ ns.
Proof.
  destruct ns as [|n0 ns]; simpl; [by intros ?%elem_of_nil|].
  intros [[= -> ->]|Hin]%elem_of_cons.
  - split; [lia|apply list_elem_of_here].
  - apply list_elem_of_fmap in Hin as (m & [= -> ->] & Hm).
    split; [lia|by apply list_elem_of_further].
Qed.

Lemma elem_of_unvisited g p n :
  n ∈ unvisited_neighbors vd g p ↔ fresh vd g n = true ∧ adjacent p n.
Proof.
  unfold unvisited_neighbors. rewrite list_elem_of_filter, list_elem_of_fmap.
  unfold adjacent. split.
  - intros [Hf (d & -> & Hd)]. split; [by apply Is_true_true|eauto].
  - intros [Hf (d & Hd & ->)]. split; [by apply Is_true_true|eauto].
Qed.

Lemma NoDup_unvisited g p : NoDup (unvisited_neighbors vd g p).
Proof. apply NoDup_filter, neighbors_NoDup. Qed.

(** One iteration keeps the invariant and decreases the measure vd. *)
Lemma bfs_iter_inv st p cg prev q :
  bfs_inv vd root (λ _, False) st → queue st = (p, cg, prev) :: q →
  ∃ st', bfs_iter vd st = Some st' ∧ bfs_inv vd root (λ _, False) st' ∧
         S (measure vd st') = measure vd st.
Proof.
  intros Hinv Hq. rewrite (bfs_iter_spec vd st p cg prev q Hq).
  eexists; split; [done|].
  destruct (inv_queue _ _ _ _ Hinv p cg prev) as [Hp Hcg];
    [rewrite Hq; apply list_elem_of_here|].
  assert (bfs_inv vd root (λ c, c = p) (popped st)) as Hpop.
  { destruct Hinv as [H1 H2 H3 H4 H5 H6 H7 H8 H9].
    split; try done.
    - intros n gr pr Hin. apply (H3 n gr pr). simpl in Hin. rewrite Hq in *.
      by apply list_elem_of_further.
    - intros c Hc. destruct (H8 c Hc) as [Hin|[[]|Hcl]]; [|auto].
      simpl. rewrite Hq in *. simpl in *.
      apply elem_of_cons in Hin as [->|Hin]; auto. }
  assert (measure vd st = S (measure vd (popped st))) as Hmp.
  { unfold measure, popped. simpl. rewrite Hq. simpl. done. }
  set (ns := unvisited_neighbors vd (grades st) p).
  destruct (record_fold (λ c, c = p) p cg (handed_out cg ns) (popped st))
    as (Hinv' & Hm' & Hmono & Hnew); [done|done|done| | |].
  { rewrite handed_out_fst. apply NoDup_unvisited. }
  { apply Forall_forall. intros [n gr] Hin. simpl.
    apply handed_out_grade in Hin as [Hgr Hn].
    apply elem_of_unvisited in Hn as [Hf Ha]. done. }
  split; [|lia].
  destruct Hinv' as [H1 H2 H3 H4 H5 H6 H7 H8 H9]. split; try done.
  intros c Hc. destruct (H8 c Hc) as [Hin|[->|Hcl]]; [auto| |auto].
  right. right. intros n [Hadj Hset].
  destruct (decide (grade_of st n = 0)) as [Hz|Hnz].
  - assert (n ∈ ns) as Hn.
    { apply elem_of_unvisited. split; [|done]. apply fresh_spec. done. }
    assert (∃ gr, (n, gr) ∈ handed_out cg ns) as [gr Hgr].
    { rewrite <- (handed_out_fst cg ns) in Hn.
      apply list_elem_of_fmap in Hn as ([n' gr] & -> & Hin). eauto. }
    rewrite (Hnew n gr Hgr). apply handed_out_grade in Hgr. lia.
  - rewrite Hmono; done.
Qed.

Lemma bfs_loop_inv fuel :
  ∀ st, measure vd st ≤ fuel → bfs_inv vd root (λ _, False) st →
  ∃ st', bfs_loop fuel vd st = Ret st' ∧ bfs_inv vd root (λ _, False) st' ∧
         queue st' = [].
Proof.
  induction fuel as [|fuel IH]; intros st Hm Hinv.
  - destruct (queue st) as [|[[p cg] prev] q] eqn:Hq.
    + exists st. simpl. rewrite (proj2 (bfs_iter_None vd st) Hq). done.
    + unfold measure in Hm. rewrite Hq in Hm. simpl in Hm. lia.
  - destruct (queue st) as [|[[p cg] prev] q] eqn:Hq.
    + exists st. simpl. rewrite (proj2 (bfs_iter_None vd st) Hq). done.
    + destruct (bfs_iter_inv st p cg prev q Hinv Hq) as (st1 & Hit & Hinv1 & Hm1).
      simpl. rewrite Hit. apply IH; [lia|done].
Qed.

Lemma bfs_start_inv :
  in_shape (shape vd) root = true → bfs_inv vd root (λ _, False) (bfs_start vd root).
Proof.
  intros Hroot.
  assert (∀ c, grade_of (bfs_start vd root) c = if decide (c = root) then 1 else 0) as HG.
  { intros c. unfold grade_of, bfs_start. simpl. destruct (decide (c = root)) as [->|].
    - apply arr_get_put_eq.
    - rewrite arr_get_put_ne by done. done. }
  split.
  - by rewrite HG, decide_True.
  - intros c. rewrite HG. destruct (decide (c = root)) as [->|]; done.
  - intros n gr prev [= -> -> ->]%list_elem_of_singleton.
    by rewrite HG, decide_True.
  - intros gen n p H. by apply elem_of_nil in H.
  - intros c. rewrite HG. unfold rec_points. simpl.
    destruct (decide (c = root)); split; try done; auto.
    intros [?|H]; [done|by apply elem_of_nil in H].
  - apply NoDup_singleton.
  - intros c. rewrite HG. destruct (decide (c = root)) as [->|]; [|done].
    intros _. apply rtc_refl.
  - intros c. rewrite HG. destruct (decide (c = root)) as [->|]; [|done].
    intros _. left. simpl. apply list_elem_of_here.
  - apply NoDup_nil_2.
Qed.

Lemma bfs_start_measure : measure vd (bfs_start vd root) ≤ S (box_size (shape vd)).
Proof.
  unfold measure. simpl. rewrite <- length_box_cells.
  pose proof (length_filter (λ c, grade_of (bfs_start vd root) c = 0) (box_cells (shape vd))). lia.
Qed.
End bfs.

(** When the queue is empty the labelled voxels are the voxels that can be
    reached from the root. *)
Lemma bfs_final_reach vd root st :
  bfs_inv vd root (λ _, False) st → queue st = [] →
  ∀ c, grade_of st c ≠ 0 ↔ rtc (mask_edge vd) root c.
Proof.
  intros Hinv Hq c. split; [apply Hinv|].
  intros Hrtc. revert c Hrtc. apply rtc_ind_r.
  - rewrite (inv_root _ _ _ _ Hinv). done.
  - intros c n Hrtc Hedge IH.
    destruct (inv_closed _ _ _ _ Hinv c IH) as [Hin|[[]|Hcl]].
    + rewrite Hq in Hin. by apply elem_of_nil in Hin.
    + by apply Hcl.
Qed.

(** ** Segment reconstruction *)

Lemma unread_cons r pp rd pl :
  unread (r :: rd) (pp :: pl) = if decide (r = 1) then unread rd pl else pp :: unread rd pl.
Proof.
  unfold unread. simpl. rewrite filter_cons. simpl.
  destruct (decide (r ≠ 1)), (decide (r = 1)); done.
Qed.

Lemma unread_mark rd : ∀ pl i r pp,
  rd !! i = Some r → r ≠ 1 → pl !! i = Some pp →
  unread rd pl ≡ₚ pp :: unread (<[i := 1]> rd) pl.
Proof.
  induction rd as [|r0 rd IH]; intros [|pp0 pl] [|i] r pp Hr Hne Hpp;
    simpl in *; try done.
  - injection Hr as ->. injection Hpp as ->.
    rewrite !unread_cons. rewrite decide_False by done. by rewrite decide_True.
  - rewrite !unread_cons. destruct (decide (r0 = 1)).
    + by eapply IH.
    + rewrite (IH pl i r pp) by done. apply Permutation_swap.
Qed.

Lemma unread_length rd : ∀ pl,
  length rd = length pl → Forall (λ r, r ≤ 1) rd →
  length (unread rd pl) + sum_list rd = length pl.
Proof.
  induction rd as [|r rd IH]; intros [|pp pl] Hlen Hb; simpl in *; try done.
  apply Forall_cons in Hb as [Hr Hb]. rewrite unread_cons.
  specialize (IH pl ltac:(lia) Hb).
  destruct (decide (r = 1)); simpl; lia.
Qed.

Lemma sum_list_mark rd i r :
  rd !! i = Some r → Forall (λ r, r ≤ 1) rd → r ≠ 1 →
  sum_list (<[i := 1]> rd) = S (sum_list rd) ∧ Forall (λ r, r ≤ 1) (<[i := 1]> rd).
Proof.
  revert i. induction rd as [|r0 rd IH]; intros [|i] Hr Hb Hne; simpl in *; try done.
  - injection Hr as ->. apply Forall_cons in Hb as [Hr Hb].
    split; [lia|]. by constructor.
  - apply Forall_cons in Hb as [Hr0 Hb]. destruct (IH i Hr Hb Hne) as [Hs Hf].
    split; [lia|]. by constructor.
Qed.

Lemma first_unread_spec rd : ∀ pl k,
  length rd = length pl →
  ∃ res, first_unread k rd pl = Ret res ∧
    match res with
    | None => unread rd pl = []
    | Some (i, pp) =>
        ∃ j r, i = k + j ∧ rd !! j = Some r ∧ r ≠ 1 ∧ pl !! j = Some pp
    end.
Proof.
  induction rd as [|r rd IH]; intros [|pp pl] k Hlen; simpl in *; try done.
  - by exists None.
  - destruct (decide (r = 1)) as [->|Hne].
    + destruct (IH pl (S k)) as (res & -> & Hres); [lia|].
      exists res. split; [done|]. destruct res as [[i pp']|].
      * destruct Hres as (j & r & -> & ? & ? & ?). exists (S j), r.
        split_and!; try done; lia.
      * by rewrite unread_cons, decide_True.
    + exists (Some (k, pp)). split; [done|]. exists 0, r. split_and!; try done; lia.
Qed.

Lemma scan_spec seg rd : ∀ pl k,
  seg ≠ [] → length rd = length pl →
  ∃ res, scan (Some seg) k rd pl = Ret res ∧
    match res with
    | None => True
    | Some (i, seg') =>
        ∃ j r pp, i = k + j ∧ rd !! j = Some r ∧ r ≠ 1 ∧ pl !! j = Some pp ∧
                  seg' ≡ₚ pp :: seg
    end.
Proof.
  intros pl k Hseg. revert pl k.
  assert (∃ tl hd, last seg = Some tl ∧ head seg = Some hd) as (tl & hd & Htl & Hhd).
  { destruct seg as [|x seg]; [done|]. simpl.
    destruct (last (x :: seg)) eqn:E; [eauto|].
    apply last_None in E. done. }
  induction rd as [|r rd IH]; intros [|pp pl] k Hlen; simpl in *; try done.
  - by exists None.
  - assert (∃ res, scan (Some seg) (S k) rd pl = Ret res ∧
              match res with
              | None => True
              | Some (i, seg') =>
                  ∃ j r' pp', i = k + j ∧ (r :: rd) !! j = Some r' ∧ r' ≠ 1 ∧
                              (pp :: pl) !! j = Some pp' ∧ seg' ≡ₚ pp' :: seg
              end) as Hrest.
    { destruct (IH pl (S k)) as (res & -> & Hres); [lia|].
      exists res. split; [done|]. destruct res as [[i seg']|]; [|done].
      destruct Hres as (j & r' & pp' & -> & ? & ? & ? & ?).
      exists (S j), r', pp'. split_and!; try done; lia. }
    destruct (decide (r = 1)) as [->|Hne]; [done|].
    rewrite Htl, Hhd.
    destruct (decide (pp.1 = tl.2)).
    { exists (Some (k, seg ++ [pp])). split; [done|].
      exists 0, r, pp. split_and!; try done; try lia.
      by rewrite Permutation_app_comm. }
    destruct (decide (pp.2 = hd.1)); [|done].
    exists (Some (k, pp :: seg)). split; [done|].
    exists 0, r, pp. split_and!; try done; lia.
Qed.

Lemma dict_set_fresh {V} (d : dict V) k v :
  k ∉ dict_keys d → dict_set d k v = d ++ [(k, v)].
Proof.
  unfold dict_keys. induction d as [|[k' v'] d IH]; simpl; [done|].
  rewrite not_elem_of_cons. intros [Hne Hk].
  rewrite decide_False by done. by rewrite IH.
Qed.

Lemma dict_set_keys {V} (d : dict V) k v v0 :
  dict_get d k = Some v0 → dict_keys (dict_set d k v) = dict_keys d.
Proof.
  unfold dict_keys. induction d as [|[k' v'] d IH]; simpl; [done|].
  destruct (decide (k' = k)) as [->|Hne]; simpl; [done|].
  intros H. f_equal. by apply IH.
Qed.

Lemma seg_pairs_replace (d : dict (list ppair)) k cur cur' x :
  dict_get d k = Some cur → cur' ≡ₚ x :: cur →
  seg_pairs (dict_set d k cur') ≡ₚ x :: seg_pairs d.
Proof.
  unfold seg_pairs. induction d as [|[k' v'] d IH]; simpl; [done|].
  destruct (decide (k' = k)) as [->|Hne]; simpl.
  - intros [= ->] Hp. by rewrite Hp.
  - intros Hg Hp. rewrite (IH Hg Hp). symmetry. apply Permutation_middle.
Qed.

Lemma seg_pairs_nonempty_replace (d : dict (list ppair)) k cur' :
  Forall (λ kv, kv.2 ≠ []) d → cur' ≠ [] →
  Forall (λ kv, kv.2 ≠ []) (dict_set d k cur').
Proof.
  induction d as [|[k' v'] d IH]; simpl; intros Hd Hc.
  - by constructor.
  - apply Forall_cons in Hd as [Hv Hd].
    destruct (decide (k' = k)); constructor; auto.
Qed.

Lemma dict_get_elem_of_keys {V} (d : dict V) k :
  k ∈ dict_keys d → ∃ v, dict_get d k = Some v ∧ (k, v) ∈ d.
Proof.
  unfold dict_keys. induction d as [|[k' v'] d IH]; simpl.
  - by intros ?%elem_of_nil.
  - intros Hin. destruct (decide (k' = k)) as [->|Hne].
    + exists v'. split; [done|apply list_elem_of_here].
    + apply elem_of_cons in Hin as [?|Hin]; [done|].
      destruct (IH Hin) as (v & ? & ?). exists v.
      split; [done|by apply list_elem_of_further].
Qed.

Section seg_loop.
Variable pl : list ppair.

(** The second [for] loop and the update that follows it. *)
Lemma scan_phase st :
  seg_inv pl st → 1 ≤ seg_num st →
  ∃ st',
    (r ← scan (dict_get (segs st) (seg_num st)) 0 (readed st) pl;
     match r with
     | Some (i, cur') =>
         Ret (SegState (<[i := 1]> (readed st)) (seg_num st)
                       (dict_set (segs st) (seg_num st) cur') 1)
     | None => Ret (SegState (readed st) (seg_num st) (segs st) 0)
     end) = Ret st' ∧
    seg_inv pl st' ∧ seg_measure pl st' ≤ 2 * length (unread (readed st) pl).
Proof.
  intros [Hlen Hbits Hkeys Hne Hperm Hflag] Hsn.
  destruct (dict_get_elem_of_keys (segs st) (seg_num st)) as (cur & Hcur & Hin).
  { rewrite Hkeys. apply elem_of_seq. lia. }
  assert (cur ≠ []) as Hcne.
  { rewrite Forall_forall in Hne. apply (Hne _ Hin). }
  rewrite Hcur.
  destruct (scan_spec cur (readed st) pl 0 Hcne Hlen) as (res & -> & Hres).
  simpl. destruct res as [[i cur']|].
  - destruct Hres as (j & r & pp & -> & Hr & Hr1 & Hpp & Hc'). simpl.
    eexists; split; [done|].
    destruct (sum_list_mark _ _ _ Hr Hbits Hr1) as [_ Hbits'].
    pose proof (unread_mark _ _ _ _ _ Hr Hr1 Hpp) as Hun.
    split; [split; simpl|].
    + by rewrite length_insert.
    + done.
    + by rewrite (dict_set_keys _ _ _ _ Hcur).
    + apply seg_pairs_nonempty_replace; [done|].
      intros ->. by apply Permutation_nil_cons in Hc'.
    + rewrite (seg_pairs_replace _ _ _ _ _ Hcur Hc'). simpl.
      etrans; [|exact Hperm]. rewrite Hun. apply Permutation_middle.
    + done.
    + unfold seg_measure. simpl. rewrite Hun. simpl. lia.
  - eexists; split; [done|]. split; [split; simpl; try done|].
    unfold seg_measure. simpl. lia.
Qed.

Lemma seg_iter_inv st :
  seg_inv pl st → sum_list (readed st) < length pl →
  ∃ st', seg_iter pl st = Ret st' ∧ seg_inv pl st' ∧ seg_measure pl st' < seg_measure pl st.
Proof.
  intros Hinv Hsum. pose proof Hinv as [Hlen Hbits Hkeys Hne Hperm Hflag].
  pose proof (unread_length _ _ Hlen Hbits) as Hul.
  unfold seg_iter, seg_seed.
  destruct (decide (find_flag st = 1)) as [Hf|Hf].
  - simpl. destruct (scan_phase st Hinv (Hflag Hf)) as (st' & -> & Hinv' & Hm).
    exists st'. split_and!; [done|done|].
    unfold seg_measure at 2. rewrite decide_True by done. lia.
  - destruct (first_unread_spec (readed st) pl 0 Hlen) as (res & -> & Hres).
    simpl. destruct res as [[i pp]|].
    + destruct Hres as (j & r & -> & Hr & Hr1 & Hpp). simpl.
      destruct (sum_list_mark _ _ _ Hr Hbits Hr1) as [_ Hbits'].
      pose proof (unread_mark _ _ _ _ _ Hr Hr1 Hpp) as Hun.
      assert (S (seg_num st) ∉ dict_keys (segs st)) as Hfresh.
      { rewrite Hkeys, elem_of_seq. lia. }
      set (st1 := SegState _ _ _ _).
      assert (seg_inv pl st1) as Hinv1.
      { subst st1. split; simpl.
        - by rewrite length_insert.
        - done.
        - rewrite (dict_set_fresh _ _ _ Hfresh). unfold dict_keys in *.
          rewrite fmap_app, Hkeys. symmetry. apply (seq_S (seg_num st) 1).
        - rewrite (dict_set_fresh _ _ _ Hfresh). apply Forall_app.
          split; [done|]. by apply Forall_singleton.
        - rewrite (dict_set_fresh _ _ _ Hfresh). unfold seg_pairs.
          rewrite fmap_app, concat_app. simpl.
          etrans; [|exact Hperm]. rewrite Hun. rewrite <- (assoc_L (++)). done.
        - done. }
      destruct (scan_phase st1 Hinv1) as (st' & Hst' & Hinv' & Hm);
        [subst st1; simpl; lia|].
      exists st'. split; [exact Hst'|]. split; [done|].
      subst st1. simpl in Hm. unfold seg_measure at 2.
      rewrite decide_False by done. rewrite Hun. simpl. lia.
    + rewrite Hres in Hul. simpl in Hul. lia.
Qed.

Lemma seg_loop_inv fuel :
  ∀ st, seg_measure pl st ≤ fuel → seg_inv pl st →
  ∃ st', seg_loop fuel pl st = Ret st' ∧ seg_inv pl st' ∧
         ¬ sum_list (readed st') < length pl.
Proof.
  induction fuel as [|fuel IH]; intros st Hm Hinv; simpl.
  - destruct (decide (sum_list (readed st) < length pl)) as [Hlt|Hge]; [|eauto].
    destruct (seg_iter_inv st Hinv Hlt) as (st1 & _ & _ & Hm1). lia.
  - destruct (decide (sum_list (readed st) < length pl)) as [Hlt|Hge]; [|eauto].
    destruct (seg_iter_inv st Hinv Hlt) as (st1 & -> & Hinv1 & Hm1). simpl.
    apply IH; [lia|done].
Qed.
End seg_loop.

Lemma unread_replicate pl : unread (replicate (length pl) 0) pl = pl.
Proof.
  induction pl as [|pp pl IH]; [done|]. simpl.
  rewrite unread_cons, decide_False by done. by rewrite IH.
Qed.

(** The segments of a generation hold exactly the pairs of the generation. *)
Lemma segments_of_ok pl :
  ∃ sk, segments_of pl = Ret sk ∧ seg_pairs sk ≡ₚ pl.
Proof.
  unfold segments_of.
  destruct (seg_loop_inv pl (2 * length pl)
              (SegState (replicate (length pl) 0) 0 [] 0))
    as (st & -> & Hinv & Hdone).
  - unfold seg_measure. simpl. rewrite unread_replicate. lia.
  - split; simpl; try done.
    + by rewrite length_replicate.
    + apply Forall_replicate. lia.
    + by rewrite unread_replicate.
  - simpl. exists (segs st). split; [done|].
    destruct Hinv as [Hlen Hbits _ _ Hperm _].
    pose proof (unread_length _ _ Hlen Hbits) as Hul.
    assert (unread (readed st) pl = []) as Hnil.
    { apply length_zero_iff_nil. lia. }
    rewrite Hnil, app_nil_r in Hperm. done.
Qed.

Lemma get_all_segments_from_ok plwp :
  ∀ acc,
    NoDup (dict_keys acc ++ dict_keys plwp) →
    ∃ sd, get_all_segments_from acc plwp = Ret sd ∧
          tagged sd ≡ₚ tagged acc ++ recorded plwp.
Proof.
  induction plwp as [|[k pl] plwp IH]; intros acc Hnd.
  { exists acc. simpl. by rewrite app_nil_r. }
  cbn [get_all_segments_from].
  destruct (segments_of_ok pl) as (sk & -> & Hsk). cbn [mbind res_bind].
  unfold dict_keys in Hnd. simpl in Hnd.
  assert (k ∉ dict_keys acc) as Hk.
  { apply NoDup_app in Hnd as (_ & Hd & _). intros Hin.
    apply (Hd _ Hin). apply list_elem_of_here. }
  rewrite (dict_set_fresh _ _ _ Hk).
  destruct (IH (acc ++ [(k, sk)])) as (sd & -> & Hsd).
  { unfold dict_keys. rewrite fmap_app. simpl. rewrite <- (assoc_L (++)). done. }
  exists sd. split; [done|]. rewrite Hsd. unfold tagged.
  rewrite bind_app, recorded_cons, bind_cons. simpl. rewrite app_nil_r.
  rewrite <- Hsk. by rewrite <- (assoc_L (++)).
Qed.

Lemma segment_points_tagged sd : segment_points sd = (tagged sd).*2.*1.
Proof.
  unfold segment_points, seg_items, tagged.
  induction sd as [|[i sk] sd IH]; [done|].
  rewrite !bind_cons, !fmap_app. rewrite bind_app. rewrite IH. f_equal.
  unfold seg_pairs. clear. induction sk as [|[j seg] sk IH]; [done|].
  rewrite bind_cons. rewrite bind_app. rewrite IH.
  simpl. rewrite !fmap_app. f_equal.
  rewrite app_nil_r. rewrite <- !list_fmap_compose. done.
Qed.

Lemma elem_of_concat {A} (x : A) (ls : list (list A)) :
  x ∈ concat ls ↔ ∃ l, x ∈ l ∧ l ∈ ls.
Proof.
  rewrite list_elem_of_In, in_concat. split; intros (l & H1 & H2); exists l.
  - by rewrite !list_elem_of_In.
  - by rewrite <- !list_elem_of_In.
Qed.

Lemma elem_of_tagged sd i pp :
  (i, pp) ∈ tagged sd ↔ ∃ j seg, (i, j, seg) ∈ seg_items sd ∧ pp ∈ seg.
Proof.
  unfold tagged, seg_items, seg_pairs. rewrite list_elem_of_bind. split.
  - intros ([i' sk] & Hin & Hsk).
    apply list_elem_of_fmap in Hin as (pp' & Heq & Hpp). injection Heq as <- <-.
    apply elem_of_concat in Hpp as (seg & Hpp & Hseg).
    apply list_elem_of_fmap in Hseg as ([j seg'] & -> & Hj).
    exists j, seg'. split; [|done].
    apply list_elem_of_bind. exists (i, sk). split; [|done].
    apply list_elem_of_bind. exists (j, seg'). split; [|done].
    apply list_elem_of_here.
  - intros (j & seg & Hin & Hpp).
    apply list_elem_of_bind in Hin as ([i' sk] & Hin & Hsk).
    apply list_elem_of_bind in Hin as ([j' seg'] & Hin & Hj).
    apply list_elem_of_singleton in Hin. injection Hin as <- <- <-.
    exists (i, sk). split; [|done]. apply list_elem_of_fmap. exists pp.
    split; [done|]. apply elem_of_concat. exists seg. split; [done|].
    apply list_elem_of_fmap. by exists (j, seg).
Qed.

(** ** The labeller as a whole *)

Lemma np_locate_in_shape s c : in_shape s c = true → np_locate s c = Ret c.
Proof.
  destruct s as [[sx sy] sz], c as [[x y] z]. unfold in_shape, np_locate, np_index.
  rewrite !andb_true_iff. intros [[[[[Hx1 Hx2] Hy1] Hy2] Hz1] Hz2].
  by rewrite Hx1, Hx2, Hy1, Hy2, Hz1, Hz2.
Qed.

Lemma label_vessel_grades_ok vd root :
  in_shape (shape vd) root = true →
  ∃ st sd,
    bfs_inv vd root (λ _, False) st ∧ queue st = [] ∧
    label_vessel_grades vd root = Ret (grades st, sd) ∧
    tagged sd ≡ₚ recorded (point_list_with_prior st).
Proof.
  intros Hroot.
  destruct (bfs_loop_inv vd root (S (box_size (shape vd))) (bfs_start vd root))
    as (st & Hloop & Hinv & Hq);
    [apply bfs_start_measure|by apply bfs_start_inv|].
  destruct (get_all_segments_from_ok (point_list_with_prior st) [])
    as (sd & Hsd & Hperm); [apply Hinv|].
  exists st, sd. split_and!; [done|done| |done].
  unfold label_vessel_grades.
  assert (arr_set (np_zeros (shape vd)) root 1
          = Ret (arr_put (np_zeros (shape vd)) root 1)) as ->.
  { unfold arr_set. change (shape (np_zeros (shape vd))) with (shape vd).
    by rewrite (np_locate_in_shape _ _ Hroot). }
  cbn [mbind res_bind]. fold (bfs_start vd root). rewrite Hloop.
  cbn [mbind res_bind]. unfold _get_all_segments. rewrite Hsd. done.
Qed.




Lemma NoDup_bind_disjoint {A B} (f : A → list B) l a b x y z :
  NoDup (l ≫= f) → l !! a = Some x → l !! b = Some y → a ≠ b →
  z ∈ f x → z ∈ f y → False.
Proof.
  revert a b. induction l as [|x0 l IH]; intros a b Hnd Ha Hb Hab Hx Hy; [done|].
  rewrite bind_cons in Hnd. apply NoDup_app in Hnd as (_ & Hdis & Hnd).
  destruct a as [|a], b as [|b]; simpl in *; try done.
  - injection Ha as ->. apply (Hdis z Hx).
    apply list_elem_of_bind. exists y. split; [done|by eapply list_elem_of_lookup_2].
  - injection Hb as ->. apply (Hdis z Hy).
    apply list_elem_of_bind. exists x. split; [done|by eapply list_elem_of_lookup_2].
  - eapply (IH a b); eauto.
Qed.

(** C4.  For every mask and every root that is set in it, the points of all
    segments returned by the labeller, together with the root, are exactly
    the voxels reachable from the root under 26-connectivity within the
    mask; no voxel occurs twice among them, so no voxel is a point of two
    different segments. *)
Theorem partition_property vd root :
  is_set vd root →
  ∃ g sd,
    label_vessel_grades vd root = Ret (g, sd) ∧
    (∀ c, c ∈ root :: segment_points sd ↔ reachable vd root c) ∧
    NoDup (root :: segment_points sd) ∧
    (∀ a b i1 j1 seg1 i2 j2 seg2 c,
       seg_items sd !! a = Some (i1, j1, seg1) →
       seg_items sd !! b = Some (i2, j2, seg2) →
       a ≠ b → c ∈ seg1.*1 → c ∉ seg2.*1).
Proof.
  intros Hset. pose proof Hset as [Hroot _].
  destruct (label_vessel_grades_ok vd root Hroot) as (st & sd & Hinv & Hq & Hl & Hperm).
  exists (grades st), sd. split; [done|].
  assert (segment_points sd ≡ₚ rec_points st) as Hpts.
  { rewrite segment_points_tagged. unfold rec_points. by rewrite Hperm. }
  assert (NoDup (root :: segment_points sd)) as Hnd.
  { rewrite Hpts. apply Hinv. }
  split_and!; [|done|].
  - intros c. rewrite Hpts, elem_of_cons.
    rewrite <- (inv_lab _ _ _ _ Hinv c).
    rewrite (bfs_final_reach vd root st Hinv Hq c). unfold reachable. tauto.
  - intros a b i1 j1 seg1 i2 j2 seg2 c Ha Hb Hab H1 H2.
    apply NoDup_cons in Hnd as [_ Hnd]. unfold segment_points in Hnd.
    eapply (NoDup_bind_disjoint _ _ a b _ _ c Hnd Ha Hb Hab); simpl; done.
Qed.

Lemma partition_property_witness :
  ∃ g sd,
    label_vessel_grades y_mask (5, 5, 0)%Z = Ret (g, sd) ∧
    (∀ c, c ∈ (5, 5, 0)%Z :: segment_points sd ↔ reachable y_mask (5, 5, 0)%Z c) ∧
    NoDup ((5, 5, 0)%Z :: segment_points sd) ∧
    (∀ a b i1 j1 seg1 i2 j2 seg2 c,
       seg_items sd !! a = Some (i1, j1, seg1) →
       seg_items sd !! b = Some (i2, j2, seg2) →
       a ≠ b → c ∈ seg1.*1 → c ∉ seg2.*1).
Proof.
  apply (partition_property y_mask (5, 5, 0)%Z). split; reflexivity.
Defined.

Lemma record_fold_effect p new :
  NoDup new.*1 →
  ∀ st,
    (∀ n gr, (n, gr) ∈ new →
       grade_of (foldl (record_new p) st new) n = gr ∧
       (gr, (n, p)) ∈ recorded (point_list_with_prior (foldl (record_new p) st new))) ∧
    (∀ c, c ∉ new.*1 → grade_of (foldl (record_new p) st new) c = grade_of st c) ∧
    (∀ x, x ∈ recorded (point_list_with_prior st) →
          x ∈ recorded (point_list_with_prior (foldl (record_new p) st new))).
Proof.
  induction new as [|[n gr] new IH]; intros Hnd st.
  { simpl. split_and!; try done. intros n gr H. by apply elem_of_nil in H. }
  rewrite fmap_cons in Hnd. apply NoDup_cons in Hnd as [Hn Hnd].
  cbn [foldl]. destruct (IH Hnd (record_new p st (n, gr))) as (Hnew & Hkeep & Hmono).
  assert (∀ x, x ∈ recorded (point_list_with_prior st) ∨ x = (gr, (n, p)) →
               x ∈ recorded (point_list_with_prior (record_new p st (n, gr)))) as Hrec.
  { intros x Hx. simpl. rewrite recorded_app, elem_of_app, list_elem_of_singleton.
    done. }
  split_and!.
  - intros m g' [[= -> ->]|Hin]%elem_of_cons; [|by apply Hnew].
    split.
    + rewrite Hkeep by done. rewrite grade_of_record_new. by rewrite decide_True.
    + apply Hmono, Hrec. by right.
  - intros c Hc. rewrite fmap_cons, not_elem_of_cons in Hc. destruct Hc as [Hcn Hc].
    rewrite Hkeep by done. rewrite grade_of_record_new. by rewrite decide_False.
  - intros x Hx. apply Hmono, Hrec. by left.
Qed.

Lemma handed_out_lookup cg ns i n :
  ns !! i = Some n →
  handed_out cg ns !! i = Some (n, if decide (i = 0) then cg else cg + 1).
Proof.
  destruct ns as [|n0 ns]; [done|]. destruct i as [|i]; simpl.
  - by intros [= ->].
  - intros Hn. by rewrite list_lookup_fmap, Hn.
Qed.

(** C5.  Every pair recorded by the labeller lies in the segments of the
    generation of its point, and that generation is the generation of the
    parent or the next one; in every iteration the unvisited qualifying
    neighbours of the dequeued voxel receive, in the enumeration order of
    the 26 directions, the current generation (the first) and the current
    generation plus one (each of the others). *)
Theorem generation_monotonicity vd root :
  in_shape (shape vd) root = true →
  (∃ g sd,
     label_vessel_grades vd root = Ret (g, sd) ∧
     ∀ i j seg point parent,
       (i, j, seg) ∈ seg_items sd → (point, parent) ∈ seg →
       arr_get 0 g point = i ∧ 1 ≤ arr_get 0 g parent ∧
       arr_get 0 g parent ≤ arr_get 0 g point ≤ arr_get 0 g parent + 1) ∧
  (∀ st p current_grade prev q,
     queue st = (p, current_grade, prev) :: q →
     ∃ st',
       bfs_iter vd st = Some st' ∧
       ∀ k n,
         unvisited_neighbors vd (grades st) p !! k = Some n →
         arr_get 0 (grades st') n
         = (if decide (k = 0) then current_grade else current_grade + 1) ∧
         (arr_get 0 (grades st') n, (n, p))
           ∈ recorded (point_list_with_prior st')).
Proof.
  intros Hroot. split.
  - destruct (label_vessel_grades_ok vd root Hroot)
      as (st & sd & Hinv & _ & Hl & Hperm).
    exists (grades st), sd. split; [done|].
    intros i j seg point parent Hin Hpp.
    assert ((i, (point, parent)) ∈ recorded (point_list_with_prior st)) as Hrec.
    { rewrite <- Hperm. apply elem_of_tagged. eauto. }
    destruct (inv_rec _ _ _ _ Hinv _ _ _ Hrec) as (Hg & H1 & H2 & H3 & _).
    fold (grade_of st point) (grade_of st parent). lia.
  - intros st p cg prev q Hq. rewrite (bfs_iter_spec vd st p cg prev q Hq).
    eexists; split; [done|]. intros k n Hk.
    destruct (record_fold_effect p
                (handed_out cg (unvisited_neighbors vd (grades st) p))
                ltac:(rewrite handed_out_fst; apply NoDup_unvisited) (popped st))
      as (Hnew & _ & _).
    apply (handed_out_lookup cg) in Hk. apply list_elem_of_lookup_2 in Hk.
    destruct (Hnew _ _ Hk) as [Hg Hr]. fold (grade_of (foldl (record_new p) (popped st)
      (handed_out cg (unvisited_neighbors vd (grades st) p))) n).
    rewrite Hg. done.
Qed.

Lemma generation_monotonicity_witness :
  (∃ g sd,
     label_vessel_grades y_mask (5, 5, 0)%Z = Ret (g, sd) ∧
     ∀ i j seg point parent,
       (i, j, seg) ∈ seg_items sd → (point, parent) ∈ seg →
       arr_get 0 g point = i ∧ 1 ≤ arr_get 0 g parent ∧
       arr_get 0 g parent ≤ arr_get 0 g point ≤ arr_get 0 g parent + 1) ∧
  (∀ st p current_grade prev q,
     queue st = (p, current_grade, prev) :: q →
     ∃ st',
       bfs_iter y_mask st = Some st' ∧
       ∀ k n,
         unvisited_neighbors y_mask (grades st) p !! k = Some n →
         arr_get 0 (grades st') n
         = (if decide (k = 0) then current_grade else current_grade + 1) ∧
         (arr_get 0 (grades st') n, (n, p))
           ∈ recorded (point_list_with_prior st')).
Proof. apply (generation_monotonicity y_mask (5, 5, 0)%Z). reflexivity. Defined.

(** ** Tree building: [build_tree_structure] *)

Lemma filter_zero_insert (row : list nat) j :
  row !! j = Some 0 →
  S (length (filter (λ v, v = 0) (<[j := 1]> row))) = length (filter (λ v, v = 0) row).
Proof.
  revert j. induction row as [|x row IH]; intros [|j]; simpl; try done.
  - intros [= ->]. rewrite filter_cons_False by done.
    rewrite filter_cons_True by done. done.
  - intros Hj. specialize (IH _ Hj).
    destruct (decide (x = 0)) as [->|Hx].
    + rewrite !filter_cons_True by done. simpl. lia.
    + rewrite !filter_cons_False by done. done.
Qed.

Lemma fd_zeros_set fd i j :
  fd_get fd i j = Some 0 → S (fd_zeros (fd_set fd i j 1)) = fd_zeros fd.
Proof.
  unfold fd_get, fd_set, fd_zeros. destruct (fd !! i) as [row|] eqn:Hrow; [|done].
  simpl. intros Hj. apply filter_zero_insert in Hj.
  revert i Hrow. induction fd as [|r fd IH]; intros [|i]; simpl; try done.
  - intros [= ->]. lia.
  - intros Hi. specialize (IH _ Hi). lia.
Qed.

Section build_loops.
Variable rec : tree → list (list nat) → res (tree * list (list nat)).
Variable lyr : nat.
Variable F : nat.
Hypothesis Hrec : ∀ nt fd,
  fd_zeros fd < F → all_nodes built_ok nt →
  ∃ nt' fd', rec nt fd = Ret (nt', fd') ∧ all_nodes built_ok nt' ∧
             fd_zeros fd' ≤ fd_zeros fd ∧ line nt' = line nt.
Variable ln : list ppair.

Lemma attach_ok_step i j seg acc kp :
  ln !! kp.1 = Some kp.2 → state_ok ln acc → fd_zeros acc.2 ≤ F →
  ∃ acc', attach rec lyr i j seg acc kp = Ret acc' ∧ state_ok ln acc' ∧
          fd_zeros acc'.2 ≤ fd_zeros acc.2.
Proof.
  destruct acc as [[subs dpis] fd], kp as [k point]. simpl.
  intros Hk [Hatt Hall] HF.
  destruct (last seg) as [tl|] eqn:Hlast; [|by eexists].
  destruct (decide (tl.2 = point.1)) as [Heq|]; [|by eexists].
  destruct (fd_get fd i j) as [v|] eqn:Hfd; [|by eexists].
  destruct (decide (v = 0)) as [->|]; [|by eexists].
  pose proof (fd_zeros_set _ _ _ Hfd) as Hz.
  destruct (Hrec (Node seg [] [] [] [] lyr) (fd_set fd i j 1))
    as (child & fd' & -> & Hchild & Hle & Hline); [lia| |].
  { apply all_nodes_unfold. simpl. split; [|constructor].
    split; [constructor|done]. }
  simpl. eexists; split; [done|]. simpl. split; [|lia]. split; simpl.
  - apply Forall2_app; [done|]. constructor; [|constructor].
    exists tl, point. rewrite Hline. done.
  - apply Forall_app. split; [done|]. by apply Forall_singleton.
Qed.

Lemma attach_all_ok i j seg kps :
  Forall (λ kp, ln !! kp.1 = Some kp.2) kps →
  ∀ acc, state_ok ln acc → fd_zeros acc.2 ≤ F →
  ∃ acc', attach_all rec lyr i j seg acc kps = Ret acc' ∧ state_ok ln acc' ∧
          fd_zeros acc'.2 ≤ fd_zeros acc.2.
Proof.
  induction 1 as [|kp kps Hkp _ IH]; intros acc Hacc HF; simpl.
  { eexists; split; [done|]. split; [done|lia]. }
  destruct (attach_ok_step i j seg acc kp Hkp Hacc HF) as (acc1 & -> & Hacc1 & Hle1).
  simpl. destruct (IH acc1 Hacc1) as (acc2 & -> & Hacc2 & Hle2); [lia|].
  eexists; split; [done|]. split; [done|lia].
Qed.

Lemma imap_pair_lookup :
  Forall (λ kp : nat * ppair, ln !! kp.1 = Some kp.2) (imap pair ln).
Proof.
  apply Forall_forall. intros [k pt] Hin.
  apply elem_of_lookup_imap in Hin as (k' & pt' & [= -> ->] & Hk). done.
Qed.

Lemma build_segs_ok items :
  ∀ acc, state_ok ln acc → fd_zeros acc.2 ≤ F →
  ∃ acc', build_segs rec lyr ln acc items = Ret acc' ∧ state_ok ln acc' ∧
          fd_zeros acc'.2 ≤ fd_zeros acc.2.
Proof.
  induction items as [|[[i j] seg] items IH]; intros acc Hacc HF; simpl.
  { eexists; split; [done|]. split; [done|lia]. }
  destruct (attach_all_ok i j seg _ imap_pair_lookup acc Hacc HF)
    as (acc1 & -> & Hacc1 & Hle1).
  simpl. destruct (IH acc1 Hacc1) as (acc2 & -> & Hacc2 & Hle2); [lia|].
  eexists; split; [done|]. split; [done|lia].
Qed.
End build_loops.

Lemma build_tree_structure_ok seg_dic fuel :
  ∀ t lyr fd,
    fd_zeros fd < fuel → all_nodes built_ok t →
    ∃ t' fd', build_tree_structure fuel t lyr seg_dic fd = Ret (t', fd') ∧
              all_nodes built_ok t' ∧ fd_zeros fd' ≤ fd_zeros fd ∧
              line t' = line t.
Proof.
  induction fuel as [|fuel IH]; intros t lyr fd Hfuel Ht; [lia|].
  apply all_nodes_unfold in Ht as [(Hatt & Hdeep & Hsl) Hsubs].
  simpl.
  destruct (build_segs_ok
              (λ t fd, build_tree_structure fuel t (lyr + 1) seg_dic fd) lyr fuel
              (λ nt fd', IH nt (lyr + 1) fd') (line t) (seg_items seg_dic)
              (subtree t, dividePointIndex t, fd))
    as ([[subs dpis] fd'] & -> & [Hatt' Hall'] & Hle); [by split|simpl; lia|].
  simpl in *. eexists; eexists; split; [done|]. split_and!; [|done|done].
  apply all_nodes_unfold. simpl. split; [|done]. by split.
Qed.

Lemma nodes_unfold t : nodes t = t :: flat_map nodes (subtree t).
Proof. by destruct t. Qed.

Lemma elem_of_flat_map {A B} (f : A → list B) l y :
  y ∈ flat_map f l ↔ ∃ x, x ∈ l ∧ y ∈ f x.
Proof.
  rewrite list_elem_of_In, in_flat_map. split; intros (x & Hx & Hy); exists x.
  - by rewrite !list_elem_of_In.
  - by rewrite <- !list_elem_of_In.
Qed.

Lemma nodes_child t c n : c ∈ subtree t → n ∈ nodes c → n ∈ nodes t.
Proof.
  intros Hc Hn. rewrite (nodes_unfold t). apply list_elem_of_further.
  apply elem_of_flat_map. eauto.
Qed.


Lemma built_raw_wf t : line t ≠ [] → all_nodes built_ok t → raw_wf t.
Proof.
  induction t as [t IH] using tree_ind'.
  intros Hln [(Hatt & Hd & Hs) Hsubs]%all_nodes_unfold.
  apply all_nodes_unfold. split.
  - split; [|done]. split_and!; [done| |].
    + symmetry. by eapply Forall2_length.
    + eapply Forall2_right; [exact Hatt|].
      intros c k (_ & pt & _ & Hk & _). by eapply lookup_lt_Some.
  - rewrite Forall_forall in IH, Hsubs. apply Forall_forall. intros c Hc.
    apply IH; [done| |by apply Hsubs].
    apply list_elem_of_lookup in Hc as [i Hi].
    destruct (Forall2_lookup_l _ _ _ _ _ Hatt Hi) as (k & _ & tl & _ & Hl & _).
    intros He. by rewrite He in Hl.
Qed.

(** The raw tree that the pipeline builds is well formed. *)
Lemma raw_tree_from_region_wf data_shape center sk_coords t :
  raw_tree_from_region data_shape center sk_coords = Ret t → raw_wf t.
Proof.
  unfold raw_tree_from_region. intros H.
  apply bind_Ret in H as (mr & _ & H). apply bind_Ret in H as (root & _ & H).
  apply bind_Ret in H as (sd & _ & H). apply bind_Ret in H as ([g seg_dic] & _ & H).
  apply bind_Ret in H as (ml & _ & H). apply bind_Ret in H as ([t' fd'] & Hb & H).
  injection H as <-.
  match type of Hb with
  | build_tree_structure (S (fd_zeros ?fd)) ?t0 ?l ?sd ?fd = _ =>
      destruct (build_tree_structure_ok sd (S (fd_zeros fd)) t0 l fd)
        as (t2 & fd2 & Hb2 & Hok & _ & Hline)
  end.
  - lia.
  - apply all_nodes_unfold. simpl. split; [|constructor].
    split; [constructor|done].
  - rewrite Hb in Hb2. injection Hb2 as <- <-.
    apply built_raw_wf; [|done]. by rewrite Hline.
Qed.



(** ** Annotation *)

Lemma track_argmax sls ds :
  length sls = length ds → Forall (λ s, 1 ≤ s) sls → sls ≠ [] →
  ∃ a v d, np_argmax sls = Ret a ∧ sls !! a = Some v ∧ ds !! a = Some d ∧
           foldl track (0, 0) (zip sls ds) = (v, d).
Proof.
  revert ds. induction sls as [|x l IH] using rev_ind; [done|].
  intros ds Hlen Hpos _. destruct ds as [|d' ds' _] using rev_ind.
  { rewrite length_app in Hlen. simpl in Hlen. lia. }
  rewrite !length_app in Hlen. simpl in Hlen.
  rewrite zip_with_app by lia. rewrite foldl_app. simpl.
  apply Forall_app in Hpos as [Hpos Hx]. rewrite Forall_singleton in Hx.
  destruct (decide (l = [])) as [->|Hne].
  - destruct ds'; [|simpl in Hlen; lia]. simpl.
    exists 0, x, d'. unfold track. simpl.
    destruct x; [lia|]. done.
  - destruct (IH ds') as (a & v & d & Ha & Hv & Hd & Hf); [lia|done|done|].
    rewrite Hf. unfold track. simpl.
    apply np_argmax_spec in Ha.
    pose proof (is_argmax_snoc _ _ _ x Ha Hv) as Hs. apply np_argmax_spec in Hs.
    destruct (v <? x) eqn:Hc.
    + exists (length l), x, d'. rewrite Hs. split_and!; try done.
      * by rewrite lookup_app_r, Nat.sub_diag.
      * replace (length l) with (length ds') by lia.
        by rewrite lookup_app_r, Nat.sub_diag.
    + exists a, v, d. rewrite Hs. split_and!; try done.
      * rewrite lookup_app_l; [done|]. by eapply lookup_lt_Some.
      * rewrite lookup_app_l; [done|]. by eapply lookup_lt_Some.
Qed.

Lemma path_len_leaf t : subLength t = [] → path_len t = length (line t).
Proof. unfold path_len. by intros ->. Qed.

Lemma path_len_argmax t a v d :
  np_argmax (subLength t) = Ret a → subLength t !! a = Some v →
  dividePointIndex t !! a = Some d →
  path_len t = v + length (drop d (line t)).
Proof.
  unfold path_len. intros -> Hv Hd.
  by rewrite (list_lookup_total_correct _ _ _ Hv), (list_lookup_total_correct _ _ _ Hd).
Qed.

Section depth_loop.
Variable rec : tree → res (tree * (nat * nat)).
Variable dpi : list nat.
Variable R : tree → tree → Prop.

Lemma depth_children_ok subs :
  Forall (λ c, ∃ c' d, rec c = Ret (c', (d, path_len c')) ∧ R c c') subs →
  ∀ i acc, i + length subs ≤ length dpi →
  ∃ subs' ds md ml mi,
    depth_children rec dpi subs i acc
    = Ret (DepthAcc (da_subs acc ++ subs') md ml mi (da_deep acc ++ ds)
                    (da_subLength acc ++ map path_len subs')) ∧
    Forall2 R subs subs' ∧ length ds = length subs ∧
    (ml, mi) = foldl track (da_max_length acc, da_max_length_ind acc)
                     (zip (map path_len subs') (take (length subs) (drop i dpi))).
Proof.
  induction 1 as [|c subs (c' & d & Hc & HR) _ IH]; intros i acc Hlen.
  - exists [], [], (da_max_deep acc), (da_max_length acc), (da_max_length_ind acc).
    simpl. rewrite !app_nil_r. split_and!; try done. by destruct acc.
  - simpl in Hlen. simpl. rewrite Hc. simpl.
    destruct (py_index_lt dpi i) as (index & -> & Hidx); [lia|]. simpl.
    destruct (da_max_length acc <? path_len c') eqn:Hcmp;
      match goal with
      | |- context [depth_children _ _ _ _ ?a] =>
          destruct (IH (S i) a) as (subs' & ds & md & ml & mi & -> & HF & Hds & Htr);
            [lia|]
      end;
      (exists (c' :: subs'), (d :: ds), md, ml, mi; split_and!;
       [ simpl; rewrite <- !app_assoc; done
       | by constructor
       | simpl; lia
       | rewrite Htr, (drop_S _ _ _ Hidx); simpl; f_equal;
         unfold track; simpl; by rewrite Hcmp ]).
Qed.
End depth_loop.

Lemma assign_depth_ok t0 :
  raw_wf t0 →
  ∃ t d, assign_depth t0 = Ret (t, (d, path_len t)) ∧ annotates t0 t.
Proof.
  induction t0 as [t0 IH] using tree_ind'. intros Hwf.
  apply all_nodes_unfold in Hwf as (((Hln & Hlen & Hdpi) & Hdeep & Hsl) & Hsubs).
  assert (Forall (λ c, ∃ c' d, assign_depth c = Ret (c', (d, path_len c')) ∧
                        annotates c c') (subtree t0)) as Hall.
  { rewrite Forall_forall in IH, Hsubs. apply Forall_forall. intros c Hc.
    destruct (IH c Hc (Hsubs c Hc)) as (c' & d & ? & ?). eauto. }
  destruct (depth_children_ok assign_depth (dividePointIndex t0) annotates _ Hall 0
              (DepthAcc [] 0 0 0 (deep t0) (subLength t0)))
    as (subs' & ds & md & ml & mi & Hloop & HF & Hds & Htr); [lia|].
  destruct t0 as [ln subs dp sl dpi ly]. simpl in *. subst dp sl. simpl in *.
  rewrite Hloop. simpl.
  set (t := Node ln subs' ds (map path_len subs') dpi ly).
  assert (length subs' = length subs) as Hlen' by (symmetry; by eapply Forall2_length).
  rewrite drop_0, firstn_all2 in Htr by lia.
  assert (path_len t = ml + length (drop mi ln) ∧ 1 ≤ path_len t) as [Hpl Hge].
  { destruct (decide (subs' = [])) as [->|Hne].
    - simpl in Htr. injection Htr as -> ->. rewrite drop_0.
      split; [done|]. rewrite path_len_leaf by done. simpl.
      destruct ln; [done|simpl; lia].
    - destruct (track_argmax (map path_len subs') dpi) as (a & v & d & Ha & Hv & Hd & Hf).
      + rewrite length_map. lia.
      + apply Forall_map. eapply Forall2_right; [done|].
        intros c c' H. apply H.
      + by destruct subs'.
      + rewrite Hf in Htr. injection Htr as -> ->.
        rewrite (path_len_argmax t a v d) by done. split; [done|].
        apply list_elem_of_lookup_2, list_elem_of_fmap in Hv as (c' & -> & Hc').
        eapply (Forall2_right _ (λ c, 1 ≤ path_len c)) in HF;
          [|intros ? ? H; apply H].
        rewrite Forall_forall in HF. specialize (HF _ Hc'). simpl in HF. lia. }
  exists t, (md + 1). split; [by rewrite Hpl|].
  unfold annotates. split_and!.
  - apply all_nodes_unfold. split.
    + split; [|done]. split_and!; simpl; [done|lia|done].
    + simpl. eapply Forall2_right; [done|].
      intros c c' H. apply H.
  - done.
  - done.
  - simpl. lia.
  - rewrite !tree_size_unfold. simpl. f_equal. f_equal.
    clear -HF. induction HF as [|c c' ? ? Hc]; simpl; [done|].
    destruct Hc as (_&_&_&_&->&_). by f_equal.
  - apply all_nodes_unfold. split; [simpl; lia|].
    simpl. eapply Forall2_right; [done|]. intros c c' H. apply H.
  - done.
Qed.

(** ** The backbone: [find_longest_line] *)

Lemma on_index_lookup {A B} (f : A → res B) l n :
  on_index f l n = match l !! n with Some c => f c | None => Raise IndexError end.
Proof.
  revert n. induction l as [|c l IH]; intros [|n]; simpl; auto.
Qed.

Lemma find_longest_line_eq t :
  find_longest_line t =
  if (0 <? length (line t)) && (0 <? length (subtree t)) then
    index ← np_argmax (subLength t);
    sub_line ← on_index find_longest_line (subtree t) index;
    d ← py_index (dividePointIndex t) index;
    Ret (sub_line ++ drop d (line t))
  else Ret (line t).
Proof. by destruct t. Qed.

Lemma find_small_branches_eq t :
  find_small_branches t =
  if decide (length (subtree t) = 0) then Ret []
  else
    max_length_ind ← np_argmax (subLength t);
    dm ← py_index (dividePointIndex t) max_length_ind;
    if decide (dm = 0) then
      branches ← siblings0 t max_length_ind [] (seq 0 (length (dividePointIndex t)));
      rest ← on_index find_small_branches (subtree t) max_length_ind;
      Ret (branches ++ rest)
    else
      let new_tree := Node (take dm (line t)) [] [] [] [] 999 in
      '(new_tree, branches) ←
        siblings1 t max_length_ind new_tree [] (seq 0 (length (dividePointIndex t)));
      sl ← py_index (subLength t) max_length_ind;
      let branches := branches ++ [BranchEntry new_tree sl] in
      rest ← on_index find_small_branches (subtree t) max_length_ind;
      Ret (branches ++ rest).
Proof. by destruct t. Qed.

(** The dominant child of an annotated node that has children. *)
Lemma dominant_child t :
  ann_node_ok t → subtree t ≠ [] →
  ∃ a c d,
    np_argmax (subLength t) = Ret a ∧ subtree t !! a = Some c ∧
    subLength t !! a = Some (path_len c) ∧ dividePointIndex t !! a = Some d ∧
    d < length (line t) ∧ path_len t = path_len c + length (drop d (line t)).
Proof.
  intros ((Hln & Hlen & Hdpi) & Hsl) Hne.
  destruct (np_argmax_nonempty (subLength t)) as [a Ha].
  { rewrite Hsl. by destruct (subtree t). }
  pose proof (np_argmax_lt _ _ Ha) as Hlt. rewrite Hsl, length_map in Hlt.
  destruct (lookup_lt_is_Some_2 (subtree t) a Hlt) as [c Hc].
  destruct (lookup_lt_is_Some_2 (dividePointIndex t) a) as [d Hd]; [lia|].
  assert (subLength t !! a = Some (path_len c)) as Hv.
  { by rewrite Hsl, list_lookup_fmap, Hc. }
  exists a, c, d. split_and!; try done.
  - rewrite Forall_forall in Hdpi. apply Hdpi. by eapply list_elem_of_lookup_2.
  - by apply path_len_argmax with a.
Qed.

Lemma find_longest_line_ok t :
  ann_wf t → ∃ l, find_longest_line t = Ret l ∧ length l = path_len t.
Proof.
  induction t as [t IH] using tree_ind'. intros Hwf.
  apply all_nodes_unfold in Hwf as [Hok Hsubs].
  rewrite find_longest_line_eq.
  destruct (decide (subtree t = [])) as [He|Hne].
  - rewrite He. simpl. rewrite andb_false_r. eexists; split; [done|].
    destruct Hok as [_ Hsl]. rewrite He in Hsl. by rewrite path_len_leaf.
  - destruct (dominant_child t Hok Hne) as (a & c & d & Ha & Hc & Hv & Hd & Hdl & Hpl).
    destruct Hok as ((Hln & _) & _).
    assert ((0 <? length (line t)) && (0 <? length (subtree t)) = true) as ->.
    { apply andb_true_intro. split; apply Nat.ltb_lt.
      - destruct (line t); [done|simpl; lia].
      - destruct (subtree t); [done|simpl; lia]. }
    rewrite Ha. simpl. rewrite on_index_lookup, Hc.
    rewrite Forall_forall in IH, Hsubs.
    apply list_elem_of_lookup_2 in Hc as Hin.
    destruct (IH c Hin (Hsubs c Hin)) as (lc & -> & Hlc). simpl.
    apply py_index_Ret in Hd as ->. simpl.
    eexists; split; [done|]. rewrite length_app, Hlc. lia.
Qed.

(** ** The side branches: [find_small_branches] *)

Lemma tree_size_child t c : c ∈ subtree t → tree_size c < tree_size t.
Proof.
  intros Hc. rewrite (tree_size_unfold t).
  assert (tree_size c ≤ sum_list (map tree_size (subtree t))); [|lia].
  induction Hc; simpl; lia.
Qed.

Lemma tree_size_pos t : 1 ≤ tree_size t.
Proof. rewrite tree_size_unfold. lia. Qed.

Lemma map_lookup_seq {A} `{Inhabited A} (l : list A) :
  map (λ j, l !!! j) (seq 0 (length l)) = l.
Proof.
  apply list_eq. intros i. rewrite list_lookup_fmap.
  destruct (decide (i < length l)) as [Hi|Hi].
  - rewrite lookup_seq_lt by done. simpl.
    destruct (lookup_lt_is_Some_2 l i Hi) as [x Hx].
    by rewrite Hx, (list_lookup_total_correct _ _ _ Hx).
  - rewrite lookup_seq_ge by lia. simpl. symmetry. apply lookup_ge_None. lia.
Qed.

Lemma sum_except (h : nat → nat) a n :
  a < n →
  sum_list (map (λ j, if decide (j = a) then 0 else h j) (seq 0 n)) + h a
  = sum_list (map h (seq 0 n)).
Proof.
  induction n as [|n IH]; [lia|]. intros Ha.
  rewrite seq_S. simpl. rewrite !map_app, !sum_list_with_app. simpl.
  destruct (decide (n = a)) as [->|Hne].
  - assert (∀ m, m ≤ a →
              sum_list (map (λ j, if decide (j = a) then 0 else h j) (seq 0 m))
              = sum_list (map h (seq 0 m))) as Hsame.
    { clear. induction m as [|m IHm]; [done|]. intros Hm.
      rewrite seq_S. simpl. rewrite !map_app, !sum_list_with_app. simpl.
      rewrite IHm by lia. destruct (decide (m = a)); lia. }
    rewrite Hsame by lia. lia.
  - specialize (IH ltac:(lia)). lia.
Qed.

Lemma others_size_all t a c :
  subtree t !! a = Some c →
  others_size t a (seq 0 (length (subtree t))) + tree_size c
  = sum_list (map tree_size (subtree t)).
Proof.
  intros Hc. unfold others_size.
  rewrite <- (list_lookup_total_correct _ _ _ Hc).
  rewrite (sum_except (λ j, tree_size (subtree t !!! j))).
  - transitivity (sum_list (map tree_size
                    (map (λ j, subtree t !!! j) (seq 0 (length (subtree t)))))).
    + by rewrite map_map.
    + by rewrite map_lookup_seq.
  - by eapply lookup_lt_Some.
Qed.

Section siblings.
Variable t : tree.
Variable a dm sl : nat.
Hypothesis Hok : ann_node_ok t.
Hypothesis Hsubs : Forall ann_wf (subtree t).
Hypothesis Hdm : dividePointIndex t !! a = Some dm.
Hypothesis Hsl : subLength t !! a = Some sl.

Lemma sibling_lookups i :
  i < length (dividePointIndex t) →
  ∃ b di, subtree t !! i = Some b ∧ dividePointIndex t !! i = Some di ∧
          subLength t !! i = Some (path_len b) ∧ di < length (line t) ∧ ann_wf b.
Proof.
  intros Hi. destruct Hok as ((Hln & Hlen & Hdpi) & Hs).
  destruct (lookup_lt_is_Some_2 (subtree t) i) as [b Hb]; [lia|].
  destruct (lookup_lt_is_Some_2 (dividePointIndex t) i) as [di Hdi]; [lia|].
  exists b, di. split_and!; try done.
  - by rewrite Hs, list_lookup_fmap, Hb.
  - rewrite Forall_forall in Hdpi. apply Hdpi. by eapply list_elem_of_lookup_2.
  - rewrite Forall_forall in Hsubs. apply Hsubs. by eapply list_elem_of_lookup_2.
Qed.

Lemma siblings0_ok idx :
  dm = 0 →
  Forall (λ i, i < length (dividePointIndex t)) idx →
  ∀ brs, Forall (sibling_ok t dm sl) brs →
  ∃ brs', siblings0 t a brs idx = Ret brs' ∧ Forall (sibling_ok t dm sl) brs'.
Proof.
  intros Hz. induction 1 as [|i idx Hi _ IH]; intros brs Hbrs; simpl; [eauto|].
  destruct (decide (i ≠ a)) as [Hne|_]; [|by apply IH].
  destruct (sibling_lookups i Hi) as (b & di & Hb & Hdi & _ & Hdil & Hbwf).
  apply py_index_Ret in Hb as Hb', Hsl as Hsl', Hdi as Hdi', Hdm as Hdm'.
  rewrite Hb', Hsl', Hdi', Hdm'. simpl. apply IH.
  apply Forall_app. split; [done|]. apply Forall_singleton.
  split_and!; simpl; [done|by eapply list_elem_of_lookup_2|lia].
Qed.

Lemma siblings1_ok idx :
  Forall (λ i, i < length (dividePointIndex t)) idx →
  ∀ nt brs, new_tree_ok t dm nt → Forall (sibling_ok t dm sl) brs →
  ∃ nt' brs',
    siblings1 t a nt brs idx = Ret (nt', brs') ∧
    new_tree_ok t dm nt' ∧ Forall (sibling_ok t dm sl) brs' ∧
    sum_list (map tree_size (subtree nt'))
    ≤ sum_list (map tree_size (subtree nt)) + others_size t a idx.
Proof.
  induction 1 as [|i idx Hi _ IH]; intros nt brs Hnt Hbrs; simpl.
  { exists nt, brs. split_and!; try done. unfold others_size. simpl. lia. }
  destruct (sibling_lookups i Hi) as (b & di & Hb & Hdi & Hsli & Hdil & Hbwf).
  apply py_index_Ret in Hb as Hb', Hsl as Hsl', Hdi as Hdi', Hdm as Hdm',
    Hsli as Hsli'.
  rewrite Hdi', Hdm'. simpl.
  unfold others_size. simpl. fold (others_size t a idx).
  destruct (di <? dm) eqn:Hlt.
  - apply Nat.ltb_lt in Hlt. rewrite Hb', Hsli'. simpl.
    destruct Hnt as (Hl & Hlen & Hd & Hs & Hw).
    edestruct IH as (nt' & brs' & -> & Hnt' & Hbrs' & Hsz); [| exact Hbrs |].
    + split_and!; simpl; try done.
      * rewrite !length_app. simpl. lia.
      * apply Forall_app. split; [done|]. by apply Forall_singleton.
      * rewrite map_app, Hs. done.
      * apply Forall_app. split; [done|]. by apply Forall_singleton.
    + exists nt', brs'. split_and!; try done.
      simpl in Hsz. rewrite map_app, sum_list_with_app in Hsz. simpl in Hsz.
      destruct (decide (i = a)) as [->|_].
      * rewrite Hdi in Hdm. injection Hdm as <-. lia.
      * rewrite (list_lookup_total_correct _ _ _ Hb). lia.
  - apply Nat.ltb_ge in Hlt.
    assert ((dm <=? di) = true) as -> by by apply Nat.leb_le.
    simpl. destruct (decide (i ≠ a)) as [Hne|He].
    + rewrite bool_decide_true by done. rewrite Hb', Hsl'. simpl.
      edestruct IH as (nt' & brs' & -> & Hnt' & Hbrs' & Hsz); [exact Hnt| |].
      * apply Forall_app. split; [done|]. apply Forall_singleton.
        split_and!; simpl; [done|by eapply list_elem_of_lookup_2|].
        lia.
      * exists nt', brs'. split_and!; try done. lia.
    + rewrite bool_decide_false by done.
      edestruct IH as (nt' & brs' & -> & Hnt' & Hbrs' & Hsz); [exact Hnt|exact Hbrs|].
      exists nt', brs'. split_and!; try done. lia.
Qed.
End siblings.

Lemma find_small_branches_ok t :
  ann_wf t → ∃ brs, find_small_branches t = Ret brs ∧ Forall (branch_ok t) brs.
Proof.
  induction t as [t IH] using tree_ind'. intros Hwf.
  apply all_nodes_unfold in Hwf as [Hok Hsubs].
  rewrite find_small_branches_eq.
  destruct (decide (length (subtree t) = 0)) as [|Hne]; [by exists []|].
  assert (subtree t ≠ []) as Hne' by (by destruct (subtree t)).
  destruct (dominant_child t Hok Hne') as (a & c & d & Ha & Hc & Hv & Hd & Hdl & Hpl).
  rewrite length_drop in Hpl.
  apply list_elem_of_lookup_2 in Hc as Hin.
  rewrite Ha. simpl. apply py_index_Ret in Hd as Hd'. rewrite Hd'. simpl.
  rewrite on_index_lookup, Hc.
  assert (∃ rest, find_small_branches c = Ret rest ∧ Forall (branch_ok t) rest)
    as (rest & Hrest & Hrok).
  { rewrite Forall_forall in IH, Hsubs.
    destruct (IH c Hin (Hsubs c Hin)) as (rest & -> & Hr). exists rest.
    split; [done|]. eapply Forall_impl; [done|].
    intros br (? & ? & ?). pose proof (tree_size_child t c Hin).
    unfold branch_ok. split_and!; [done|lia|lia]. }
  assert (∀ br, sibling_ok t d (path_len c) br → branch_ok t br) as Hsib.
  { intros br (? & Hb & ?). pose proof (tree_size_child t _ Hb).
    unfold branch_ok. split_and!; [done|lia|done]. }
  assert (Forall (λ i, i < length (dividePointIndex t))
                 (seq 0 (length (dividePointIndex t)))) as Hidx.
  { apply Forall_forall. intros i Hi%elem_of_seq. lia. }
  destruct (decide (d = 0)) as [Hz|Hnz].
  - destruct (siblings0_ok t a d (path_len c) Hok Hsubs Hd Hv _ Hz Hidx [])
      as (brs & -> & Hbrs); [constructor|].
    simpl. rewrite Hrest. simpl. eexists; split; [done|].
    apply Forall_app. split; [|done]. eapply Forall_impl; [done|]. done.
  - destruct Hok as ((Hln & Hlen & Hdpi) & Hsl).
    destruct (siblings1_ok t a d (path_len c)
                (conj (conj Hln (conj Hlen Hdpi)) Hsl) Hsubs Hd Hv _ Hidx
                (Node (take d (line t)) [] [] [] [] 999) [])
      as (nt & brs & -> & Hnt & Hbrs & Hsz); [by split_and!; simpl|constructor|].
    simpl. apply py_index_Ret in Hv as ->. simpl. rewrite Hrest. simpl.
    eexists; split; [done|].
    apply Forall_app. split; [|done]. apply Forall_app. split.
    { eapply Forall_impl; [done|]. done. }
    apply Forall_singleton. destruct Hnt as (Hl & Hlen' & Hd'' & Hs & Hw).
    unfold branch_ok. simpl. split_and!.
    + apply all_nodes_unfold. split; [|done].
      split; [|done]. split_and!.
      * rewrite Hl. destruct (line t); [done|]. destruct d; [done|]. done.
      * done.
      * rewrite Hl, length_take. eapply Forall_impl; [done|]. simpl. lia.
    + lia.
    + rewrite (tree_size_unfold nt), (tree_size_unfold t).
      simpl in Hsz. rewrite Hlen in Hsz.
      pose proof (others_size_all t a c Hc). pose proof (tree_size_pos c). lia.
Qed.

(** ** Canonicalisation: [create_new_tree_from_old] *)

Lemma canon_branches_Ret rec brs :
  ∀ acc r, canon_branches rec acc brs = Ret r →
  ∃ cs, Forall2 (λ br c, rec (branch br) = Ret c) brs cs ∧
        r = (acc.1.1 ++ cs, acc.1.2 ++ map br_dividePointIndex brs,
             acc.2 ++ canon_subLength brs).
Proof.
  induction brs as [|br brs IH]; intros [[subs dpis] sls] r; simpl.
  - intros [= <-]. exists []. rewrite !app_nil_r. split; [constructor|done].
  - intros H. apply bind_Ret in H as (sub & Hsub & H).
    apply IH in H as (cs & Hcs & ->). simpl.
    exists (sub :: cs). split; [by constructor|].
    f_equal; [f_equal|].
    + by rewrite <- (assoc_L (++)).
    + by rewrite <- (assoc_L (++)).
    + destruct (subLength (branch br)); simpl; [done|].
      by rewrite <- (assoc_L (++)).
Qed.

Lemma canon_branches_total rec brs :
  Forall (λ br, ∃ c, rec (branch br) = Ret c) brs →
  ∀ acc, ∃ r, canon_branches rec acc brs = Ret r.
Proof.
  induction 1 as [|br brs [c Hc] _ IH]; intros [[subs dpis] sls]; simpl; [eauto|].
  rewrite Hc. simpl. apply IH.
Qed.

Lemma create_new_tree_from_old_Ret fuel t c :
  create_new_tree_from_old fuel t = Ret c →
  ∃ new_line brs cs,
    find_longest_line t = Ret new_line ∧ find_small_branches t = Ret brs ∧
    (∃ fuel', fuel = S fuel' ∧
       Forall2 (λ br sub, create_new_tree_from_old fuel' (branch br) = Ret sub) brs cs) ∧
    c = Node new_line cs [] (canon_subLength brs) (map br_dividePointIndex brs) 0.
Proof.
  destruct fuel as [|fuel]; [done|]. simpl. intros H.
  apply bind_Ret in H as (new_line & Hl & H).
  apply bind_Ret in H as (brs & Hb & H).
  apply bind_Ret in H as ([[subs dpis] sls] & Hc & H).
  apply canon_branches_Ret in Hc as (cs & Hcs & [= -> -> ->]).
  injection H as <-. exists new_line, brs, cs. split_and!; eauto.
Qed.

Lemma ann_wf_path_len_pos t : ann_wf t → 1 ≤ path_len t.
Proof.
  intros [Hok _]%all_nodes_unfold.
  destruct (decide (subtree t = [])) as [He|Hne].
  - destruct Hok as [(Hln & _) Hsl]. rewrite He in Hsl.
    rewrite path_len_leaf by done. destruct (line t); [done|simpl; lia].
  - destruct (dominant_child t Hok Hne) as (a & c & d & _ & _ & _ & _ & Hdl & ->).
    rewrite length_drop. lia.
Qed.

Lemma create_new_tree_from_old_ok fuel :
  ∀ t, tree_size t ≤ fuel → ann_wf t →
  ∃ c, create_new_tree_from_old fuel t = Ret c ∧ all_nodes canon_node_ok c ∧
       find_longest_line t = Ret (line c) ∧ length (line c) = path_len t.
Proof.
  induction fuel as [|fuel IH]; intros t Hsz Hwf.
  { pose proof (tree_size_pos t). lia. }
  destruct (find_longest_line_ok t Hwf) as (l & Hl & Hlen).
  destruct (find_small_branches_ok t Hwf) as (brs & Hbrs & Hok).
  assert (Forall (λ br, ∃ c, create_new_tree_from_old fuel (branch br) = Ret c) brs)
    as Htot.
  { eapply Forall_impl; [exact Hok|]. intros br (Hb & _ & Hs). simpl.
    destruct (IH (branch br)) as (c & ? & _); [lia|done|eauto]. }
  destruct (canon_branches_total _ _ Htot ([], [], [])) as [r Hr].
  simpl. rewrite Hl, Hbrs. simpl. rewrite Hr.
  apply canon_branches_Ret in Hr as (cs & Hcs & ->). simpl.
  eexists; split; [done|]. split; [|done].
  apply all_nodes_unfold. simpl. split.
  - split; [|done]. pose proof (ann_wf_path_len_pos t Hwf). split_and!; simpl.
    + destruct l; [simpl in Hlen; lia|done].
    + rewrite length_map. by eapply Forall2_length.
    + apply Forall_map.
      eapply Forall_impl; [exact Hok|]. intros br (_ & ? & _). simpl. lia.
  - clear -Hcs Hok IH Hsz. revert Hok.
    induction Hcs as [|br c brs cs Hc _ IHc]; intros Hok; [constructor|].
    rewrite Forall_cons in Hok. destruct Hok as [(Hb & _ & Hs) Hok].
    constructor; [|by apply IHc].
    destruct (IH (branch br)) as (c' & Hc' & Hv & _); [lia|done|].
    rewrite Hc in Hc'. by injection Hc' as <-.
Qed.

Lemma canonical_ok t0 t r :
  raw_wf t0 → assign_depth t0 = Ret (t, r) →
  ∃ c, create_new_tree_from_old (tree_size t) t = Ret c ∧ all_nodes canon_node_ok c ∧
       find_longest_line t = Ret (line c) ∧ length (line c) = path_len t.
Proof.
  intros Hwf Ha. destruct (assign_depth_ok t0 Hwf) as (t' & d & Ha' & Hann).
  rewrite Ha in Ha'. injection Ha' as -> ->.
  apply create_new_tree_from_old_ok; [done|]. apply Hann.
Qed.

(** ** The example skeletons *)

Lemma y_raw_from_region :
  raw_tree_from_region (12, 12, 12)%Z (5, 5, 0)%Z y_skeleton = Ret y_raw.
Proof. vm_compute. reflexivity. Qed.

Lemma comb_raw_from_region :
  raw_tree_from_region (12, 12, 12)%Z (5, 5, 0)%Z comb_skeleton = Ret comb_raw.
Proof. vm_compute. reflexivity. Qed.

Lemma y_raw_wf : raw_wf y_raw.
Proof. exact (raw_tree_from_region_wf _ _ _ _ y_raw_from_region). Qed.

Lemma y_annotated_eq : assign_depth y_raw = Ret (y_annotated, (3, 10)).
Proof. vm_compute. reflexivity. Qed.

Lemma comb_annotated_eq : assign_depth comb_raw = Ret (comb_annotated, (3, 5)).
Proof. vm_compute. reflexivity. Qed.

(** ** Properties of the canonical tree *)

(** C7.  For every annotated raw tree, canonicalisation returns a tree in
    which every divide index of every node is a valid index into the node's
    own line: [0 <= dividePointIndex[i] < len(line)]. *)
Theorem attachment_index_validity t0 t r :
  raw_wf t0 → assign_depth t0 = Ret (t, r) →
  ∃ c, create_new_tree_from_old (tree_size t) t = Ret c ∧
       all_nodes indices_valid c.
Proof.
  intros Hwf Ha. destruct (canonical_ok t0 t r Hwf Ha) as (c & Hc & Hok & _).
  exists c. split; [done|]. eapply all_nodes_impl; [|exact Hok].
  intros n ((_ & _ & Hd) & _). unfold indices_valid.
  eapply Forall_impl; [exact Hd|]. simpl. lia.
Qed.

Lemma attachment_index_validity_witness :
  ∃ c, create_new_tree_from_old (tree_size y_annotated) y_annotated = Ret c ∧
       all_nodes indices_valid c.
Proof.
  apply (attachment_index_validity y_raw y_annotated (3, 10)).
  - unfold raw_wf, raw_node_ok. simpl.
    repeat first [split | constructor | discriminate | reflexivity | lia].
  - vm_compute. reflexivity.
Defined.

(** C10.  In every node of the tree returned by [create_new_tree_from_old],
    [len(subtree) == len(dividePointIndex)]; [subLength] receives one entry
    only for each collected branch whose own [subLength] list is non-empty,
    so it is never longer than [subtree], and it is strictly shorter as soon
    as one collected branch has an empty [subLength] list (a leaf). *)
Theorem canonical_node_lengths fuel t c :
  create_new_tree_from_old fuel t = Ret c →
  all_nodes (λ n, length (subtree n) = length (dividePointIndex n) ∧
                  length (subLength n) ≤ length (subtree n)) c ∧
  ∃ brs, find_small_branches t = Ret brs ∧
         length (subtree c) = length brs ∧
         subLength c = canon_subLength brs ∧
         (Exists (λ br, subLength (branch br) = []) brs →
          length (subLength c) < length (subtree c)).
Proof.
  assert (∀ brs, length (canon_subLength brs) ≤ length brs) as Hle.
  { induction brs as [|br brs IH]; simpl; [done|].
    rewrite length_app. destruct (subLength (branch br)); simpl; lia. }
  revert t c. induction fuel as [|fuel IH]; intros t c Hc; [done|].
  apply create_new_tree_from_old_Ret in Hc
    as (l & brs & cs & Hl & Hb & (fuel' & [= <-] & Hcs) & ->).
  pose proof (Forall2_length _ _ _ Hcs) as Hlen.
  split.
  - apply all_nodes_unfold. simpl. split.
    + rewrite length_map. specialize (Hle brs). lia.
    + clear -Hcs IH. induction Hcs as [|br c brs cs Hc _ IHc]; constructor; [|done].
      by apply (IH _ _ Hc).
  - exists brs. simpl. split_and!; [done|lia|done|].
    intros Hex. rewrite <- Hlen. clear -Hex Hle.
    induction Hex as [br brs He|br brs _ IHe]; simpl; rewrite length_app.
    + rewrite He. simpl. specialize (Hle brs). lia.
    + destruct (subLength (branch br)); simpl; lia.
Qed.

Lemma canonical_node_lengths_witness :
  ∃ c, create_new_tree_from_old 3 y_annotated = Ret c ∧
       length (subLength c) < length (subtree c).
Proof.
  eexists. split; [vm_compute; reflexivity|].
  destruct (canonical_node_lengths 3 y_annotated _ eq_refl)
    as (_ & brs & Hb & Hlen & Hsl & Hlt).
  vm_compute in Hb. injection Hb as <-.
  apply Hlt. constructor. reflexivity.
Defined.

(** The length of the canonical root line is the annotated length, the
    count of the path that follows, at every node, the first child of
    greatest annotated length. *)
Lemma canonical_line_length t0 t r :
  raw_wf t0 → assign_depth t0 = Ret (t, r) →
  ∃ c, create_new_tree_from_old (tree_size t) t = Ret c ∧
       length (line c) = path_len t ∧ r.2 = path_len t.
Proof.
  intros Hwf Ha. destruct (canonical_ok t0 t r Hwf Ha) as (c & Hc & _ & _ & Hlen).
  exists c. split_and!; [done|done|].
  destruct (assign_depth_ok t0 Hwf) as (t' & d & Ha' & _).
  rewrite Ha in Ha'. by injection Ha' as -> ->.
Qed.

(** The annotated length is the count of one of the root-to-leaf paths,
    hence at most the maximum. *)
Lemma path_len_le_max t : ann_wf t → path_len t ≤ max_path_count t.
Proof.
  assert (∀ l x, x ∈ l → x ≤ py_max l) as Hmax.
  { unfold py_max. induction l as [|y l IH]; intros x Hx;
      [by apply elem_of_nil in Hx|].
    apply elem_of_cons in Hx as [->|Hx]; simpl; [lia|].
    specialize (IH x Hx). lia. }
  intros Hwf. apply Hmax. clear Hmax.
  induction t as [t IH] using tree_ind'.
  apply all_nodes_unfold in Hwf as [Hok Hsubs].
  destruct (decide (subtree t = [])) as [He|Hne].
  - destruct t as [ln subs dp sl dpi ly]. simpl in *. subst subs.
    destruct Hok as [_ Hsl]. simpl in Hsl.
    rewrite path_len_leaf by done. apply list_elem_of_here.
  - destruct (dominant_child t Hok Hne) as (a & c & d & _ & Hc & _ & Hd & _ & ->).
    apply list_elem_of_lookup_2 in Hc as Hin.
    rewrite Forall_forall in IH, Hsubs. specialize (IH c Hin (Hsubs c Hin)).
    destruct t as [ln subs dp sl dpi ly]. simpl in *.
    destruct subs as [|c0 subs]; [done|].
    apply elem_of_concat.
    exists (map (λ n, n + length (drop d ln)) (path_counts c)). split.
    + apply list_elem_of_fmap. eauto.
    + apply list_elem_of_lookup. exists a.
      rewrite lookup_zip_with, Hc. simpl. by rewrite Hd.
Qed.

(** C1 (the code at the failing input).  For the comb skeleton the pipeline
    builds a raw tree whose trunk node has two children: one of length 3
    attached at index 8 and one of length 1 attached at index 1.  Annotation
    and canonicalisation follow the child of greater length, so the
    canonical root line has 5 points, whereas the root-to-leaf path through
    the other child counts 10. *)
Theorem canonical_line_not_longest :
  raw_tree_from_region (12, 12, 12)%Z (5, 5, 0)%Z comb_skeleton = Ret comb_raw ∧
  assign_depth comb_raw = Ret (comb_annotated, (3, 5)) ∧
  ∃ c, create_new_tree_from_old (tree_size comb_annotated) comb_annotated = Ret c ∧
       length (line c) = 5 ∧ max_path_count comb_annotated = 10.
Proof.
  split; [apply comb_raw_from_region|]. split; [apply comb_annotated_eq|].
  eexists. split; [vm_compute; reflexivity|]. split; reflexivity.
Qed.

(** The straight-line scenario of the specification: ten voxels, the root
    at one end; the canonical tree is a single line of ten points. *)
Lemma line_scenario :
  ∃ c, get_tree_from_region (10, 10, 10)%Z (5, 5, 0)%Z ((λ z, (5, 5, z)%Z) <$> seqZ 0 10)
       = Ret c ∧
       length (line c) = 10 ∧ subtree c = [].
Proof. eexists. split; [vm_compute; reflexivity|]. split; reflexivity. Qed.

(** C6 as stated fails: the side arm of the Y is not attached at index 4. *)
Lemma y_scenario_index_4_fails :
  ¬ ∃ c s,
      get_tree_from_region (12, 12, 12)%Z (5, 5, 0)%Z y_skeleton = Ret c ∧
      length (line c) = 10 ∧ subtree c = [s] ∧ length (line s) = 5 ∧
      dividePointIndex c = [4].
Proof.
  intros (c & s & Hc & _ & _ & _ & Hd). vm_compute in Hc.
  injection Hc as <-. discriminate Hd.
Qed.

(** C6, amended.  For the Y skeletons (a 5-voxel trunk rooted at its free
    end, two 5-voxel arms) the pipeline produces a canonical tree whose root
    line has length 10 and which has exactly one subtree entry, whose line
    has length 5, attached at [dividePointIndex] 5: the root line runs from
    the tip of the chosen arm to the root, and the junction voxel is its
    sixth point. *)
Theorem y_scenario :
  Forall (λ sk,
    ∃ c s, get_tree_from_region (12, 12, 12)%Z (5, 5, 0)%Z sk = Ret c ∧
           length (line c) = 10 ∧ subtree c = [s] ∧ length (line s) = 5 ∧
           dividePointIndex c = [5] ∧
           line c !! 5 = Some ((5, 5, 4)%Z, (5, 5, 3)%Z))
    [y_skeleton; y_skeleton'].
Proof.
  repeat constructor;
    (eexists; eexists; split; [vm_compute; reflexivity|]; repeat split).
Qed.

(** ** Re-annotation and re-canonicalisation *)

Lemma empty_depth_info_raw c :
  all_nodes canon_node_ok c → raw_wf (empty_depth_info c).
Proof.
  induction c as [c IH] using tree_ind'. intros [[Hok Hd] Hs]%all_nodes_unfold.
  apply all_nodes_unfold. destruct c as [ln subs dp sl dpi ly]. simpl in *.
  split.
  - destruct Hok as (? & ? & ?). unfold raw_node_ok. simpl.
    rewrite length_map. done.
  - apply Forall_map. rewrite Forall_forall in IH, Hs. apply Forall_forall.
    intros s Hin. simpl. by apply IH, Hs.
Qed.

(** C8 as stated fails: canonicalising the canonical tree of the Y again
    replaces the arm on the backbone by the other arm. *)
Lemma recanonicalize_changes_backbone :
  ∃ c c',
    get_tree_from_region (12, 12, 12)%Z (5, 5, 0)%Z y_skeleton = Ret c ∧
    recanonicalize c = Ret c' ∧
    get_all_lines_and_tree (12, 12, 12)%Z (5, 5, 0)%Z y_skeleton = Ret c' ∧
    line c' ≠ line c.
Proof.
  eexists. eexists. split; [vm_compute; reflexivity|].
  split; [vm_compute; reflexivity|]. split; [vm_compute; reflexivity|].
  discriminate.
Qed.

(** C8, amended.  Canonicalising a canonical tree again (reset, annotation,
    canonicalisation) always returns; it yields the same backbone when the
    tree has no subtree entry, and otherwise the backbone of the first side
    branch of greatest annotated length followed by the old backbone from
    that branch's divide index on. *)
Theorem recanonicalize_backbone c :
  canonical c →
  ∃ t2 r c',
    assign_depth (empty_depth_info c) = Ret (t2, r) ∧
    recanonicalize c = Ret c' ∧
    (subtree c = [] → line c' = line c) ∧
    (subtree c ≠ [] →
     ∃ a sub d l,
       np_argmax (subLength t2) = Ret a ∧ subtree t2 !! a = Some sub ∧
       dividePointIndex c !! a = Some d ∧ find_longest_line sub = Ret l ∧
       line c' = l ++ drop d (line c)).
Proof.
  intros (t0 & t & r0 & Hwf & Ha & Hc).
  destruct (canonical_ok t0 t r0 Hwf Ha) as (c0 & Hc0 & Hok & _).
  rewrite Hc in Hc0. injection Hc0 as <-.
  pose proof (empty_depth_info_raw c Hok) as Hraw.
  destruct (assign_depth_ok _ Hraw) as (t2 & d2 & Ha2 & Hann).
  destruct Hann as (Hwf2 & Hline & Hdpi & Hlen & _).
  destruct (create_new_tree_from_old_ok (tree_size t2) t2) as (c' & Hc' & _ & Hfl & _);
    [done|done|].
  exists t2, (d2, path_len t2), c'. split; [done|].
  split; [unfold recanonicalize; rewrite Ha2; exact Hc'|].
  assert (line t2 = line c ∧ dividePointIndex t2 = dividePointIndex c ∧
          length (subtree t2) = length (subtree c)) as (Hl & Hd & Hn).
  { destruct c; simpl in *. rewrite length_map in Hlen. done. }
  rewrite find_longest_line_eq in Hfl. split.
  - intros He. rewrite He in Hn. destruct (subtree t2); [|done]. simpl in Hfl.
    rewrite andb_false_r in Hfl. injection Hfl as <-. done.
  - intros Hne.
    assert (subtree t2 ≠ []) as Hne2.
    { intros He. rewrite He in Hn. by destruct (subtree c). }
    apply all_nodes_unfold in Hwf2 as [Hok2 Hs2].
    destruct (dominant_child t2 Hok2 Hne2) as (a & s & d & Harg & Hs & _ & Hdd & _).
    destruct Hok2 as ((Hln2 & _) & _).
    assert ((0 <? length (line t2)) && (0 <? length (subtree t2)) = true) as Hb.
    { apply andb_true_intro. split; apply Nat.ltb_lt.
      - destruct (line t2); [done|simpl; lia].
      - destruct (subtree t2); [done|simpl; lia]. }
    rewrite Hb, Harg in Hfl. simpl in Hfl. rewrite on_index_lookup, Hs in Hfl.
    apply bind_Ret in Hfl as (l & Hfl_s & Hfl).
    apply py_index_Ret in Hdd as Hdd'. rewrite Hdd' in Hfl. simpl in Hfl.
    injection Hfl as Hfl. exists a, s, d, l.
    rewrite <- Hd, <- Hl. done.
Qed.

Lemma recanonicalize_backbone_witness :
  ∃ t2 r c',
    assign_depth (empty_depth_info y_canonical) = Ret (t2, r) ∧
    recanonicalize y_canonical = Ret c' ∧
    (subtree y_canonical = [] → line c' = line y_canonical) ∧
    (subtree y_canonical ≠ [] →
     ∃ a sub d l,
       np_argmax (subLength t2) = Ret a ∧ subtree t2 !! a = Some sub ∧
       dividePointIndex y_canonical !! a = Some d ∧ find_longest_line sub = Ret l ∧
       line c' = l ++ drop d (line y_canonical)).
Proof.
  apply (recanonicalize_backbone y_canonical).
  exists y_raw, y_annotated, (3, 10). split_and!.
  - unfold raw_wf, raw_node_ok. simpl.
    repeat first [split | constructor | discriminate | reflexivity | lia].
  - vm_compute. reflexivity.
  - vm_compute. reflexivity.
Defined.

Lemma all_nodes_and (P Q : tree → Prop) t :
  all_nodes P t → all_nodes Q t → all_nodes (λ n, P n ∧ Q n) t.
Proof.
  induction t as [t IH] using tree_ind'.
  rewrite !all_nodes_unfold. intros [HP HPs] [HQ HQs]. split; [done|].
  rewrite Forall_forall in IH, HPs, HQs. apply Forall_forall. intros c Hc.
  apply IH; auto.
Qed.

(** After the first annotation of a raw tree the four parallel lists of
    every node have one entry per child. *)
Lemma first_annotation_parallel t0 t r :
  raw_wf t0 → assign_depth t0 = Ret (t, r) → all_nodes lists_parallel t.
Proof.
  intros Hwf Ha. destruct (assign_depth_ok t0 Hwf) as (t' & d & Ha' & Hann).
  rewrite Ha in Ha'. injection Ha' as -> ->.
  destruct Hann as (Hwf' & _ & _ & _ & _ & Hdeep & _).
  eapply all_nodes_impl; [|exact (all_nodes_and _ _ _ Hwf' Hdeep)].
  intros n ([(_ & Hlen & _) Hsl] & Hd). unfold lists_parallel.
  rewrite Hsl, length_map. done.
Qed.

(** C9 (the code at the failing input).  [empty_depth_info] resets
    [subLength] only: on the annotated raw tree of the Y, whose root has one
    child, the reset leaves [deep] as it is, and annotating again appends a
    second entry to [deep]. *)
Theorem reset_keeps_deep :
  ∃ t1 r1 t2 r2,
    assign_depth y_raw = Ret (t1, r1) ∧ all_nodes lists_parallel t1 ∧
    deep (empty_depth_info t1) = deep t1 ∧
    assign_depth (empty_depth_info t1) = Ret (t2, r2) ∧
    length (subtree t2) = 1 ∧ length (subLength t2) = 1 ∧ length (deep t2) = 2.
Proof.
  exists y_annotated, (3, 10). eexists. eexists. split_and!.
  - apply y_annotated_eq.
  - apply (first_annotation_parallel y_raw _ _ y_raw_wf y_annotated_eq).
  - reflexivity.
  - vm_compute. reflexivity.
  - reflexivity.
  - reflexivity.
  - reflexivity.
Qed.

(** * Further properties *)

(** ** Depth and statistics *)

Lemma foldl_max {A} (f : A → nat) l :
  ∀ a, foldl (λ m x, Nat.max m (f x)) a l = Nat.max a (py_max (map f l)).
Proof.
  induction l as [|x l IH]; intros a; simpl.
  - lia.
  - rewrite IH. unfold py_max. lia.
Qed.

Lemma calculate_tree_depth_eq t :
  _calculate_tree_depth t = py_max (map _calculate_tree_depth (subtree t)) + 1.
Proof.
  destruct t as [ln subs dp sl dpi ly]. simpl.
  destruct subs as [|c subs]; [done|].
  rewrite (foldl_max _calculate_tree_depth (c :: subs) 0). simpl. lia.
Qed.

Lemma calculate_tree_depth_pos t : 1 ≤ _calculate_tree_depth t.
Proof. rewrite calculate_tree_depth_eq. lia. Qed.

Lemma all_points_unfold t : all_points t = line t ++ flat_map all_points (subtree t).
Proof. by destruct t. Qed.

Lemma count_tree_stats_unfold node depth stats :
  count_tree_stats node depth stats
  = foldl (λ stats sub, count_tree_stats sub (depth + 1) stats)
          (TreeStats (total_points stats + length (line node))
                     (total_branches stats + 1)
                     (Nat.max (max_depth stats) depth))
          (subtree node).
Proof. by destruct node. Qed.

Lemma count_tree_stats_spec t :
  ∀ depth stats,
    count_tree_stats t depth stats
    = TreeStats (total_points stats + length (all_points t))
                (total_branches stats + tree_size t)
                (Nat.max (max_depth stats) (depth + _calculate_tree_depth t - 1)).
Proof.
  induction t as [t IH] using tree_ind'. intros depth stats.
  rewrite count_tree_stats_unfold, all_points_unfold, tree_size_unfold,
    calculate_tree_depth_eq.
  set (s0 := TreeStats _ _ _).
  assert (Hgen : ∀ s,
    foldl (λ stats sub, count_tree_stats sub (depth + 1) stats) s (subtree t)
    = TreeStats (total_points s + length (flat_map all_points (subtree t)))
                (total_branches s + sum_list (map tree_size (subtree t)))
                (Nat.max (max_depth s)
                   (if decide (subtree t = []) then 0
                    else depth + py_max (map _calculate_tree_depth (subtree t))))).
  { clear s0 stats. induction IH as [|c l Hc _ IHl]; intros s.
    - destruct s; simpl. f_equal; lia.
    - cbn [foldl]. rewrite Hc, IHl. cbn [total_points total_branches max_depth].
      pose proof (calculate_tree_depth_pos c).
      case_decide as Hl.
      + subst l. simpl. rewrite length_app. simpl. f_equal; lia.
      + simpl. rewrite !length_app. unfold py_max; simpl. f_equal; lia. }
  rewrite Hgen. subst s0. cbn [total_points total_branches max_depth].
  rewrite length_app. case_decide as Hl.
  - rewrite Hl. simpl. f_equal; lia.
  - f_equal; lia.
Qed.

(** ** Annotation *)

Lemma returned_length_unfold t :
  returned_length t
  = (foldl track (0, 0) (zip (map returned_length (subtree t)) (dividePointIndex t))).1
    + length (drop (foldl track (0, 0)
                      (zip (map returned_length (subtree t)) (dividePointIndex t))).2
                   (line t)).
Proof. by destruct t. Qed.

Lemma indexed_unfold t :
  indexed t ↔ length (subtree t) ≤ length (dividePointIndex t) ∧
              Forall indexed (subtree t).
Proof. unfold indexed. apply all_nodes_unfold. Qed.

Section depth_closed.
Variable rec : tree → res (tree * (nat * nat)).
Variable dpi : list nat.
Variables (f : tree → tree) (g h : tree → nat).

Lemma depth_children_closed subs :
  Forall (λ c, rec c = Ret (f c, (g c, h c))) subs →
  ∀ i acc, i + length subs ≤ length dpi →
    depth_children rec dpi subs i acc
    = Ret (DepthAcc (da_subs acc ++ map f subs)
                    (Nat.max (da_max_deep acc) (py_max (map g subs)))
                    (foldl track (da_max_length acc, da_max_length_ind acc)
                           (zip (map h subs) (drop i dpi))).1
                    (foldl track (da_max_length acc, da_max_length_ind acc)
                           (zip (map h subs) (drop i dpi))).2
                    (da_deep acc ++ map g subs)
                    (da_subLength acc ++ map h subs)).
Proof.
  induction 1 as [|c subs Hc _ IH]; intros i acc Hlen.
  - simpl. destruct acc; simpl. rewrite !app_nil_r. f_equal. f_equal. lia.
  - simpl in Hlen. cbn [depth_children]. rewrite Hc. cbn [mbind res_bind].
    destruct (py_index_lt dpi i) as (d & -> & Hd); [lia|]. cbn [mbind res_bind].
    rewrite (drop_S _ _ _ Hd). cbn [map zip zip_with foldl].
    unfold track at 2 4. cbn [fst snd].
    destruct (da_max_length acc <? h c) eqn:Hcmp.
    + rewrite IH by lia. cbn [da_subs da_max_deep da_max_length da_max_length_ind
        da_deep da_subLength]. rewrite <- !app_assoc. cbn [app].
      f_equal. f_equal. unfold py_max; simpl. lia.
    + rewrite IH by lia. cbn [da_subs da_max_deep da_max_length da_max_length_ind
        da_deep da_subLength]. rewrite <- !app_assoc. cbn [app].
      f_equal. f_equal. unfold py_max; simpl. lia.
Qed.

(** The first child that fails, or the first missing divide index, ends
    the loop with the exception. *)
Lemma depth_children_raise (P : tree → Prop) subs :
  Forall (λ c, (P c ∧ ∃ r, rec c = Ret r) ∨ (¬ P c ∧ rec c = Raise IndexError)) subs →
  ∀ i acc, i ≤ length dpi →
    ¬ (Forall P subs ∧ i + length subs ≤ length dpi) →
    depth_children rec dpi subs i acc = Raise IndexError.
Proof.
  induction 1 as [|c subs Hc _ IH]; intros i acc Hi Hnot.
  - exfalso. apply Hnot. split; [constructor|simpl; lia].
  - cbn [depth_children]. destruct Hc as [[HP [[c' [d l]] ->]]|[HP ->]]; [|done].
    cbn [mbind res_bind]. unfold py_index.
    destruct (dpi !! i) as [x|] eqn:Hx; [|done]. cbn [mbind res_bind].
    apply lookup_lt_Some in Hx.
    destruct (da_max_length acc <? l); apply IH; try lia.
    all: intros [HF Hl]; apply Hnot; split; [by constructor|simpl; lia].
Qed.
End depth_closed.

Lemma assign_depth_unfold t :
  assign_depth t
  = acc ← depth_children assign_depth (dividePointIndex t) (subtree t) 0
            (DepthAcc [] 0 0 0 (deep t) (subLength t));
    Ret (Node (line t) (da_subs acc) (da_deep acc) (da_subLength acc)
              (dividePointIndex t) (layer t),
         (da_max_deep acc + 1,
          da_max_length acc + length (drop (da_max_length_ind acc) (line t)))).
Proof. by destruct t. Qed.

Lemma annotated_unfold t :
  annotated t
  = Node (line t) (map annotated (subtree t))
         (deep t ++ map _calculate_tree_depth (subtree t))
         (subLength t ++ map returned_length (subtree t))
         (dividePointIndex t) (layer t).
Proof. by destruct t. Qed.

Lemma assign_depth_closed t :
  indexed t →
  assign_depth t = Ret (annotated t, (_calculate_tree_depth t, returned_length t)).
Proof.
  induction t as [t IH] using tree_ind'. intros Hix.
  apply indexed_unfold in Hix as [Hlen Hsubs].
  rewrite assign_depth_unfold.
  rewrite (depth_children_closed assign_depth (dividePointIndex t) annotated
             _calculate_tree_depth returned_length).
  - cbn [mbind res_bind da_subs da_deep da_subLength da_max_deep da_max_length
      da_max_length_ind drop app].
    rewrite annotated_unfold, calculate_tree_depth_eq, returned_length_unfold.
    f_equal.
  - rewrite Forall_forall in IH, Hsubs. apply Forall_forall. intros c Hc.
    by apply IH; [|apply Hsubs].
  - simpl. lia.
Qed.

Lemma Forall_or_not {A} (P : A → Prop) l :
  Forall (λ x, P x ∨ ¬ P x) l → Forall P l ∨ ¬ Forall P l.
Proof.
  induction 1 as [|x l [Hx|Hx] _ [IH|IH]].
  - left. constructor.
  - left. by constructor.
  - right. intros H. apply IH. by apply Forall_cons in H as [_ ?].
  - right. intros H. apply Hx. by apply Forall_cons in H as [? _].
  - right. intros H. apply Hx. by apply Forall_cons in H as [? _].
Qed.

Lemma assign_depth_cases t :
  (indexed t ∧ assign_depth t
               = Ret (annotated t, (_calculate_tree_depth t, returned_length t)))
  ∨ (¬ indexed t ∧ assign_depth t = Raise IndexError).
Proof.
  induction t as [t IH] using tree_ind'.
  assert (Hdec : Forall indexed (subtree t) ∨ ¬ Forall indexed (subtree t)).
  { apply Forall_or_not. eapply Forall_impl; [exact IH|]. simpl. tauto. }
  destruct (decide (length (subtree t) ≤ length (dividePointIndex t))) as [Hl|Hl];
    [destruct Hdec as [Hs|Hs]|].
  - left. assert (indexed t) by (by apply indexed_unfold).
    split; [done|]. by apply assign_depth_closed.
  - right. split; [rewrite indexed_unfold; tauto|].
    rewrite assign_depth_unfold.
    rewrite (depth_children_raise assign_depth (dividePointIndex t) indexed);
      [done| |lia|tauto].
    eapply Forall_impl; [exact IH|]. simpl. intros c [[? ->]|[? ->]]; eauto.
  - right. split; [rewrite indexed_unfold; tauto|].
    rewrite assign_depth_unfold.
    rewrite (depth_children_raise assign_depth (dividePointIndex t) indexed);
      [done| |lia|simpl; lia].
    eapply Forall_impl; [exact IH|]. simpl. intros c [[? ->]|[? ->]]; eauto.
Qed.

Lemma calculate_tree_depth_annotated t :
  _calculate_tree_depth (annotated t) = _calculate_tree_depth t.
Proof.
  induction t as [t IH] using tree_ind'.
  rewrite (calculate_tree_depth_eq (annotated t)), (calculate_tree_depth_eq t).
  rewrite annotated_unfold. cbn [subtree]. do 2 f_equal.
  rewrite map_map. apply map_ext_in. intros c Hc.
  rewrite Forall_forall in IH. apply IH. by apply list_elem_of_In.
Qed.

Lemma Forall2_flat_map {A B C} (R : B → C → Prop) (f : A → list B) (g : A → list C) l :
  Forall (λ x, Forall2 R (f x) (g x)) l → Forall2 R (flat_map f l) (flat_map g l).
Proof.
  induction 1 as [|x l Hx _ IH]; simpl; [constructor|]. by apply Forall2_app.
Qed.

Lemma nodes_annotated t : Forall2 grows (nodes t) (nodes (annotated t)).
Proof.
  induction t as [t IH] using tree_ind'.
  rewrite (nodes_unfold t), (nodes_unfold (annotated t)).
  constructor.
  - rewrite annotated_unfold. unfold grows. cbn [line subtree deep subLength
      dividePointIndex layer]. rewrite length_map. split_and!; try done.
    eexists _, _. split_and!; try done; by rewrite length_map.
  - rewrite annotated_unfold. cbn [subtree].
    assert (Hmap : ∀ l : list tree,
      flat_map nodes (map annotated l) = flat_map (λ c, nodes (annotated c)) l).
    { induction l as [|c l IHl]; simpl; [done|]. by rewrite IHl. }
    rewrite Hmap. by apply Forall2_flat_map.
Qed.

Lemma tree_size_nodes t : tree_size t = length (nodes t).
Proof.
  induction t as [t IH] using tree_ind'.
  rewrite tree_size_unfold, nodes_unfold. simpl. f_equal.
  induction IH as [|c l Hc _ IHl]; simpl; [done|].
  rewrite length_app. lia.
Qed.

Lemma all_points_nodes t :
  length (all_points t) = sum_list ((λ n, length (line n)) <$> nodes t).
Proof.
  induction t as [t IH] using tree_ind'.
  rewrite all_points_unfold, nodes_unfold, length_app. simpl. f_equal.
  induction IH as [|c l Hc _ IHl]; simpl; [done|].
  rewrite length_app, fmap_app, sum_list_with_app, Hc, IHl. done.
Qed.

(** X1.  The statistics of [visualize_tree_statistics]: [total_branches] is
    the number of nodes of the tree, [total_points] the sum of the lengths
    of their lines, and [max_depth], which counts edges, is one less than
    the depth that [_calculate_tree_depth] computes for the same tree. *)
Theorem tree_statistics t :
  total_branches (visualize_tree_statistics t) = length (nodes t) ∧
  total_points (visualize_tree_statistics t)
  = sum_list ((λ n, length (line n)) <$> nodes t) ∧
  max_depth (visualize_tree_statistics t) + 1 = _calculate_tree_depth t.
Proof.
  unfold visualize_tree_statistics. rewrite count_tree_stats_spec.
  cbn [total_points total_branches max_depth].
  pose proof (calculate_tree_depth_pos t).
  rewrite tree_size_nodes, all_points_nodes. split_and!; lia.
Qed.


(** X3.  The depth that [assign_depth] returns is the depth that
    [_calculate_tree_depth] of [main.py] computes for the tree, before and
    after annotation, and the entries appended to the root's [deep] list
    are the depths of its children, in order. *)
Theorem assign_depth_depth t t' d l :
  assign_depth t = Ret (t', (d, l)) →
  d = _calculate_tree_depth t ∧ _calculate_tree_depth t' = d ∧
  deep t' = deep t ++ map _calculate_tree_depth (subtree t).
Proof.
  intros Hret. destruct (assign_depth_cases t) as [[_ H]|[_ H]];
    rewrite H in Hret; [|done].
  injection Hret as <- <- <-.
  rewrite calculate_tree_depth_annotated, annotated_unfold. done.
Qed.

Lemma assign_depth_depth_witness :
  3 = _calculate_tree_depth y_raw ∧ _calculate_tree_depth y_annotated = 3 ∧
  deep y_annotated = deep y_raw ++ map _calculate_tree_depth (subtree y_raw).
Proof. apply (assign_depth_depth y_raw y_annotated 3 10). apply y_annotated_eq. Defined.

(** X4.  Annotation changes nothing but [deep] and [subLength]: node by
    node, in preorder, the annotated tree has the lines, divide indices,
    layers and numbers of children of the tree it was given, and each
    node's [deep] and [subLength] lists have grown by one entry per
    child. *)
Theorem assign_depth_grows t t' r :
  assign_depth t = Ret (t', r) → Forall2 grows (nodes t) (nodes t').
Proof.
  intros Hret. destruct (assign_depth_cases t) as [[_ H]|[_ H]];
    rewrite H in Hret; [|done].
  injection Hret as <- _. apply nodes_annotated.
Qed.

Lemma assign_depth_grows_witness : Forall2 grows (nodes y_raw) (nodes y_annotated).
Proof. apply (assign_depth_grows y_raw y_annotated (3, 10)). apply y_annotated_eq. Defined.

(** ** Labelling from an arbitrary start point *)

Lemma dict_app_fresh {V} (d : dict (list V)) k v :
  k ∉ dict_keys d → dict_app d k v = d ++ [(k, [v])].
Proof.
  unfold dict_keys. induction d as [|[k' l] d IH]; intros Hk.
  - apply dict_app_nil.
  - rewrite dict_app_cons. rewrite fmap_cons, not_elem_of_cons in Hk. simpl in Hk.
    destruct Hk as [Hne Hk]. rewrite decide_False by done. by rewrite IH.
Qed.

Lemma dict_app_member {V} (d : dict (list V)) k v :
  k ∈ dict_keys d →
  dict_keys (dict_app d k v) = dict_keys d ∧ length (dict_app d k v) = length d.
Proof.
  unfold dict_keys. induction d as [|[k' l] d IH]; intros Hk.
  - by apply elem_of_nil in Hk.
  - rewrite dict_app_cons. destruct (decide (k' = k)) as [->|Hne]; [done|].
    rewrite fmap_cons, elem_of_cons in Hk. destruct Hk as [Hk|Hk]; [done|].
    destruct (IH Hk) as [IH1 IH2].
    split; [rewrite !fmap_cons; by f_equal|simpl; by f_equal].
Qed.

Lemma dict_app_nonempty {V} (d : dict (list V)) k v :
  Forall (λ kv, kv.2 ≠ []) d → Forall (λ kv, kv.2 ≠ []) (dict_app d k v).
Proof.
  induction d as [|[k' l] d IH]; intros Hd.
  - rewrite dict_app_nil. by apply Forall_singleton.
  - rewrite dict_app_cons. apply Forall_cons in Hd as [Hl Hd].
    destruct (decide (k' = k)) as [->|Hne].
    + constructor; [|done]. simpl. by destruct l.
    + constructor; [done|]. by apply IH.
Qed.

Section labelling.
Variable vd : ndarray Z.

Lemma record_new_measure p st n gr :
  fresh vd (grades st) n = true → 1 ≤ gr →
  measure vd (record_new p st (n, gr)) = measure vd st.
Proof.
  intros Hfresh Hgr. apply fresh_spec in Hfresh as [Hset Hn0].
  unfold measure. simpl. rewrite length_app. simpl.
  rewrite <- (length_filter_remove (λ c, grade_of st c = 0)
                (λ c, grade_of (record_new p st (n, gr)) c = 0) _ n).
  - simpl. lia.
  - apply NoDup_box_cells.
  - apply elem_of_box_cells, Hset.
  - done.
  - rewrite grade_of_record_new, decide_True by done. lia.
  - intros c Hc. rewrite grade_of_record_new, decide_False by done. done.
Qed.

Lemma record_fold_measure p new :
  ∀ st, NoDup new.*1 →
    Forall (λ ng, fresh vd (grades st) ng.1 = true ∧ 1 ≤ ng.2) new →
    measure vd (foldl (record_new p) st new) = measure vd st.
Proof.
  induction new as [|[n gr] new IH]; intros st Hnd Hall; [done|].
  rewrite fmap_cons in Hnd. apply NoDup_cons in Hnd as [Hn Hnd].
  apply Forall_cons in Hall as [[Hf Hgr] Hall]. simpl in *.
  rewrite IH; [by apply record_new_measure|done|].
  rewrite Forall_forall in Hall. apply Forall_forall. intros [m g'] Hin.
  destruct (Hall _ Hin) as [Hfm Hgm]. simpl in *. split; [|done].
  rewrite fresh_put_ne; [done|]. intros ->. apply Hn.
  apply list_elem_of_fmap. by exists (m, g').
Qed.

Lemma record_new_shape p st n gr :
  bfs_shape st → 1 ≤ gr ≤ length (point_list_with_prior st) + 1 →
  bfs_shape (record_new p st (n, gr)) ∧
  length (point_list_with_prior st)
  ≤ length (point_list_with_prior (record_new p st (n, gr))) ∧
  gr ≤ length (point_list_with_prior (record_new p st (n, gr))).
Proof.
  intros [Hq Hk Hne] Hgr. simpl.
  set (d := point_list_with_prior st) in *.
  assert (Hlen : dict_keys (dict_app d gr (n, p)) = seq 1 (length (dict_app d gr (n, p)))
                 ∧ length d ≤ length (dict_app d gr (n, p))
                 ∧ gr ≤ length (dict_app d gr (n, p))).
  { destruct (decide (gr ∈ dict_keys d)) as [Hin|Hnin].
    - destruct (dict_app_member d gr (n, p) Hin) as [-> ->].
      rewrite Hk, elem_of_seq in Hin. split_and!; [done|lia|lia].
    - rewrite (dict_app_fresh d gr (n, p) Hnin).
      rewrite Hk, elem_of_seq in Hnin. assert (gr = length d + 1) as -> by lia.
      unfold dict_keys in *. rewrite fmap_app, length_app, Hk. simpl.
      split_and!; [|lia|lia].
      replace (length d + 1) with (S (length d)) by lia.
      symmetry. apply (seq_S (length d) 1). }
  destruct Hlen as (Hk' & Hle & Hgr').
  split; [split; simpl|done].
  - intros m g' prev. rewrite elem_of_app, list_elem_of_singleton.
    intros [Hin|[= -> -> ->]].
    + specialize (Hq _ _ _ Hin). fold d. lia.
    + fold d. lia.
  - done.
  - by apply dict_app_nonempty.
Qed.

Lemma record_fold_shape p g ms :
  ∀ st, bfs_shape st → 1 ≤ g ≤ length (point_list_with_prior st) + 1 →
    bfs_shape (foldl (record_new p) st ((λ m, (m, g)) <$> ms)) ∧
    length (point_list_with_prior st)
    ≤ length (point_list_with_prior (foldl (record_new p) st ((λ m, (m, g)) <$> ms))).
Proof.
  induction ms as [|m ms IH]; intros st Hsh Hg; [done|].
  rewrite fmap_cons. cbn [foldl].
  destruct (record_new_shape p st m g Hsh Hg) as (Hsh1 & Hle1 & Hg1).
  destruct (IH _ Hsh1) as [Hsh2 Hle2]; [lia|]. split; [done|lia].
Qed.

Lemma bfs_iter_shape st p cg prev q :
  bfs_shape st → queue st = (p, cg, prev) :: q →
  ∃ st', bfs_iter vd st = Some st' ∧ bfs_shape st' ∧
         S (measure vd st') = measure vd st.
Proof.
  intros Hsh Hq. rewrite (bfs_iter_spec vd st p cg prev q Hq).
  eexists; split; [done|].
  assert (Hcg : 1 ≤ cg ≤ length (point_list_with_prior st) + 1).
  { apply (sh_queue _ Hsh p cg prev). rewrite Hq. apply list_elem_of_here. }
  assert (Hpop : bfs_shape (popped st)).
  { destruct Hsh as [H1 H2 H3]. split; try done.
    intros n gr pr Hin. apply (H1 n gr pr). simpl in Hin. rewrite Hq in *.
    by apply list_elem_of_further. }
  assert (Hmp : measure vd st = S (measure vd (popped st))).
  { unfold measure, popped. simpl. rewrite Hq. simpl. done. }
  set (ns := unvisited_neighbors vd (grades st) p).
  split.
  - destruct ns as [|n ns']; [done|]. cbn [handed_out foldl].
    destruct (record_new_shape p (popped st) n cg Hpop Hcg) as (Hsh1 & Hle1 & Hg1).
    destruct (record_fold_shape p (cg + 1) ns' _ Hsh1) as [Hsh2 _]; [lia|done].
  - rewrite Hmp. f_equal. apply record_fold_measure.
    + rewrite handed_out_fst. apply NoDup_unvisited.
    + apply Forall_forall. intros [n gr] Hin. simpl.
      apply handed_out_grade in Hin as [Hgr Hn].
      apply elem_of_unvisited in Hn as [Hf Ha]. split; [done|lia].
Qed.

Lemma bfs_loop_shape fuel :
  ∀ st, measure vd st ≤ fuel → bfs_shape st →
  ∃ st', bfs_loop fuel vd st = Ret st' ∧ bfs_shape st'.
Proof.
  induction fuel as [|fuel IH]; intros st Hm Hsh.
  - destruct (queue st) as [|[[p cg] prev] q] eqn:Hq.
    + exists st. simpl. rewrite (proj2 (bfs_iter_None vd st) Hq). done.
    + unfold measure in Hm. rewrite Hq in Hm. simpl in Hm. lia.
  - destruct (queue st) as [|[[p cg] prev] q] eqn:Hq.
    + exists st. simpl. rewrite (proj2 (bfs_iter_None vd st) Hq). done.
    + destruct (bfs_iter_shape st p cg prev q Hsh Hq) as (st1 & Hit & Hsh1 & Hm1).
      simpl. rewrite Hit. apply IH; [lia|done].
Qed.

Lemma bfs_start_shape g0 start prev :
  shape g0 = shape vd →
  bfs_shape (BfsState g0 [(start, 1, prev)] []) ∧
  measure vd (BfsState g0 [(start, 1, prev)] []) ≤ S (box_size (shape vd)).
Proof.
  intros Hs. split; [split; simpl|].
  - intros n gr pr [= -> -> ->]%list_elem_of_singleton. lia.
  - done.
  - constructor.
  - unfold measure. simpl. rewrite <- length_box_cells.
    pose proof (length_filter
      (λ c, grade_of (BfsState g0 [(start, 1, prev)] []) c = 0) (box_cells (shape vd))).
    lia.
Qed.
End labelling.

(** ** Segments are chains *)

Lemma chain_cons pp seg hd :
  head seg = Some hd → pp.2 = hd.1 → chain seg → chain (pp :: seg).
Proof. destruct seg as [|y seg]; [done|]. intros [= ->] ? ?. by split. Qed.

Lemma chain_snoc seg : ∀ pp tl,
  last seg = Some tl → tl.2 = pp.1 → chain seg → chain (seg ++ [pp]).
Proof.
  induction seg as [|x seg IH]; intros pp tl Hl Heq Hc; [done|].
  destruct seg as [|y seg].
  - injection Hl as ->. by split.
  - destruct Hc as [Hxy Hc]. split; [done|].
    apply (IH pp tl); [|done|done]. by rewrite last_cons_cons in Hl.
Qed.

Lemma scan_chain seg rd : ∀ pl k i seg',
  scan (Some seg) k rd pl = Ret (Some (i, seg')) → chain seg → chain seg'.
Proof.
  induction rd as [|r rd IH]; intros pl k i seg' Hs Hc.
  - destruct pl; simpl in Hs; done.
  - destruct pl as [|pp pl]; [done|]. cbn [scan] in Hs.
    destruct (decide (r = 1)); [by eapply IH|].
    destruct (last seg) as [tl|] eqn:Hl; [|done].
    destruct (head seg) as [hd|] eqn:Hh; [|done].
    destruct (decide (pp.1 = tl.2)) as [He|_].
    + injection Hs as <- <-. by apply (chain_snoc seg pp tl).
    + destruct (decide (pp.2 = hd.1)) as [He|_].
      * injection Hs as <- <-. by apply (chain_cons pp seg hd).
      * by eapply IH.
Qed.

Lemma dict_set_Forall {V} (Q : V → Prop) (d : dict V) k v :
  Forall (λ kv, Q kv.2) d → Q v → Forall (λ kv, Q kv.2) (dict_set d k v).
Proof.
  induction d as [|[k' v'] d IH]; intros Hd Hv; simpl.
  - by apply Forall_singleton.
  - apply Forall_cons in Hd as [Hv' Hd]. destruct (decide (k' = k)).
    + by constructor.
    + constructor; [done|]. by apply IH.
Qed.

Lemma dict_get_Forall {V} (Q : V → Prop) (d : dict V) k v :
  Forall (λ kv, Q kv.2) d → dict_get d k = Some v → Q v.
Proof.
  induction d as [|[k' v'] d IH]; intros Hd Hg; [done|].
  apply Forall_cons in Hd as [Hv' Hd]. simpl in Hg.
  destruct (decide (k' = k)); [by injection Hg as <-|by apply IH].
Qed.

Lemma seg_iter_chain pl st st' :
  seg_iter pl st = Ret st' →
  Forall (λ kv, chain kv.2) (segs st) → Forall (λ kv, chain kv.2) (segs st').
Proof.
  unfold seg_iter. intros Hit Hc.
  apply bind_Ret in Hit as (st1 & Hseed & Hit).
  assert (Hc1 : Forall (λ kv, chain kv.2) (segs st1)).
  { unfold seg_seed in Hseed. destruct (decide (find_flag st = 1)).
    - by injection Hseed as <-.
    - apply bind_Ret in Hseed as (r & _ & Hseed). destruct r as [[i pp]|].
      + injection Hseed as <-. simpl. by apply (dict_set_Forall chain).
      + by injection Hseed as <-. }
  apply bind_Ret in Hit as (r & Hscan & Hit). destruct r as [[i cur']|].
  - injection Hit as <-. simpl. apply (dict_set_Forall chain); [done|].
    destruct (dict_get (segs st1) (seg_num st1)) as [cur|] eqn:Hcur.
    + apply (scan_chain cur _ _ _ _ _ Hscan).
      by apply (dict_get_Forall chain _ _ _ Hc1 Hcur).
    + exfalso. clear -Hscan. revert Hscan. generalize 0.
      generalize (readed st1). induction pl as [|pp pl IH]; intros rd k Hs;
        [by destruct rd|].
      destruct rd as [|r rd]; [done|]. cbn [scan] in Hs.
      destruct (decide (r = 1)); [by eapply IH|done].
  - by injection Hit as <-.
Qed.

Lemma seg_loop_chain pl fuel : ∀ st st',
  seg_loop fuel pl st = Ret st' →
  Forall (λ kv, chain kv.2) (segs st) → Forall (λ kv, chain kv.2) (segs st').
Proof.
  induction fuel as [|fuel IH]; intros st st' Hl Hc; simpl in Hl.
  - destruct (decide (sum_list (readed st) < length pl)); [done|].
    by injection Hl as <-.
  - destruct (decide (sum_list (readed st) < length pl)); [|by injection Hl as <-].
    apply bind_Ret in Hl as (st1 & Hit & Hl).
    eapply IH; [done|]. by eapply seg_iter_chain.
Qed.

(** The segments of one generation, for any list of pairs. *)
Lemma segments_of_shape pl :
  ∃ sk, segments_of pl = Ret sk ∧ seg_pairs sk ≡ₚ pl ∧ segs_ok sk.
Proof.
  unfold segments_of.
  destruct (seg_loop_inv pl (2 * length pl)
              (SegState (replicate (length pl) 0) 0 [] 0))
    as (st & Hloop & Hinv & Hdone).
  - unfold seg_measure. simpl. rewrite unread_replicate. lia.
  - split; simpl; try done.
    + by rewrite length_replicate.
    + apply Forall_replicate. lia.
    + by rewrite unread_replicate.
  - rewrite Hloop. simpl. exists (segs st). split; [done|].
    pose proof (seg_loop_chain _ _ _ _ Hloop) as Hchain. simpl in Hchain.
    specialize (Hchain ltac:(constructor)).
    destruct Hinv as [Hlen Hbits Hkeys Hne Hperm _].
    pose proof (unread_length _ _ Hlen Hbits) as Hul.
    assert (unread (readed st) pl = []) as Hnil.
    { apply length_zero_iff_nil. lia. }
    rewrite Hnil, app_nil_r in Hperm. split; [done|]. split.
    + assert (length (segs st) = seg_num st) as Hn.
      { trans (length (dict_keys (segs st))).
        - unfold dict_keys. by rewrite length_fmap.
        - by rewrite Hkeys, length_seq. }
      by rewrite Hn.
    + rewrite Forall_forall in Hne, Hchain. apply Forall_forall. intros js Hjs.
      split; [by apply Hne|by apply Hchain].
Qed.

Lemma segments_of_nonempty pl sk :
  segments_of pl = Ret sk → pl ≠ [] → sk ≠ [].
Proof.
  intros Hs Hpl ->. destruct (segments_of_shape pl) as (sk & Hsk & Hperm & _).
  rewrite Hs in Hsk. injection Hsk as <-. simpl in Hperm.
  by apply Permutation_nil_l in Hperm.
Qed.

(** The loop over the generations: with distinct keys, every generation
    gets its own entry, in order. *)
Lemma get_all_segments_from_shape plwp :
  ∀ acc,
    NoDup (dict_keys acc ++ dict_keys plwp) →
    ∃ new, get_all_segments_from acc plwp = Ret (acc ++ new) ∧
           Forall2 (λ ksk kpl, ksk.1 = kpl.1 ∧ segments_of kpl.2 = Ret ksk.2)
                   new plwp.
Proof.
  induction plwp as [|[k pl] plwp IH]; intros acc Hnd.
  { exists []. simpl. by rewrite app_nil_r. }
  cbn [get_all_segments_from].
  destruct (segments_of_shape pl) as (sk & Hsk & _). rewrite Hsk.
  cbn [mbind res_bind].
  unfold dict_keys in Hnd. simpl in Hnd.
  assert (k ∉ dict_keys acc) as Hk.
  { apply NoDup_app in Hnd as (_ & Hd & _). intros Hin.
    apply (Hd _ Hin). apply list_elem_of_here. }
  rewrite (dict_set_fresh _ _ _ Hk).
  destruct (IH (acc ++ [(k, sk)])) as (new & -> & Hnew).
  { unfold dict_keys. rewrite fmap_app. simpl. rewrite <- (assoc_L (++)). done. }
  exists ((k, sk) :: new). rewrite <- (assoc_L (++)). split; [done|].
  constructor; [done|done].
Qed.

(** For any dictionary, the loop returns, and every segment of the result
    is a non-empty chain. *)
Lemma get_all_segments_from_total plwp :
  ∀ acc, Forall (λ kv, segs_ok kv.2) acc →
    ∃ sd, get_all_segments_from acc plwp = Ret sd ∧ Forall (λ kv, segs_ok kv.2) sd.
Proof.
  induction plwp as [|[k pl] plwp IH]; intros acc Hacc; [by exists acc|].
  cbn [get_all_segments_from].
  destruct (segments_of_shape pl) as (sk & -> & _ & Hok). cbn [mbind res_bind].
  apply IH. by apply (dict_set_Forall segs_ok).
Qed.

(** ** The labeller's outcome *)

Lemma np_index_cases i n :
  ((- n ≤ i < n)%Z ∧ ∃ i', np_index i n = Ret i')
  ∨ (¬ (- n ≤ i < n)%Z ∧ np_index i n = Raise IndexError).
Proof.
  unfold np_index.
  destruct (Z.leb_spec 0 i), (Z.ltb_spec i n); simpl;
    try (left; split; [lia|eauto]; fail);
    destruct (Z.leb_spec (- n) i), (Z.ltb_spec i 0); simpl;
    try (left; split; [lia|eauto]; fail); right; split; try done; lia.
Qed.

Lemma np_locate_cases s c :
  (in_np_range s c ∧ ∃ c', np_locate s c = Ret c')
  ∨ (¬ in_np_range s c ∧ np_locate s c = Raise IndexError).
Proof.
  destruct s as [[sx sy] sz], c as [[x y] z]. unfold in_np_range, np_locate. simpl.
  destruct (np_index_cases x sx) as [[Hx [x' ->]]|[Hx ->]];
    [|right; split; [tauto|done]].
  destruct (np_index_cases y sy) as [[Hy [y' ->]]|[Hy ->]];
    [|right; split; [tauto|done]].
  destruct (np_index_cases z sz) as [[Hz [z' ->]]|[Hz ->]];
    [|right; split; [tauto|done]].
  left. split; [done|]. simpl. eauto.
Qed.

Lemma recorded_nil_iff d :
  Forall (λ kv : nat * list ppair, kv.2 ≠ []) d → recorded d = [] → d = [].
Proof.
  destruct d as [|[k pl] d]; [done|]. intros [Hpl _]%Forall_cons.
  rewrite recorded_cons. destruct pl; done.
Qed.

Lemma labelling_cases vd root :
  (in_np_range (shape vd) root ∧
   ∃ st sd, bfs_shape st ∧ label_vessel_grades vd root = Ret (grades st, sd) ∧
            Forall2 (λ ksk kpl, ksk.1 = kpl.1 ∧ segments_of kpl.2 = Ret ksk.2)
                    sd (point_list_with_prior st))
  ∨ (¬ in_np_range (shape vd) root ∧ label_vessel_grades vd root = Raise IndexError).
Proof.
  unfold label_vessel_grades, arr_set.
  change (shape (np_zeros (shape vd))) with (shape vd).
  destruct (np_locate_cases (shape vd) root) as [[Hr [c' ->]]|[Hr ->]];
    [left|right; split; [done|reflexivity]].
  split; [done|]. cbn [mbind res_bind].
  set (g0 := arr_put _ _ _).
  destruct (bfs_start_shape vd g0 root (-1, -1, -1)%Z) as [Hsh Hm]; [done|].
  destruct (bfs_loop_shape vd _ _ Hm Hsh) as (st & -> & Hst). cbn [mbind res_bind].
  destruct (get_all_segments_from_shape (point_list_with_prior st) [])
    as (sd & Hsd & Hall).
  { simpl. rewrite (sh_keys _ Hst). apply NoDup_seq. }
  unfold _get_all_segments. rewrite Hsd. simpl. eauto.
Qed.

Lemma labelling_shape vd root g sd :
  label_vessel_grades vd root = Ret (g, sd) → seg_dic_ok sd.
Proof.
  intros Hl. destruct (labelling_cases vd root)
    as [(_ & st & sd' & Hst & Hl' & Hall)|[_ Hl']]; rewrite Hl' in Hl; [|done].
  injection Hl as _ <-. destruct Hst as [_ Hkeys Hne].
  assert (Hk : dict_keys sd' = dict_keys (point_list_with_prior st)).
  { unfold dict_keys. clear -Hall. induction Hall as [|? ? ? ? [? _]]; [done|].
    rewrite !fmap_cons. by f_equal. }
  split.
  - rewrite Hk, Hkeys. by rewrite (Forall2_length _ _ _ Hall).
  - clear Hk Hkeys Hl'. revert Hall Hne. generalize (point_list_with_prior st).
    intros plwp Hall.
    induction Hall as [|[k sk] [k' pl] sd' plwp [_ Hs] Hall IH]; intros Hne;
      [constructor|].
    apply Forall_cons in Hne as [Hpl Hne]. simpl in *. constructor; [|by apply IH].
    simpl. split; [by apply (segments_of_nonempty pl)|].
    destruct (segments_of_shape pl) as (sk' & Hsk' & _ & Hok).
    rewrite Hs in Hsk'. by injection Hsk' as <-.
Qed.

(** X5.  [label_vessel_grades] raises exactly when a coordinate of the
    start point is outside [-n, n) for its axis of length [n], where numpy
    rejects the index, and what it raises is [IndexError]; for every other
    start point, set in the mask or not, within the grid or addressed from
    the end by a negative coordinate, it terminates and returns. *)
Theorem labelling_raises_iff vd root :
  (in_np_range (shape vd) root ∧ ∃ g sd, label_vessel_grades vd root = Ret (g, sd))
  ∨ (¬ in_np_range (shape vd) root ∧
     label_vessel_grades vd root = Raise IndexError).
Proof.
  destruct (labelling_cases vd root) as [(? & st & sd & _ & ? & _)|?];
    [left|right]; eauto.
Qed.

(** X6.  In every result of the labeller the generations are numbered
    [1 .. K] in the order of the dictionary and each has at least one
    segment; the segments of a generation are numbered [1 .. n] in order;
    every segment is non-empty and is a chain, the parent of each of its
    pairs being the point of the next pair. *)
Theorem labelling_result_shape vd root g sd :
  label_vessel_grades vd root = Ret (g, sd) →
  dict_keys sd = seq 1 (length sd) ∧
  Forall (λ kv, kv.2 ≠ [] ∧ dict_keys kv.2 = seq 1 (length kv.2) ∧
                Forall (λ js, js.2 ≠ [] ∧ chain js.2) kv.2) sd.
Proof. intros Hl. exact (labelling_shape vd root g sd Hl). Qed.

Lemma labelling_result_shape_witness :
  dict_keys y_labelled.2 = seq 1 (length y_labelled.2) ∧
  Forall (λ kv, kv.2 ≠ [] ∧ dict_keys kv.2 = seq 1 (length kv.2) ∧
                Forall (λ js, js.2 ≠ [] ∧ chain js.2) kv.2) y_labelled.2.
Proof.
  apply (labelling_result_shape y_mask (5, 5, 0)%Z y_labelled.1 y_labelled.2).
  vm_compute. reflexivity.
Defined.

Lemma py_max_ge l x : x ∈ l → x ≤ py_max l.
Proof.
  unfold py_max. induction l as [|y l IH]; [by intros ?%elem_of_nil|].
  intros [->|Hin]%elem_of_cons; simpl; [lia|]. specialize (IH Hin). lia.
Qed.

Lemma elem_of_seg_items sd i j seg :
  (i, j, seg) ∈ seg_items sd ↔ ∃ sk, (i, sk) ∈ sd ∧ (j, seg) ∈ sk.
Proof.
  unfold seg_items. rewrite list_elem_of_bind. split.
  - intros ([i' sk] & Hin & Hsk).
    apply list_elem_of_bind in Hin as ([j' seg'] & Hin & Hj).
    apply list_elem_of_singleton in Hin. injection Hin as <- <- <-. eauto.
  - intros (sk & Hsk & Hj). exists (i, sk). split; [|done].
    apply list_elem_of_bind. exists (j, seg). split; [|done].
    apply list_elem_of_here.
Qed.

Lemma seq_keys_bound {V} (d : dict V) k v :
  dict_keys d = seq 1 (length d) → (k, v) ∈ d → 1 ≤ k ≤ length d.
Proof.
  intros Hk Hin. assert (k ∈ dict_keys d) as Hk'.
  { unfold dict_keys. apply list_elem_of_fmap. by exists (k, v). }
  rewrite Hk, elem_of_seq in Hk'. lia.
Qed.

Lemma fd_get_replicate r c i j :
  i < r → j < c → fd_get (replicate r (replicate c 0)) i j = Some 0.
Proof.
  intros Hi Hj. unfold fd_get.
  rewrite (lookup_replicate_2 r (replicate c 0) i Hi). simpl.
  by apply lookup_replicate_2.
Qed.

(** X7.  The [find_dad] array that [get_tree_from_region] allocates covers
    every segment of the labeller's result: generations and segment numbers
    start at 1 and do not exceed the number of generations and the greatest
    number of segments of a generation, so every [find_dad[i][j]] that tree
    building reads exists and is 0 at the start. *)
Theorem find_dad_covers vd root g sd max_length i j seg :
  label_vessel_grades vd root = Ret (g, sd) →
  py_max_list ((λ kv, length kv.2) <$> sd) = Ret max_length →
  (i, j, seg) ∈ seg_items sd →
  1 ≤ i ≤ length (dict_keys sd) ∧ 1 ≤ j ≤ max_length ∧
  fd_get (replicate (length (dict_keys sd) + 3) (replicate (max_length + 3) 0)) i j
  = Some 0.
Proof.
  intros Hl Hmax Hin. apply labelling_shape in Hl as [Hkeys Hall].
  apply elem_of_seg_items in Hin as (sk & Hsk & Hj).
  pose proof (seq_keys_bound _ _ _ Hkeys Hsk) as Hi.
  rewrite Forall_forall in Hall. destruct (Hall _ Hsk) as (_ & Hk' & _).
  simpl in Hk'. pose proof (seq_keys_bound _ _ _ Hk' Hj) as Hj'.
  assert (length sk ≤ max_length) as Hle.
  { assert (length sk ≤ py_max ((λ kv, length kv.2) <$> sd)) as Hle.
    { apply py_max_ge. apply list_elem_of_fmap. by exists (i, sk). }
    destruct sd as [|kv sd]; [done|]. unfold py_max_list in Hmax.
    rewrite fmap_cons in Hmax. by injection Hmax as <-. }
  unfold dict_keys. rewrite length_fmap.
  split_and!; try lia. apply fd_get_replicate; lia.
Qed.

Lemma find_dad_covers_witness :
  1 ≤ 1 ≤ length (dict_keys y_labelled.2) ∧ 1 ≤ 1 ≤ 1 ∧
  fd_get (replicate (length (dict_keys y_labelled.2) + 3) (replicate (1 + 3) 0)) 1 1
  = Some 0.
Proof.
  apply (find_dad_covers y_mask (5, 5, 0)%Z y_labelled.1 y_labelled.2 1 1 1
           (default [] (snd <$> head (seg_items y_labelled.2)))).
  - vm_compute. reflexivity.
  - vm_compute. reflexivity.
  - vm_compute. apply list_elem_of_here.
Defined.

(** X8.  For a root that is set in the mask, the generation array that the
    labeller returns is non-zero exactly at the voxels reachable from the
    root under 26-connectivity: no reachable voxel is left unlabelled and
    no other cell is written. *)
Theorem labelled_iff_reachable vd root :
  is_set vd root →
  ∃ g sd, label_vessel_grades vd root = Ret (g, sd) ∧
          ∀ c, arr_get 0 g c ≠ 0 ↔ reachable vd root c.
Proof.
  intros Hroot.
  destruct (label_vessel_grades_ok vd root (proj1 Hroot))
    as (st & sd & Hinv & Hq & Hl & _).
  exists (grades st), sd. split; [done|]. intros c.
  pose proof (bfs_final_reach vd root st Hinv Hq c) as H. unfold grade_of in H.
  unfold reachable. tauto.
Qed.

Lemma labelled_iff_reachable_witness :
  ∃ g sd, label_vessel_grades y_mask (5, 5, 0)%Z = Ret (g, sd) ∧
          ∀ c, arr_get 0 g c ≠ 0 ↔ reachable y_mask (5, 5, 0)%Z c.
Proof. apply (labelled_iff_reachable y_mask (5, 5, 0)%Z). split; reflexivity. Defined.

(** ** Skeletons whose root has no neighbour *)

Lemma set_all_spec cs :
  ∀ a, Forall (λ c, in_shape (shape a) c = true) cs →
    ∃ m, set_all a cs = Ret m ∧ shape m = shape a ∧
         ∀ c, arr_get 0%Z m c = 1%Z ↔ c ∈ cs ∨ arr_get 0%Z a c = 1%Z.
Proof.
  induction cs as [|c0 cs IH]; intros a Hall.
  - exists a. split_and!; try done. intros c. rewrite elem_of_nil. tauto.
  - apply Forall_cons in Hall as [Hc0 Hall]. cbn [set_all]. unfold arr_set.
    rewrite (np_locate_in_shape _ _ Hc0). cbn [mbind res_bind].
    destruct (IH (arr_put a c0 1%Z)) as (m & -> & Hs & Hm); [done|].
    exists m. split_and!; try done. intros c. rewrite Hm, elem_of_cons.
    destruct (decide (c0 = c)) as [->|Hne].
    + rewrite arr_get_put_eq. tauto.
    + rewrite arr_get_put_ne by done.
      split; [intros [?|?]; auto|intros [[->|?]|?]; [done|auto|auto]].
Qed.

Lemma argmin_from_lt l : ∀ bi bv i, bi < i → argmin_from bi bv i l < i + length l.
Proof.
  induction l as [|x l IH]; intros bi bv i Hb; simpl; [lia|].
  destruct (x <? bv)%Z.
  - specialize (IH i x (S i)). lia.
  - specialize (IH bi bv (S i)). lia.
Qed.

Lemma np_argmin_lt l i : np_argmin l = Ret i → i < length l.
Proof.
  destruct l as [|x l]; [done|]. intros [= <-]. simpl.
  pose proof (argmin_from_lt l 0 x 1). lia.
Qed.

Lemma adjacent_irrefl p : ¬ adjacent p p.
Proof.
  intros (d & Hd & Heq). destruct p as [[x y] z].
  unfold directions in Hd.
  repeat (apply elem_of_cons in Hd as [->|Hd];
          [simpl in Heq; injection Heq; lia|]).
  by apply elem_of_nil in Hd.
Qed.

Lemma tagged_nil sd : seg_dic_ok sd → tagged sd = [] → sd = [].
Proof.
  intros [_ Hall] Ht. destruct sd as [|[i sk] sd]; [done|]. exfalso.
  apply Forall_cons in Hall as [(Hsk & _ & Hsegs) _].
  destruct sk as [|[j seg] sk]; [done|].
  apply Forall_cons in Hsegs as [[Hseg _] _].
  destruct seg as [|pp seg]; [done|].
  unfold tagged in Ht. rewrite bind_cons in Ht. unfold seg_pairs in Ht.
  simpl in Ht. done.
Qed.

Lemma isolated_root_no_segments vd root g sd :
  in_shape (shape vd) root = true → (∀ n, ¬ mask_edge vd root n) →
  label_vessel_grades vd root = Ret (g, sd) → sd = [].
Proof.
  intros Hroot Hiso Hl.
  destruct (label_vessel_grades_ok vd root Hroot) as (st & sd' & Hinv & _ & Hl' & Hperm).
  pose proof (labelling_shape _ _ _ _ Hl) as Hok.
  rewrite Hl' in Hl. injection Hl as _ ->.
  apply tagged_nil; [done|].
  assert (recorded (point_list_with_prior st) = []) as Hrec.
  { destruct (recorded (point_list_with_prior st)) as [|[gen [n p]] l] eqn:Hr; [done|].
    exfalso.
    destruct (inv_rec _ _ _ _ Hinv gen n p) as (_ & Hp & _ & _ & He).
    { rewrite Hr. apply list_elem_of_here. }
    assert (rtc (mask_edge vd) root p) as Hreach.
    { apply (inv_reach _ _ _ _ Hinv). lia. }
    apply rtc_inv in Hreach as [->|(y & Hy & _)].
    - by apply (Hiso n).
    - by apply (Hiso y). }
  rewrite Hrec in Hperm. by apply Permutation_nil_r in Hperm.
Qed.

(** X9.  A skeleton whose root, the coordinate nearest to the centre, has
    no other skeleton coordinate among its 26 neighbours yields no tree:
    [get_tree_from_region], and with it [get_all_lines_and_tree], raises
    [ValueError].  This covers the empty skeleton and the skeleton of a
    single voxel. *)
Theorem isolated_root_value_error data_shape center sk_coords :
  Forall (λ c, in_shape data_shape c = true) sk_coords →
  (∀ i root, np_argmin (sq_dist center <$> sk_coords) = Ret i →
             sk_coords !! i = Some root →
             ∀ c, c ∈ sk_coords → ¬ adjacent root c) →
  get_tree_from_region data_shape center sk_coords = Raise ValueError ∧
  get_all_lines_and_tree data_shape center sk_coords = Raise ValueError.
Proof.
  intros Hall Hiso.
  assert (raw_tree_from_region data_shape center sk_coords = Raise ValueError) as Hraw.
  { unfold raw_tree_from_region.
    destruct (np_argmin (sq_dist center <$> sk_coords)) as [i|e|] eqn:Hi;
      [|destruct sk_coords; [by injection Hi as <-|done]|by destruct sk_coords].
    cbn [mbind res_bind].
    pose proof (np_argmin_lt _ _ Hi) as Hlt. rewrite length_fmap in Hlt.
    destruct (py_index_lt sk_coords i Hlt) as (root & -> & Hroot).
    cbn [mbind res_bind].
    destruct (set_all_spec sk_coords (np_zeros data_shape)) as (m & -> & Hs & Hm);
      [done|]. cbn [mbind res_bind]. simpl in Hs.
    assert (in_shape (shape m) root = true) as Hin.
    { rewrite Hs. rewrite Forall_forall in Hall. apply Hall.
      by eapply list_elem_of_lookup_2. }
    destruct (label_vessel_grades_ok m root Hin) as (st & sd & _ & _ & Hl & _).
    rewrite Hl. cbn [mbind res_bind].
    rewrite (isolated_root_no_segments m root (grades st) sd Hin); [done| |done].
    intros n [Hadj [_ Hset]]. apply (Hiso i root eq_refl Hroot n); [|done].
    apply Hm in Hset as [?|Hz]; [done|]. by vm_compute in Hz. }
  unfold get_all_lines_and_tree, get_tree_from_region. by rewrite Hraw.
Qed.

Lemma isolated_root_value_error_witness :
  get_tree_from_region (3, 3, 3)%Z (1, 1, 1)%Z [(1, 1, 1)%Z] = Raise ValueError ∧
  get_all_lines_and_tree (3, 3, 3)%Z (1, 1, 1)%Z [(1, 1, 1)%Z] = Raise ValueError.
Proof.
  apply (isolated_root_value_error (3, 3, 3)%Z (1, 1, 1)%Z [(1, 1, 1)%Z]).
  - repeat constructor.
  - intros i root Hi Hroot c Hc. vm_compute in Hi. injection Hi as <-.
    simpl in Hroot. injection Hroot as <-.
    apply list_elem_of_singleton in Hc as ->. apply adjacent_irrefl.
Defined.

(** X10.  [_get_all_segments] neither raises nor loops: for every
    dictionary of recorded pairs it returns a dictionary with the same
    generations in the same order, in which the segments of a generation
    hold exactly the pairs recorded for it, each pair once, are numbered
    [1 .. n], and are non-empty chains. *)
Theorem get_all_segments_regroups plwp :
  NoDup (dict_keys plwp) →
  ∃ sd, _get_all_segments plwp = Ret sd ∧
        Forall2 (λ ksk kpl, ksk.1 = kpl.1 ∧ seg_pairs ksk.2 ≡ₚ kpl.2 ∧ segs_ok ksk.2)
                sd plwp.
Proof.
  intros Hnd. destruct (get_all_segments_from_shape plwp []) as (sd & Hsd & Hall);
    [done|].
  exists sd. split; [done|].
  eapply Forall2_impl; [exact Hall|]. intros [k sk] [k' pl] [Hk Hs]. simpl in *.
  destruct (segments_of_shape pl) as (sk' & Hsk' & Hperm & Hok).
  rewrite Hs in Hsk'. injection Hsk' as <-. done.
Qed.

Lemma get_all_segments_regroups_witness :
  ∃ sd, _get_all_segments [(1, [((0, 0, 1), (0, 0, 0))%Z])] = Ret sd ∧
        Forall2 (λ ksk kpl, ksk.1 = kpl.1 ∧ seg_pairs ksk.2 ≡ₚ kpl.2 ∧ segs_ok ksk.2)
                sd [(1, [((0, 0, 1), (0, 0, 0))%Z])].
Proof.
  apply (get_all_segments_regroups [(1, [((0, 0, 1), (0, 0, 0))%Z])]).
  apply NoDup_singleton.
Defined.

(** ** Tree building: what every call achieves *)

Lemma fd_get_set fd i j i' j' :
  fd_get fd i j = Some 0 →
  fd_get (fd_set fd i j 1) i' j'
  = if decide (i = i' ∧ j = j') then Some 1 else fd_get fd i' j'.
Proof.
  unfold fd_get, fd_set. destruct (fd !! i) as [row|] eqn:Hrow; [|done]. simpl.
  intros Hj. destruct (decide (i = i')) as [<-|Hi].
  - rewrite list_lookup_insert_eq by (by eapply lookup_lt_Some). simpl.
    destruct (decide (j = j')) as [<-|Hj'].
    + rewrite decide_True by done.
      rewrite list_lookup_insert_eq by (by eapply lookup_lt_Some). done.
    + rewrite decide_False by tauto.
      rewrite list_lookup_insert_ne by done. by rewrite Hrow.
  - rewrite decide_False by tauto. by rewrite list_lookup_insert_ne by done.
Qed.

Lemma filter_remove_perm {A B} (f : A → B) (P Q : A → Prop)
    `{∀ x, Decision (P x)} `{∀ x, Decision (Q x)} (l : list A) (x : A) :
  NoDup (f <$> l) → x ∈ l → P x → ¬ Q x →
  (∀ y, y ∈ l → f y ≠ f x → (P y ↔ Q y)) →
  filter P l ≡ₚ x :: filter Q l.
Proof.
  induction l as [|a l IH]; intros Hnd Hin HP HQ Hsame; [by apply elem_of_nil in Hin|].
  rewrite fmap_cons in Hnd. apply NoDup_cons in Hnd as [Ha Hnd].
  apply elem_of_cons in Hin as [->|Hin].
  - rewrite filter_cons_True by done. rewrite filter_cons_False by done.
    constructor. erewrite filter_ext_in; [done|].
    intros y Hy. apply Hsame; [by apply list_elem_of_further|].
    intros Heq. apply Ha. rewrite <- Heq. apply list_elem_of_fmap. eauto.
  - assert (f a ≠ f x) as Hne.
    { intros Heq. apply Ha. rewrite Heq. apply list_elem_of_fmap. eauto. }
    assert (filter P l ≡ₚ x :: filter Q l) as IH'.
    { apply IH; try done. intros y Hy. apply Hsame. by apply list_elem_of_further. }
    destruct (decide (P a)) as [HPa|HPa].
    + rewrite filter_cons_True by done.
      rewrite (filter_cons_True Q) by (apply Hsame; [apply list_elem_of_here|done|done]).
      rewrite IH'. apply Permutation_swap.
    + rewrite filter_cons_False by done.
      rewrite (filter_cons_False Q); [done|].
      rewrite <- Hsame; [done|apply list_elem_of_here|done].
Qed.

Lemma open_items_set fd items i j seg :
  NoDup items.*1 → (i, j, seg) ∈ items → fd_get fd i j = Some 0 →
  open_items fd items ≡ₚ (i, j, seg) :: open_items (fd_set fd i j 1) items.
Proof.
  intros Hnd Hin Hfd. unfold open_items.
  apply (filter_remove_perm fst); try done.
  - simpl. rewrite (fd_get_set _ _ _ _ _ Hfd). rewrite decide_True by done. done.
  - intros [[i' j'] seg'] _ Hne. simpl in *.
    rewrite (fd_get_set _ _ _ _ _ Hfd). rewrite decide_False; [done|].
    intros [-> ->]. done.
Qed.

Lemma open_items_mono fd fd' items y :
  fd_mono fd fd' → y ∈ open_items fd' items → y ∈ open_items fd items.
Proof.
  unfold open_items. rewrite !list_elem_of_filter. intros Hm [H1 H2].
  split; [by apply Hm|done].
Qed.

Lemma layered_unfold l c :
  layered l c ↔ layer c = l ∧ Forall (layered (l + 1)) (subtree c).
Proof.
  destruct c as [ln subs dp sl dpi ly]. simpl.
  assert (foldr (λ s Q, layered (l + 1) s ∧ Q) True subs
          ↔ Forall (layered (l + 1)) subs) as ->; [|done].
  induction subs as [|s subs IH]; simpl.
  - split; [constructor|done].
  - rewrite Forall_cons, IH. done.
Qed.

Lemma build_step_refl items lyr ln acc : build_step items lyr ln acc acc.
Proof.
  exists [], []. rewrite !app_nil_r. simpl. split_and!; try done.
  - by intros i j H.
  - intros y _ tl n pt _ Hn. by apply elem_of_nil in Hn.
Qed.

Lemma flat_map_app' {A B} (f : A → list B) l1 l2 :
  flat_map f (l1 ++ l2) = flat_map f l1 ++ flat_map f l2.
Proof. induction l1 as [|x l1 IH]; simpl; [done|]. by rewrite IH, <- app_assoc. Qed.

Lemma build_step_trans items lyr ln acc1 acc2 acc3 :
  build_step items lyr ln acc1 acc2 → build_step items lyr ln acc2 acc3 →
  build_step items lyr ln acc1 acc3.
Proof.
  intros (n1 & k1 & Hs1 & Hd1 & Hl1 & Hk1 & Hm1 & Hp1 & Ht1 & Hz1 & Hy1)
         (n2 & k2 & Hs2 & Hd2 & Hl2 & Hk2 & Hm2 & Hp2 & Ht2 & Hz2 & Hy2).
  exists (n1 ++ n2), (k1 ++ k2). split_and!.
  - by rewrite Hs2, Hs1, <- app_assoc.
  - by rewrite Hd2, Hd1, <- app_assoc.
  - rewrite !length_app. lia.
  - by apply Forall_app.
  - intros i j H. by apply Hm1, Hm2.
  - rewrite flat_map_app', map_app, <- app_assoc. rewrite Hp2. done.
  - intros y Hy tl n pt Hl Hn Hpt. rewrite flat_map_app', elem_of_app in Hn.
    destruct Hn as [Hn|Hn].
    + apply (Ht1 y (open_items_mono _ _ _ _ Hm2 Hy) tl n pt); done.
    + apply (Ht2 y Hy tl n pt); done.
  - rewrite map_app, sum_list_with_app. lia.
  - by apply Forall_app.
Qed.

Section build_post.
Variable rec : tree → list (list nat) → res (tree * list (list nat)).
Variable lyr : nat.
Variable F : nat.
Variable items : list (nat * nat * list ppair).
Hypothesis Hkeys : NoDup items.*1.
Hypothesis Hrec : ∀ nt fd,
  fd_zeros fd < F →
  ∃ nt' fd', rec nt fd = Ret (nt', fd') ∧ built_from items (lyr + 1) nt fd nt' fd'.
Variable ln : list ppair.

Lemma attach_post i j seg acc kp :
  (i, j, seg) ∈ items → ln !! kp.1 = Some kp.2 → fd_zeros acc.2 ≤ F →
  ∃ acc', attach rec lyr i j seg acc kp = Ret acc' ∧
          build_step items lyr ln acc acc' ∧
          (fd_get acc'.2 i j = Some 0 →
           ∀ tl, last seg = Some tl → kp.2.1 ≠ tl.2).
Proof.
  destruct acc as [[subs dpis] fd], kp as [k point]. simpl.
  intros Hin Hk HF.
  destruct (last seg) as [tl|] eqn:Hlast;
    [|eexists; split; [done|]; split; [apply build_step_refl|done]].
  destruct (decide (tl.2 = point.1)) as [Heq|Hne];
    [|eexists; split; [done|]; split; [apply build_step_refl|]; simpl;
      intros _ tl' [= <-]; done].
  destruct (fd_get fd i j) as [v|] eqn:Hfd;
    [|eexists; split; [done|]; split; [apply build_step_refl|]; simpl;
      by rewrite Hfd].
  destruct (decide (v = 0)) as [->|Hv];
    [|eexists; split; [done|]; split; [apply build_step_refl|]; simpl;
      rewrite Hfd; intros [= ?]; done].
  pose proof (fd_zeros_set _ _ _ Hfd) as Hz.
  destruct (Hrec (Node seg [] [] [] [] lyr) (fd_set fd i j 1))
    as (child & fd' & -> & Hline & _ & _ & Hlayer & Hstep & Hself); [lia|].
  simpl in *.
  destruct Hstep as (news & ks & Hs & Hd & Hl & Hks & Hm & Hp & Ht & Hsz & Hly).
  simpl in *.
  assert (fd_mono fd fd') as Hmono.
  { intros i' j' H0. apply Hm in H0. rewrite (fd_get_set _ _ _ _ _ Hfd) in H0.
    by destruct (decide (i = i' ∧ j = j')). }
  eexists; split; [done|]. split.
  - exists [child], [k]. simpl. split_and!; try done.
    + apply Forall_singleton. by eapply lookup_lt_Some.
    + rewrite app_nil_r, (nodes_unfold child). simpl. rewrite Hline, Hs.
      rewrite (open_items_set fd items i j seg Hkeys Hin Hfd).
      rewrite fmap_cons. simpl. constructor. done.
    + intros y Hy tl' n pt Hl' Hn Hpt. rewrite app_nil_r in Hn.
      rewrite nodes_unfold in Hn. apply elem_of_cons in Hn as [->|Hn].
      * rewrite Hline in Hpt. by apply (Hself y tl' pt).
      * rewrite Hs in Hn. by apply (Ht y Hy tl' n pt).
    + rewrite (tree_size_unfold child), Hs. lia.
    + apply Forall_singleton. apply layered_unfold. by rewrite Hs.
  - simpl. intros H0. apply Hm in H0. rewrite (fd_get_set _ _ _ _ _ Hfd) in H0.
    by rewrite decide_True in H0.
Qed.

Lemma attach_all_post i j seg kps :
  (i, j, seg) ∈ items → Forall (λ kp, ln !! kp.1 = Some kp.2) kps →
  ∀ acc, fd_zeros acc.2 ≤ F →
  ∃ acc', attach_all rec lyr i j seg acc kps = Ret acc' ∧
          build_step items lyr ln acc acc' ∧
          (fd_get acc'.2 i j = Some 0 →
           ∀ tl kp, last seg = Some tl → kp ∈ kps → kp.2.1 ≠ tl.2).
Proof.
  intros Hin. induction 1 as [|kp kps Hkp _ IH]; intros acc HF; simpl.
  { eexists; split; [done|]. split; [apply build_step_refl|].
    intros _ tl kp _ H. by apply elem_of_nil in H. }
  destruct (attach_post i j seg acc kp Hin Hkp HF) as (acc1 & -> & Hst1 & Hself1).
  simpl.
  assert (fd_zeros acc1.2 ≤ F) as HF1.
  { destruct Hst1 as (? & ? & _ & _ & _ & _ & _ & _ & _ & Hz & _). lia. }
  destruct (IH acc1 HF1) as (acc2 & -> & Hst2 & Hself2).
  eexists; split; [done|]. split; [by eapply build_step_trans|].
  intros H0 tl kp' Hl [->|Hkp']%elem_of_cons.
  - apply Hself1; [|done].
    destruct Hst2 as (? & ? & _ & _ & _ & _ & Hm & _). by apply Hm.
  - by apply (Hself2 H0 tl kp').
Qed.

Lemma build_segs_post its :
  Forall (λ x, x ∈ items) its →
  ∀ acc, fd_zeros acc.2 ≤ F →
  ∃ acc', build_segs rec lyr ln acc its = Ret acc' ∧
          build_step items lyr ln acc acc' ∧
          (∀ i j seg tl pt, (i, j, seg) ∈ its → fd_get acc'.2 i j = Some 0 →
                            last seg = Some tl → pt ∈ ln → pt.1 ≠ tl.2).
Proof.
  induction 1 as [|[[i j] seg] its Hx _ IH]; intros acc HF; simpl.
  { eexists; split; [done|]. split; [apply build_step_refl|].
    intros i j seg tl pt H. by apply elem_of_nil in H. }
  destruct (attach_all_post i j seg _ Hx (imap_pair_lookup ln) acc HF)
    as (acc1 & -> & Hst1 & Hself1).
  simpl.
  assert (fd_zeros acc1.2 ≤ F) as HF1.
  { destruct Hst1 as (? & ? & _ & _ & _ & _ & _ & _ & _ & Hz & _). lia. }
  destruct (IH acc1 HF1) as (acc2 & -> & Hst2 & Hself2).
  eexists; split; [done|]. split; [by eapply build_step_trans|].
  intros i' j' seg' tl pt [[= -> -> ->]|Hin]%elem_of_cons H0 Hl Hpt.
  - apply list_elem_of_lookup_1 in Hpt as [k Hk].
    apply (Hself1 ltac:(destruct Hst2 as (? & ? & _ & _ & _ & _ & Hm & _); by apply Hm)
             tl (k, pt)); [done|].
    apply elem_of_lookup_imap. by exists k, pt.
  - by apply (Hself2 i' j' seg' tl pt).
Qed.
End build_post.

Lemma build_tree_structure_post seg_dic fuel :
  NoDup (seg_items seg_dic).*1 →
  ∀ t lyr fd,
    fd_zeros fd < fuel →
    ∃ t' fd', build_tree_structure fuel t lyr seg_dic fd = Ret (t', fd') ∧
              built_from (seg_items seg_dic) lyr t fd t' fd'.
Proof.
  intros Hkeys. induction fuel as [|fuel IH]; intros t lyr fd Hfuel; [lia|].
  simpl.
  destruct (build_segs_post
              (λ t fd, build_tree_structure fuel t (lyr + 1) seg_dic fd) lyr fuel
              (seg_items seg_dic) Hkeys
              (λ nt fd', IH nt (lyr + 1) fd') (line t) (seg_items seg_dic)
              ltac:(by apply Forall_forall)
              (subtree t, dividePointIndex t, fd))
    as ([[subs dpis] fd'] & -> & Hstep & Hself); [simpl; lia|].
  simpl in *. eexists; eexists; split; [done|].
  split_and!; try done. simpl. intros [[i j] seg] tl pt Hy Hl Hpt.
  apply list_elem_of_filter in Hy as [H0 Hy]. simpl in *.
  by apply (Hself i j seg tl pt).
Qed.

(** X11.  Every call of [build_tree_structure] returns; it keeps the
    children the node had and appends new ones; nodes and zero flags are
    conserved: each new node raises exactly one flag from 0, no flag is
    cleared, and the lines of the new nodes are the segments whose flag was
    raised, each once and unaltered. *)
Theorem build_conserves t lyr seg_dic find_dad :
  NoDup (seg_items seg_dic).*1 →
  ∃ t' find_dad' news,
    build_tree_structure (S (fd_zeros find_dad)) t lyr seg_dic find_dad
    = Ret (t', find_dad') ∧
    line t' = line t ∧ subtree t' = subtree t ++ news ∧
    tree_size t' + fd_zeros find_dad' = tree_size t + fd_zeros find_dad ∧
    fd_mono find_dad find_dad' ∧
    map line (flat_map nodes news) ++ (open_items find_dad' (seg_items seg_dic)).*2
    ≡ₚ (open_items find_dad (seg_items seg_dic)).*2.
Proof.
  intros Hkeys.
  destruct (build_tree_structure_post seg_dic (S (fd_zeros find_dad)) Hkeys t lyr find_dad)
    as (t' & fd' & Hb & Hline & _ & _ & _ & Hstep & _); [lia|].
  destruct Hstep as (news & ks & Hs & _ & _ & _ & Hm & Hp & _ & Hz & _).
  simpl in *. exists t', fd', news. split_and!; try done.
  rewrite (tree_size_unfold t'), (tree_size_unfold t), Hs, map_app, sum_list_with_app.
  lia.
Qed.

Lemma build_conserves_witness :
  ∃ t' find_dad' news,
    build_tree_structure (S (fd_zeros (replicate 4 (replicate 4 0)))) origin_root 0
                         stray_seg_dic (replicate 4 (replicate 4 0))
    = Ret (t', find_dad') ∧
    line t' = line origin_root ∧ subtree t' = subtree origin_root ++ news ∧
    tree_size t' + fd_zeros find_dad'
    = tree_size origin_root + fd_zeros (replicate 4 (replicate 4 0)) ∧
    fd_mono (replicate 4 (replicate 4 0)) find_dad' ∧
    map line (flat_map nodes news) ++ (open_items find_dad' (seg_items stray_seg_dic)).*2
    ≡ₚ (open_items (replicate 4 (replicate 4 0)) (seg_items stray_seg_dic)).*2.
Proof.
  apply (build_conserves origin_root 0 stray_seg_dic (replicate 4 (replicate 4 0))).
  compute_done.
Defined.

(** X12.  The children that a call with argument [layer = l] attaches carry
    layer [l], their children layer [l + 1], and so on down; the layer of
    the node the call was made on is left as it was.  As the pipeline calls
    with [layer = 0] on a root of layer 0, the children of the root carry
    the root's own layer. *)
Theorem build_layers t lyr seg_dic find_dad :
  NoDup (seg_items seg_dic).*1 →
  ∃ t' find_dad' news,
    build_tree_structure (S (fd_zeros find_dad)) t lyr seg_dic find_dad
    = Ret (t', find_dad') ∧
    layer t' = layer t ∧ subtree t' = subtree t ++ news ∧
    Forall (layered lyr) news.
Proof.
  intros Hkeys.
  destruct (build_tree_structure_post seg_dic (S (fd_zeros find_dad)) Hkeys t lyr find_dad)
    as (t' & fd' & Hb & _ & _ & _ & Hlayer & Hstep & _); [lia|].
  destruct Hstep as (news & ks & Hs & _ & _ & _ & _ & _ & _ & _ & Hly).
  simpl in *. exists t', fd', news. done.
Qed.

Lemma build_layers_witness :
  ∃ t' find_dad' news,
    build_tree_structure (S (fd_zeros (replicate 4 (replicate 4 0)))) origin_root 0
                         stray_seg_dic (replicate 4 (replicate 4 0))
    = Ret (t', find_dad') ∧
    layer t' = layer origin_root ∧ subtree t' = subtree origin_root ++ news ∧
    Forall (layered 0) news.
Proof.
  apply (build_layers origin_root 0 stray_seg_dic (replicate 4 (replicate 4 0))).
  compute_done.
Defined.



(** ** Labelling: every labelled voxel descends from the root *)

Lemma rooted_mono R R' root c :
  (∀ x, x ∈ R → x ∈ R') → rooted R root c → rooted R' root c.
Proof.
  intros Hsub. induction 1 as [|n p Hin _ IH]; [constructor|].
  apply (rooted_step _ _ n p); [by apply Hsub|done].
Qed.

Section rooted.
Variable vd : ndarray Z.
Variable root : coord.

Lemma bfs_iter_rooted st st' :
  bfs_inv vd root (λ _, False) st → bfs_iter vd st = Some st' →
  rooted_inv root st → rooted_inv root st'.
Proof.
  intros Hinv Hit Hroot.
  destruct (queue st) as [|[[p cg] prev] q] eqn:Hq.
  { apply (bfs_iter_None vd) in Hq. by rewrite Hq in Hit. }
  rewrite (bfs_iter_spec vd st p cg prev q Hq) in Hit. injection Hit as <-.
  set (new := handed_out cg (unvisited_neighbors vd (grades st) p)).
  assert (NoDup new.*1) as Hnd.
  { subst new. rewrite handed_out_fst. apply NoDup_unvisited. }
  destruct (record_fold_effect p new Hnd (popped st)) as (Hnew & Hold & Hsub).
  destruct (inv_queue _ _ _ _ Hinv p cg prev) as [Hp Hcg];
    [rewrite Hq; apply list_elem_of_here|].
  assert (∀ x, x ∈ (recorded (point_list_with_prior st)).*2 →
               x ∈ (recorded (point_list_with_prior
                                (foldl (record_new p) (popped st) new))).*2) as Hsub'.
  { intros x Hx. apply list_elem_of_fmap in Hx as ([gen x'] & -> & Hx).
    apply list_elem_of_fmap. exists (gen, x'). split; [done|]. by apply Hsub. }
  intros c Hc. destruct (decide (c ∈ new.*1)) as [Hin|Hnin].
  - apply list_elem_of_fmap in Hin as ([c' gr] & -> & Hin). simpl in *.
    destruct (Hnew c' gr Hin) as [_ Hrec].
    apply (rooted_step _ _ c' p).
    + apply list_elem_of_fmap. by exists (gr, (c', p)).
    + apply (rooted_mono _ _ _ _ Hsub'). apply Hroot. lia.
  - rewrite (Hold c Hnin) in Hc.
    apply (rooted_mono _ _ _ _ Hsub'). by apply Hroot.
Qed.

Lemma bfs_loop_rooted fuel :
  ∀ st st', bfs_loop fuel vd st = Ret st' →
    bfs_inv vd root (λ _, False) st → rooted_inv root st → rooted_inv root st'.
Proof.
  induction fuel as [|fuel IH]; intros st st' Hl Hinv Hroot; simpl in Hl.
  - destruct (bfs_iter vd st); [done|]. by injection Hl as <-.
  - destruct (bfs_iter vd st) as [st1|] eqn:Hit; [|by injection Hl as <-].
    destruct (queue st) as [|[[p cg] prev] q] eqn:Hq.
    { apply (bfs_iter_None vd) in Hq. by rewrite Hq in Hit. }
    destruct (bfs_iter_inv vd root st p cg prev q Hinv Hq) as (st1' & Hit' & Hinv1 & _).
    rewrite Hit in Hit'. injection Hit' as <-.
    apply (IH st1 st'); [done|done|]. by apply (bfs_iter_rooted st).
Qed.

Lemma bfs_start_rooted : rooted_inv root (bfs_start vd root).
Proof.
  intros c. unfold grade_of, bfs_start. simpl.
  destruct (decide (c = root)) as [->|Hne]; [intros _; constructor|].
  by rewrite arr_get_put_ne.
Qed.

(** Everything that is known of the labeller's result for a root within
    the grid. *)
Lemma labelling_full :
  in_shape (shape vd) root = true →
  ∃ st sd,
    bfs_inv vd root (λ _, False) st ∧ queue st = [] ∧
    label_vessel_grades vd root = Ret (grades st, sd) ∧
    tagged sd ≡ₚ recorded (point_list_with_prior st) ∧
    rooted_inv root st ∧ seg_dic_ok sd.
Proof.
  intros Hroot.
  destruct (bfs_loop_inv vd root (S (box_size (shape vd))) (bfs_start vd root))
    as (st & Hloop & Hinv & Hq);
    [apply bfs_start_measure|by apply bfs_start_inv|].
  destruct (label_vessel_grades_ok vd root Hroot) as (st' & sd & _ & _ & Hl & Hperm).
  assert (label_vessel_grades vd root
          = (seg_dic ← _get_all_segments (point_list_with_prior st);
             Ret (grades st, seg_dic))) as Hl2.
  { unfold label_vessel_grades, arr_set.
    change (shape (np_zeros (shape vd))) with (shape vd).
    rewrite (np_locate_in_shape _ _ Hroot). cbn [mbind res_bind].
    fold (bfs_start vd root). by rewrite Hloop. }
  destruct (get_all_segments_from_ok (point_list_with_prior st) [])
    as (sd2 & Hsd2 & Hperm2); [apply Hinv|].
  unfold _get_all_segments in Hl2. rewrite Hsd2 in Hl2. cbn [mbind res_bind] in Hl2.
  exists st, sd2. split_and!; try done.
  - apply (bfs_loop_rooted _ _ _ Hloop); [by apply bfs_start_inv|].
    apply bfs_start_rooted.
  - by apply (labelling_shape vd root (grades st) sd2).
Qed.
End rooted.

(** ** Every segment becomes a node *)

Lemma all_points_concat t : all_points t = concat (map line (nodes t)).
Proof.
  induction t as [t IH] using tree_ind'.
  rewrite all_points_unfold, nodes_unfold. simpl. f_equal.
  induction IH as [|c l Hc _ IHl]; simpl; [done|].
  by rewrite map_app, concat_app, Hc, IHl.
Qed.

Lemma chain_next seg pp :
  chain seg → pp ∈ seg →
  (∃ tl, last seg = Some tl ∧ tl.2 = pp.2) ∨ (∃ pp', pp' ∈ seg ∧ pp'.1 = pp.2).
Proof.
  induction seg as [|x seg IH]; intros Hc Hin; [by apply elem_of_nil in Hin|].
  destruct seg as [|y seg].
  - apply list_elem_of_singleton in Hin as ->. left. by exists x.
  - destruct Hc as [Hxy Hc]. apply elem_of_cons in Hin as [->|Hin].
    + right. exists y. split; [|done]. apply list_elem_of_further, list_elem_of_here.
    + destruct (IH Hc Hin) as [(tl & Hl & Ht)|(pp' & Hp & Ht)].
      * left. exists tl. by rewrite last_cons_cons.
      * right. exists pp'. split; [by apply list_elem_of_further|done].
Qed.

Lemma elem_of_segment_points sd c :
  c ∈ segment_points sd ↔ ∃ x, x ∈ seg_items sd ∧ c ∈ x.2.*1.
Proof.
  unfold segment_points. rewrite list_elem_of_bind. split.
  - intros ([[i j] seg] & Hc & Hx). by exists (i, j, seg).
  - intros ([[i j] seg] & Hx & Hc). by exists (i, j, seg).
Qed.

Lemma seg_items_keys_NoDup sd :
  NoDup (dict_keys sd) → Forall (λ kv, NoDup (dict_keys kv.2)) sd →
  NoDup (seg_items sd).*1.
Proof.
  unfold seg_items, dict_keys.
  induction sd as [|[i sk] sd IH]; intros Hnd Hall; [constructor|].
  rewrite fmap_cons in Hnd. apply NoDup_cons in Hnd as [Hi Hnd].
  apply Forall_cons in Hall as [Hsk Hall]. simpl in Hsk, Hi.
  rewrite bind_cons, fmap_app. apply NoDup_app. split_and!.
  - clear -Hsk. induction sk as [|[j seg] sk IH]; [constructor|].
    rewrite bind_cons, fmap_app. simpl. rewrite fmap_cons in Hsk.
    apply NoDup_cons in Hsk as [Hj Hsk]. constructor; [|by apply IH].
    intros Hin. apply Hj. apply list_elem_of_fmap in Hin as ([[i' j'] s'] & Heq & Hin).
    apply list_elem_of_bind in Hin as ([j'' s''] & Hin & Hs).
    apply list_elem_of_singleton in Hin. simplify_eq/=.
    apply list_elem_of_fmap. by eexists (_, _).
  - intros [i' j'] H1 H2. apply Hi.
    apply list_elem_of_fmap in H1 as ([[i1 j1] s1] & Heq1 & H1).
    apply list_elem_of_bind in H1 as ([j1' s1'] & H1 & _).
    apply list_elem_of_singleton in H1.
    apply list_elem_of_fmap in H2 as ([[i2 j2] s2] & Heq2 & H2).
    apply list_elem_of_bind in H2 as ([i3 sk3] & H2 & H3).
    apply list_elem_of_bind in H2 as ([j3 s3] & H2 & _).
    apply list_elem_of_singleton in H2. simplify_eq/=.
    apply list_elem_of_fmap. by eexists (_, _).
  - by apply IH.
Qed.

Lemma seg_dic_ok_keys sd : seg_dic_ok sd → NoDup (seg_items sd).*1.
Proof.
  intros [Hk Hall]. apply seg_items_keys_NoDup.
  - rewrite Hk. apply NoDup_seq.
  - eapply Forall_impl; [exact Hall|]. intros [i sk] (_ & [Hk' _]). simpl in *.
    rewrite Hk'. apply NoDup_seq.
Qed.

Lemma seg_dic_ok_items sd x :
  seg_dic_ok sd → x ∈ seg_items sd → x.2 ≠ [] ∧ chain x.2.
Proof.
  intros [_ Hall] Hx. destruct x as [[i j] seg].
  apply elem_of_seg_items in Hx as (sk & Hsk & Hj).
  rewrite Forall_forall in Hall. destruct (Hall _ Hsk) as (_ & _ & Hsegs).
  rewrite Forall_forall in Hsegs. apply (Hsegs _ Hj).
Qed.

Section attached.
Variable vd : ndarray Z.
Variable root : coord.
Variable st : bfs_state.
Variable sd : dict (dict (list ppair)).
Hypothesis Hinv : bfs_inv vd root (λ _, False) st.
Hypothesis Hrooted : rooted_inv root st.
Hypothesis Hperm : tagged sd ≡ₚ recorded (point_list_with_prior st).
Hypothesis Hok : seg_dic_ok sd.

Lemma segment_points_NoDup : NoDup (root :: segment_points sd).
Proof.
  assert (segment_points sd ≡ₚ rec_points st) as Hpts.
  { rewrite segment_points_tagged. unfold rec_points. by rewrite Hperm. }
  rewrite Hpts. apply Hinv.
Qed.

Lemma items_share_point x1 x2 c :
  x1 ∈ seg_items sd → x2 ∈ seg_items sd → c ∈ x1.2.*1 → c ∈ x2.2.*1 → x1 = x2.
Proof.
  intros H1 H2 Hc1 Hc2.
  apply list_elem_of_lookup_1 in H1 as [a Ha].
  apply list_elem_of_lookup_1 in H2 as [b Hb].
  destruct (decide (a = b)) as [->|Hab]; [congruence|]. exfalso.
  pose proof segment_points_NoDup as Hnd.
  apply NoDup_cons in Hnd as [_ Hnd]. unfold segment_points in Hnd.
  destruct x1 as [[i1 j1] s1], x2 as [[i2 j2] s2].
  eapply (NoDup_bind_disjoint _ _ a b _ _ c Hnd Ha Hb Hab); simpl; done.
Qed.

Lemma item_segments_NoDup : NoDup (seg_items sd).*2.
Proof.
  apply NoDup_fmap_2_strong.
  - intros x y Hx Hy Heq. destruct (seg_dic_ok_items sd x Hok Hx) as [Hne _].
    destruct x.2 as [|pp s] eqn:Hs; [done|].
    apply (items_share_point x y pp.1); try done.
    + rewrite Hs. rewrite fmap_cons. apply list_elem_of_here.
    + rewrite <- Heq. rewrite fmap_cons. apply list_elem_of_here.
  - eapply NoDup_fmap_1. apply (seg_dic_ok_keys sd Hok).
Qed.

Lemma item_pair_rooted x pp :
  x ∈ seg_items sd → pp ∈ x.2 →
  rooted (recorded (point_list_with_prior st)).*2 root pp.1 ∧
  pp ∈ (recorded (point_list_with_prior st)).*2.
Proof.
  intros Hx Hpp. destruct x as [[i j] seg], pp as [n p]. simpl in *.
  assert ((i, (n, p)) ∈ recorded (point_list_with_prior st)) as Hrec.
  { rewrite <- Hperm. apply elem_of_tagged. eauto. }
  split.
  - apply Hrooted. destruct (inv_rec _ _ _ _ Hinv i n p Hrec) as (Hg & Hp1 & Hp2 & _).
    lia.
  - apply list_elem_of_fmap. by exists (i, (n, p)).
Qed.

Lemma recorded_pair_item n p :
  (n, p) ∈ (recorded (point_list_with_prior st)).*2 →
  ∃ x, x ∈ seg_items sd ∧ (n, p) ∈ x.2.
Proof.
  intros Hin. apply list_elem_of_fmap in Hin as ([gen pp] & -> & Hin).
  rewrite <- Hperm in Hin. apply elem_of_tagged in Hin as (j & seg & Hx & Hpp).
  by exists (gen, j, seg).
Qed.

Variable news : list tree.
Variable fd' : list (list nat).
Hypothesis Hlines :
  map line (flat_map nodes news) ++ (open_items fd' (seg_items sd)).*2
  ≡ₚ (seg_items sd).*2.
Hypothesis Hsat : ∀ y, y ∈ open_items fd' (seg_items sd) →
  tail_off y.2 (flat_map nodes news).
Hypothesis Hself : ∀ y tl, y ∈ open_items fd' (seg_items sd) →
  last y.2 = Some tl → root ≠ tl.2.

Lemma node_line_item m :
  m ∈ flat_map nodes news → ∃ x, x ∈ seg_items sd ∧ x.2 = line m.
Proof.
  intros Hm. assert (line m ∈ (seg_items sd).*2) as Hin.
  { rewrite <- Hlines. apply elem_of_app. left.
    apply list_elem_of_fmap. by exists m. }
  apply list_elem_of_fmap in Hin as (x & Hx & Hin). eauto.
Qed.

Lemma not_attached_and_open seg :
  seg ∈ map line (flat_map nodes news) →
  seg ∈ (open_items fd' (seg_items sd)).*2 → False.
Proof.
  intros H1 H2. pose proof item_segments_NoDup as Hnd.
  rewrite <- Hlines in Hnd. apply NoDup_app in Hnd as (_ & Hdis & _).
  by apply (Hdis seg).
Qed.

Lemma open_item y : y ∈ open_items fd' (seg_items sd) → y ∈ seg_items sd.
Proof. unfold open_items. rewrite list_elem_of_filter. tauto. Qed.

Lemma rooted_in_tree c :
  rooted (recorded (point_list_with_prior st)).*2 root c →
  c = root ∨ ∃ m, m ∈ flat_map nodes news ∧ c ∈ (line m).*1.
Proof.
  induction 1 as [|n p Hin Hp IH]; [by left|]. right.
  destruct (recorded_pair_item n p Hin) as (x & Hx & Hnp).
  assert (x.2 ∈ (seg_items sd).*2) as Hseg.
  { apply list_elem_of_fmap. by exists x. }
  rewrite <- Hlines in Hseg. apply elem_of_app in Hseg as [Hatt|Hopen].
  { apply list_elem_of_fmap in Hatt as (m & Hm & Hmn). exists m. split; [done|].
    rewrite <- Hm. apply list_elem_of_fmap. by exists (n, p). }
  exfalso.
  apply list_elem_of_fmap in Hopen as (y & Hy & Hyo).
  assert (y = x) as ->.
  { destruct (seg_dic_ok_items sd x Hok Hx) as [Hne _].
    assert (∃ pp, pp ∈ x.2) as [pp Hpp].
    { destruct x.2; [done|]. eexists. apply list_elem_of_here. }
    apply (items_share_point y x pp.1); [by apply open_item|done| |].
    - rewrite <- Hy. apply list_elem_of_fmap. by exists pp.
    - apply list_elem_of_fmap. by exists pp. }
  destruct (seg_dic_ok_items sd x Hok Hx) as [_ Hchain].
  destruct (chain_next x.2 (n, p) Hchain Hnp) as [(tl & Hl & Ht)|(pp' & Hpp' & Ht)];
    simpl in Ht.
  - destruct IH as [->|(m & Hm & Hpm)].
    + by apply (Hself x tl Hyo Hl).
    + apply list_elem_of_fmap in Hpm as (pt & -> & Hpt).
      by apply (Hsat x Hyo tl m pt Hl Hm Hpt).
  - assert (p ∈ x.2.*1) as Hpx.
    { rewrite <- Ht. apply list_elem_of_fmap. by exists pp'. }
    destruct IH as [->|(m & Hm & Hpm)].
    + pose proof segment_points_NoDup as Hnd. apply NoDup_cons in Hnd as [Hr _].
      apply Hr. apply elem_of_segment_points. eauto.
    + destruct (node_line_item m Hm) as (x' & Hx' & Hl').
      assert (x' = x) as ->.
      { apply (items_share_point x' x p); try done. by rewrite Hl'. }
      apply (not_attached_and_open x.2).
      * rewrite Hl'. apply list_elem_of_fmap. by exists m.
      * apply list_elem_of_fmap. by exists x.
Qed.

Lemma all_segments_attached : open_items fd' (seg_items sd) = [].
Proof.
  apply elem_of_nil_inv. intros y Hy.
  pose proof (open_item y Hy) as Hy'.
  destruct (seg_dic_ok_items sd y Hok Hy') as [Hne _].
  assert (∃ pp, pp ∈ y.2) as [pp Hpp].
  { destruct y.2; [done|]. eexists. apply list_elem_of_here. }
  destruct (item_pair_rooted y pp Hy' Hpp) as [Hr _].
  destruct (rooted_in_tree _ Hr) as [Heq|(m & Hm & Hpm)].
  - pose proof segment_points_NoDup as Hnd. apply NoDup_cons in Hnd as [Hroot _].
    apply Hroot. apply elem_of_segment_points. exists y. split; [done|].
    rewrite <- Heq. apply list_elem_of_fmap. by exists pp.
  - destruct (node_line_item m Hm) as (x' & Hx' & Hl').
    assert (x' = y) as ->.
    { apply (items_share_point x' y pp.1); try done.
      - by rewrite Hl'.
      - apply list_elem_of_fmap. by exists pp. }
    apply (not_attached_and_open y.2).
    + rewrite Hl'. apply list_elem_of_fmap. by exists m.
    + apply list_elem_of_fmap. by exists y.
Qed.
End attached.

(** ** The raw tree holds every labelled voxel once *)

Lemma concat_fst_bind (ls : list (list ppair)) : (concat ls).*1 = ls ≫= fmap fst.
Proof.
  induction ls as [|l ls IH]; [done|]. cbn [concat].
  by rewrite fmap_app, bind_cons, IH.
Qed.

Lemma segment_points_bind sd : segment_points sd = (seg_items sd).*2 ≫= fmap fst.
Proof.
  unfold segment_points. induction (seg_items sd) as [|[[i j] seg] items IH]; [done|].
  rewrite fmap_cons, !bind_cons, IH. done.
Qed.

Lemma open_items_all fd items :
  Forall (λ x, fd_get fd x.1.1 x.1.2 = Some 0) items → open_items fd items = items.
Proof.
  unfold open_items. induction 1 as [|x l Hx _ IH]; [done|].
  by rewrite filter_cons_True, IH.
Qed.

Lemma raw_build_complete vd root z l0 lyr g sd max_length :
  in_shape (shape vd) root = true →
  label_vessel_grades vd root = Ret (g, sd) →
  py_max_list ((λ kv, length kv.2) <$> sd) = Ret max_length →
  ∃ t fd',
    build_tree_structure
      (S (fd_zeros (replicate (length (dict_keys sd) + 3)
                              (replicate (max_length + 3) 0))))
      (Node [(root, z)] [] [] [] [] l0) lyr sd
      (replicate (length (dict_keys sd) + 3) (replicate (max_length + 3) 0))
    = Ret (t, fd') ∧
    line t = [(root, z)] ∧
    map line (descendants t) ≡ₚ (seg_items sd).*2 ∧
    open_items fd' (seg_items sd) = [] ∧
    (all_points t).*1 ≡ₚ root :: segment_points sd.
Proof.
  intros Hroot Hl Hmax.
  destruct (labelling_full vd root Hroot) as (st & sd' & Hinv & _ & Hl' & Hperm & Hrt & Hok).
  rewrite Hl' in Hl. injection Hl as <- <-.
  set (fd0 := replicate _ _).
  destruct (build_tree_structure_post sd' (S (fd_zeros fd0)) (seg_dic_ok_keys _ Hok)
              (Node [(root, z)] [] [] [] [] l0) lyr fd0)
    as (t & fd' & Hb & Hline & _ & _ & _ & Hstep & Hself); [lia|].
  exists t, fd'. split; [done|]. simpl in Hline, Hself.
  destruct Hstep as (news & ks & Hs & _ & _ & _ & _ & Hlines & Hsat & _ & _).
  simpl in Hs, Hlines, Hsat.
  assert (open_items fd0 (seg_items sd') = seg_items sd') as Hall.
  { apply open_items_all. apply Forall_forall. intros [[i j] seg] Hx. simpl.
    by destruct (find_dad_covers vd root (grades st) sd' max_length i j seg Hl' Hmax Hx)
      as (_ & _ & ?). }
  rewrite Hall in Hlines.
  assert (open_items fd' (seg_items sd') = []) as Hnone.
  { apply (all_segments_attached vd root st sd' Hinv Hrt Hperm Hok news fd' Hlines Hsat).
    intros y tl Hy Hlast Heq.
    apply (Hself y tl (root, z) Hy Hlast); [apply list_elem_of_here|done]. }
  rewrite Hnone in Hlines. simpl in Hlines. rewrite app_nil_r in Hlines.
  unfold descendants. rewrite Hs. split_and!; try done.
  rewrite all_points_concat, concat_fst_bind, nodes_unfold. cbn [map].
  rewrite bind_cons, Hline, Hs. cbn [fmap list_fmap app]. constructor.
  rewrite segment_points_bind. by rewrite Hlines.
Qed.

(** ** Canonicalisation keeps every point *)

Lemma siblings0_points t a idx :
  ∀ brs brs', siblings0 t a brs idx = Ret brs' →
    branch_points brs' ≡ₚ branch_points brs ++ except_points t a idx.
Proof.
  unfold branch_points, except_points.
  induction idx as [|i idx IH]; intros brs brs' Hs.
  - injection Hs as <-. by rewrite app_nil_r.
  - cbn [siblings0] in Hs. rewrite bind_cons.
    destruct (decide (i ≠ a)) as [Hia|Hia].
    + apply bind_Ret in Hs as (b & Hb & Hs). apply bind_Ret in Hs as (sl & _ & Hs).
      apply bind_Ret in Hs as (di & _ & Hs). apply bind_Ret in Hs as (dm & _ & Hs).
      apply IH in Hs. rewrite Hs, bind_app, bind_cons. cbn [branch].
      rewrite decide_False by done. apply py_index_Ret in Hb.
      rewrite (list_lookup_total_correct _ _ _ Hb).
      rewrite app_nil_r, <- (assoc_L (++)). done.
    + apply IH in Hs. rewrite Hs.
      assert (i = a) as -> by (destruct (decide (i = a)); [done|exfalso; by apply Hia]).
      by rewrite decide_True.
Qed.

Lemma all_points_snoc ln subs dp sl dpi ly b dp' sl' dpi' ly' :
  all_points (Node ln (subs ++ [b]) dp' sl' dpi' ly')
  = all_points (Node ln subs dp sl dpi ly) ++ all_points b.
Proof.
  rewrite !all_points_unfold. cbn [line subtree].
  rewrite flat_map_app'. cbn [flat_map]. rewrite app_nil_r.
  by rewrite <- (all_points_unfold b), (assoc_L (++)).
Qed.

Lemma siblings1_points t a idx :
  ∀ nt brs nt' brs', siblings1 t a nt brs idx = Ret (nt', brs') →
    all_points nt' ++ branch_points brs'
    ≡ₚ all_points nt ++ branch_points brs ++ except_points t a idx.
Proof.
  unfold branch_points, except_points.
  induction idx as [|i idx IH]; intros nt brs nt' brs' Hs.
  - injection Hs as <- <-. by rewrite app_nil_r.
  - cbn [siblings1] in Hs. rewrite bind_cons.
    apply bind_Ret in Hs as (di & Hdi & Hs). apply bind_Ret in Hs as (dm & Hdm & Hs).
    apply py_index_Ret in Hdi, Hdm.
    destruct (di <? dm) eqn:Hlt.
    + apply Nat.ltb_lt in Hlt.
      apply bind_Ret in Hs as (b & Hb & Hs). apply bind_Ret in Hs as (sli & _ & Hs).
      apply IH in Hs. rewrite Hs.
      assert (i ≠ a) as Hia by (intros ->; rewrite Hdi in Hdm; injection Hdm; lia).
      rewrite decide_False by done. apply py_index_Ret in Hb.
      rewrite (list_lookup_total_correct _ _ _ Hb).
      destruct nt as [ln subs dp sl dpi ly]. cbn [line subtree deep subLength
        dividePointIndex layer]. rewrite (all_points_snoc ln subs dp sl dpi ly).
      rewrite <- !(assoc_L (++)). apply Permutation_app_head.
      rewrite !(assoc_L (++)). apply Permutation_app_tail. apply Permutation_app_comm.
    + destruct ((dm <=? di) && bool_decide (i ≠ a)) eqn:Hc.
      * apply andb_true_iff in Hc as [_ Hia]. apply bool_decide_eq_true in Hia.
        apply bind_Ret in Hs as (b & Hb & Hs). apply bind_Ret in Hs as (sl & _ & Hs).
        apply IH in Hs. rewrite Hs, bind_app, bind_cons. cbn [branch].
        rewrite decide_False by done. apply py_index_Ret in Hb.
        rewrite (list_lookup_total_correct _ _ _ Hb).
        rewrite app_nil_r, <- !(assoc_L (++)). done.
      * apply IH in Hs. rewrite Hs.
        apply Nat.ltb_ge in Hlt. apply andb_false_iff in Hc as [Hc|Hc].
        -- apply Nat.leb_gt in Hc. lia.
        -- apply bool_decide_eq_false in Hc.
           assert (i = a) as ->
             by (destruct (decide (i = a)); [done|exfalso; by apply Hc]).
           by rewrite decide_True.
Qed.

Lemma bind_nil' {A B} (f : A → list B) : [] ≫= f = [].
Proof. done. Qed.

Lemma bind_except {B} (h : nat → list B) a n :
  a < n →
  (seq 0 n ≫= (λ j, if decide (j = a) then [] else h j)) ++ h a ≡ₚ seq 0 n ≫= h.
Proof.
  induction n as [|n IH]; [lia|]. intros Ha.
  rewrite seq_S. simpl. rewrite !bind_app, !bind_cons, !bind_nil', !app_nil_r.
  destruct (decide (n = a)) as [->|Hne].
  - assert (∀ m, m ≤ a →
              seq 0 m ≫= (λ j, if decide (j = a) then [] else h j) = seq 0 m ≫= h)
      as Hsame.
    { clear. induction m as [|m IHm]; [done|]. intros Hm.
      rewrite seq_S. simpl. rewrite !bind_app, !bind_cons, !bind_nil', !app_nil_r.
      rewrite IHm by lia. by rewrite decide_False by lia. }
    rewrite Hsame by lia. by rewrite app_nil_r.
  - specialize (IH ltac:(lia)). rewrite <- IH.
    rewrite <- !(assoc_L (++)). apply Permutation_app_head. apply Permutation_app_comm.
Qed.

Lemma bind_lookup_seq {A B} `{Inhabited A} (f : A → list B) (l : list A) :
  seq 0 (length l) ≫= (λ j, f (l !!! j)) = flat_map f l.
Proof.
  rewrite <- (map_lookup_seq l) at 2.
  induction (seq 0 (length l)) as [|j idx IH]; [done|].
  rewrite bind_cons. simpl. by rewrite IH.
Qed.

Lemma except_points_all t a c :
  subtree t !! a = Some c →
  except_points t a (seq 0 (length (subtree t))) ++ all_points c
  ≡ₚ flat_map all_points (subtree t).
Proof.
  intros Hc. unfold except_points.
  rewrite <- (bind_lookup_seq all_points (subtree t)).
  rewrite <- (bind_except (λ j, all_points (subtree t !!! j)) a)
    by (by eapply lookup_lt_Some).
  cbv beta. by rewrite (list_lookup_total_correct _ _ _ Hc).
Qed.

(** The new line and the collected branches hold the points of the tree. *)
Lemma branches_points t :
  ann_wf t → ∀ l brs,
    find_longest_line t = Ret l → find_small_branches t = Ret brs →
    l ++ branch_points brs ≡ₚ all_points t.
Proof.
  induction t as [t IH] using tree_ind'. intros Hwf l brs Hl Hb.
  apply all_nodes_unfold in Hwf as [Hok Hsubs].
  rewrite find_longest_line_eq in Hl. rewrite find_small_branches_eq in Hb.
  rewrite all_points_unfold.
  destruct (decide (length (subtree t) = 0)) as [Hz|Hne].
  { injection Hb as <-. rewrite Hz in Hl. rewrite andb_false_r in Hl.
    injection Hl as <-. apply length_zero_iff_nil in Hz. rewrite Hz. done. }
  assert (subtree t ≠ []) as Hne' by (by destruct (subtree t)).
  destruct (dominant_child t Hok Hne') as (a & c & d & Ha & Hc & Hv & Hd & Hdl & Hpl).
  apply list_elem_of_lookup_2 in Hc as Hin.
  destruct Hok as ((Hln & Hlen & Hdpi) & Hsl).
  assert ((0 <? length (line t)) && (0 <? length (subtree t)) = true) as Hcond.
  { apply andb_true_iff. split; apply Nat.ltb_lt; [destruct (line t); simpl; [done|lia]|lia]. }
  rewrite Hcond, Ha in Hl. cbn [mbind res_bind] in Hl.
  rewrite on_index_lookup, Hc in Hl.
  apply bind_Ret in Hl as (lc & Hlc & Hl).
  apply py_index_Ret in Hd as Hd'. rewrite Hd' in Hl. cbn [mbind res_bind] in Hl.
  injection Hl as <-.
  rewrite Ha in Hb. cbn [mbind res_bind] in Hb. rewrite Hd' in Hb.
  cbn [mbind res_bind] in Hb. rewrite on_index_lookup, Hc in Hb.
  rewrite Forall_forall in IH, Hsubs.
  assert (∀ rest, find_small_branches c = Ret rest →
                  lc ++ branch_points rest ≡ₚ all_points c) as Hrest.
  { intros rest Hr. by apply (IH c Hin (Hsubs c Hin)). }
  pose proof (except_points_all t a c Hc) as Hexc. rewrite <- Hlen in Hexc.
  destruct (decide (d = 0)) as [Hz|Hnz].
  - apply bind_Ret in Hb as (sib & Hsib & Hb). apply bind_Ret in Hb as (rest & Hr & Hb).
    injection Hb as <-. apply siblings0_points in Hsib.
    unfold branch_points in *. rewrite bind_nil' in Hsib.
    rewrite bind_app, Hsib. subst d. rewrite drop_0.
    rewrite <- Hexc, <- (Hrest rest Hr). cbn [app]. solve_Permutation.
  - apply bind_Ret in Hb as ([nt sib] & Hsib & Hb).
    apply bind_Ret in Hb as (sl & _ & Hb). apply bind_Ret in Hb as (rest & Hr & Hb).
    injection Hb as <-. apply siblings1_points in Hsib.
    rewrite (all_points_unfold (Node _ _ _ _ _ _)) in Hsib.
    cbn [line subtree flat_map] in Hsib.
    unfold branch_points in *. rewrite bind_nil', app_nil_r in Hsib.
    cbn [app] in Hsib.
    rewrite !bind_app, bind_cons, bind_nil', app_nil_r. cbn [branch].
    rewrite <- Hexc, <- (Hrest rest Hr).
    rewrite <- (take_drop d (line t)) at 2.
    transitivity ((all_points nt ++ sib ≫= (λ br, all_points (branch br)))
                  ++ lc ++ drop d (line t)
                  ++ rest ≫= (λ br, all_points (branch br))); [solve_Permutation|].
    rewrite Hsib. solve_Permutation.
Qed.

Lemma flat_map_perm {A B C} (f : A → list C) (g : B → list C) l l' :
  Forall2 (λ x y, f x ≡ₚ g y) l l' → flat_map f l ≡ₚ flat_map g l'.
Proof.
  induction 1 as [|x y l l' Hxy _ IH]; simpl; [done|]. by rewrite Hxy, IH.
Qed.

Lemma create_points fuel :
  ∀ t c, ann_wf t → create_new_tree_from_old fuel t = Ret c →
         all_points c ≡ₚ all_points t.
Proof.
  induction fuel as [|fuel IH]; intros t c Hwf Hc; [done|].
  apply create_new_tree_from_old_Ret in Hc
    as (new_line & brs & cs & Hl & Hb & (fuel' & [= <-] & Hcs) & ->).
  destruct (find_small_branches_ok t Hwf) as (brs' & Hb' & Hok).
  rewrite Hb in Hb'. injection Hb' as <-.
  rewrite all_points_unfold. cbn [line subtree].
  rewrite <- (branches_points t Hwf new_line brs Hl Hb).
  apply Permutation_app_head. unfold branch_points.
  assert (∀ (bs : list branch_entry),
    bs ≫= (λ br, all_points (branch br))
    = flat_map (λ br, all_points (branch br)) bs) as ->.
  { induction bs as [|b bs IHb]; [done|]. rewrite bind_cons. simpl. by rewrite IHb. }
  symmetry.
  apply (flat_map_perm (λ br, all_points (branch br)) all_points brs cs).
  clear Hb Hl. induction Hcs as [|br sub brs cs Hsub _ IHcs]; [constructor|].
  apply Forall_cons in Hok as [(Hbw & _ & _) Hok].
  constructor; [|by apply IHcs]. symmetry. by apply (IH (branch br)).
Qed.

Lemma all_points_annotated t : all_points (annotated t) = all_points t.
Proof.
  induction t as [t IH] using tree_ind'.
  rewrite (all_points_unfold (annotated t)), (all_points_unfold t), annotated_unfold.
  cbn [line subtree]. f_equal.
  induction IH as [|c l Hc _ IHl]; simpl; [done|]. by rewrite Hc, IHl.
Qed.

Lemma empty_depth_info_unfold t :
  empty_depth_info t
  = Node (line t) (map empty_depth_info (subtree t)) (deep t) []
         (dividePointIndex t) (layer t).
Proof. by destruct t. Qed.

Lemma all_points_empty_depth_info t : all_points (empty_depth_info t) = all_points t.
Proof.
  induction t as [t IH] using tree_ind'.
  rewrite (all_points_unfold (empty_depth_info t)), (all_points_unfold t),
    empty_depth_info_unfold.
  cbn [line subtree]. f_equal.
  induction IH as [|c l Hc _ IHl]; simpl; [done|]. by rewrite Hc, IHl.
Qed.

Lemma assign_depth_points t t' r :
  assign_depth t = Ret (t', r) → all_points t' = all_points t.
Proof.
  intros Hret. destruct (assign_depth_cases t) as [[_ H]|[_ H]];
    rewrite H in Hret; [|done].
  injection Hret as <- _. apply all_points_annotated.
Qed.

Lemma canonical_points_ok t0 t r :
  raw_wf t0 → assign_depth t0 = Ret (t, r) →
  ∃ c, create_new_tree_from_old (tree_size t) t = Ret c ∧
       all_nodes canon_node_ok c ∧ all_points c ≡ₚ all_points t0.
Proof.
  intros Hraw Ha.
  destruct (canonical_ok t0 t r Hraw Ha) as (c & Hc & Hok & _).
  exists c. split_and!; try done.
  destruct (assign_depth_ok t0 Hraw) as (t' & d & Ha' & Hann & _).
  rewrite Ha in Ha'. injection Ha' as <- _.
  rewrite <- (assign_depth_points t0 t r Ha). by apply (create_points (tree_size t)).
Qed.

Lemma recanonicalize_points_ok c :
  all_nodes canon_node_ok c →
  ∃ c', recanonicalize c = Ret c' ∧ all_nodes canon_node_ok c' ∧
        all_points c' ≡ₚ all_points c.
Proof.
  intros Hok. pose proof (empty_depth_info_raw c Hok) as Hraw.
  destruct (assign_depth_ok _ Hraw) as (t2 & d & Ha & _).
  destruct (canonical_points_ok _ _ _ Hraw Ha) as (c' & Hc' & Hok' & Hp).
  exists c'. unfold recanonicalize. rewrite Ha. cbn [mbind res_bind].
  split_and!; try done. by rewrite Hp, all_points_empty_depth_info.
Qed.

(** X14.  Canonicalisation neither loses nor duplicates a point: the lines
    of the canonical tree hold exactly the [(point, parent)] pairs of the
    lines of the raw tree it was made from, each as often as there. *)
Theorem canonical_points t0 t r :
  raw_wf t0 → assign_depth t0 = Ret (t, r) →
  ∃ c, create_new_tree_from_old (tree_size t) t = Ret c ∧
       all_points c ≡ₚ all_points t0.
Proof.
  intros Hraw Ha. destruct (canonical_points_ok t0 t r Hraw Ha) as (c & ? & _ & ?).
  eauto.
Qed.

Lemma canonical_points_witness :
  ∃ c, create_new_tree_from_old (tree_size y_annotated) y_annotated = Ret c ∧
       all_points c ≡ₚ all_points y_raw.
Proof.
  apply (canonical_points y_raw y_annotated (3, 10)).
  - apply y_raw_wf.
  - apply y_annotated_eq.
Defined.

(** ** From the skeleton to the tree *)

Lemma labelled_points vd root g sd :
  in_shape (shape vd) root = true →
  label_vessel_grades vd root = Ret (g, sd) →
  NoDup (root :: segment_points sd) ∧
  ∀ c, c ∈ root :: segment_points sd ↔ rtc (mask_edge vd) root c.
Proof.
  intros Hroot Hl.
  destruct (labelling_full vd root Hroot)
    as (st & sd' & Hinv & Hq & Hl' & Hperm & Hrt & Hok).
  rewrite Hl' in Hl. injection Hl as _ <-.
  split; [by apply (segment_points_NoDup vd root st sd')|].
  assert (segment_points sd' ≡ₚ rec_points st) as Hpts.
  { rewrite segment_points_tagged. unfold rec_points. by rewrite Hperm. }
  intros c. rewrite Hpts, elem_of_cons.
  rewrite <- (inv_lab _ _ _ _ Hinv c).
  by rewrite (bfs_final_reach vd root st Hinv Hq c).
Qed.

Lemma rtc_iff {A} (R R' : relation A) x y :
  (∀ a b, R a b ↔ R' a b) → rtc R x y ↔ rtc R' x y.
Proof.
  intros HR. split; induction 1 as [|a b c Hab _ IH]; try apply rtc_refl;
    (eapply rtc_l; [apply HR, Hab|done]).
Qed.

Lemma raw_tree_from_region_Ret data_shape center sk t :
  raw_tree_from_region data_shape center sk = Ret t →
  ∃ i root m g sd max_length fd',
    np_argmin (sq_dist center <$> sk) = Ret i ∧ sk !! i = Some root ∧
    set_all (np_zeros data_shape) sk = Ret m ∧
    label_vessel_grades m root = Ret (g, sd) ∧
    py_max_list ((λ kv, length kv.2) <$> sd) = Ret max_length ∧
    build_tree_structure
      (S (fd_zeros (replicate (length (dict_keys sd) + 3)
                              (replicate (max_length + 3) 0))))
      (Node [(root, (0, 0, 0)%Z)] [] [] [] [] 0) 0 sd
      (replicate (length (dict_keys sd) + 3) (replicate (max_length + 3) 0))
    = Ret (t, fd').
Proof.
  unfold raw_tree_from_region. intros H.
  apply bind_Ret in H as (i & Hi & H). apply bind_Ret in H as (root & Hr & H).
  apply bind_Ret in H as (m & Hm & H). apply bind_Ret in H as ([g sd] & Hl & H).
  apply bind_Ret in H as (ml & Hml & H). apply bind_Ret in H as ([t' fd'] & Hb & H).
  injection H as <-. apply py_index_Ret in Hr.
  exists i, root, m, g, sd, ml, fd'. done.
Qed.

Lemma raw_tree_component data_shape center sk t :
  Forall (λ v, in_shape data_shape v = true) sk →
  raw_tree_from_region data_shape center sk = Ret t →
  ∃ i root,
    np_argmin (sq_dist center <$> sk) = Ret i ∧ sk !! i = Some root ∧
    NoDup (all_points t).*1 ∧
    ∀ v, v ∈ (all_points t).*1 ↔ connected sk root v.
Proof.
  intros Hall Hraw.
  apply raw_tree_from_region_Ret in Hraw
    as (i & root & m & g & sd & ml & fd' & Hi & Hr & Hm & Hl & Hml & Hb).
  exists i, root. split_and!; try done.
  all: destruct (set_all_spec sk (np_zeros data_shape) Hall) as (m' & Hm' & Hs & Hset).
  all: rewrite Hm in Hm'; injection Hm' as <-; simpl in Hs.
  all: assert (in_shape (shape m) root = true) as Hroot
    by (rewrite Hs; rewrite Forall_forall in Hall; apply Hall;
        by eapply list_elem_of_lookup_2).
  all: destruct (raw_build_complete m root (0, 0, 0)%Z 0 0 g sd ml Hroot Hl Hml)
    as (t' & fd'' & Hb' & _ & _ & _ & Hpts).
  all: rewrite Hb in Hb'; injection Hb' as <- <-.
  all: destruct (labelled_points m root g sd Hroot Hl) as [Hnd Hreach].
  - by rewrite Hpts.
  - intros v. rewrite Hpts, Hreach. unfold connected. apply rtc_iff.
    intros a b. unfold mask_edge, is_set. rewrite Hs, Hset.
    rewrite Forall_forall in Hall. split.
    + intros [Hadj [_ [Hb0|Hz]]]; [done|by vm_compute in Hz].
    + intros [Hadj Hb0]. split_and!; [done|by apply Hall|by left].
Qed.



Lemma tree_holds_component_aux data_shape center sk c :
  Forall (λ v, in_shape data_shape v = true) sk →
  get_tree_from_region data_shape center sk = Ret c →
  all_nodes canon_node_ok c ∧
  ∃ i root,
    np_argmin (sq_dist center <$> sk) = Ret i ∧ sk !! i = Some root ∧
    NoDup (all_points c).*1 ∧
    ∀ v, v ∈ (all_points c).*1 ↔ connected sk root v.
Proof.
  intros Hall Hc. unfold get_tree_from_region in Hc.
  apply bind_Ret in Hc as (t0 & Hraw & Hc).
  apply bind_Ret in Hc as ([t r] & Ha & Hc).
  destruct (raw_tree_component data_shape center sk t0 Hall Hraw)
    as (i & root & Hi & Hr & Hnd & Hreach).
  pose proof (raw_tree_from_region_wf _ _ _ _ Hraw) as Hwf.
  destruct (canonical_points_ok t0 t r Hwf Ha) as (c' & Hc' & Hok & Hp).
  rewrite Hc in Hc'. injection Hc' as <-.
  split; [done|]. exists i, root. split_and!; try done.
  - by rewrite Hp.
  - intros v. by rewrite Hp.
Qed.

(** X16.  The tree that [get_tree_from_region] returns for a skeleton
    within the grid holds exactly the skeleton voxels that are connected to
    the root, the coordinate nearest to the centre, under 26-connectivity,
    and holds each of them once: no connected voxel is lost on the way
    through labelling, segment reconstruction, tree building, annotation and
    canonicalisation, and none is duplicated. *)
Theorem tree_holds_component data_shape center sk c :
  Forall (λ v, in_shape data_shape v = true) sk →
  get_tree_from_region data_shape center sk = Ret c →
  ∃ i root,
    np_argmin (sq_dist center <$> sk) = Ret i ∧ sk !! i = Some root ∧
    NoDup (all_points c).*1 ∧
    ∀ v, v ∈ (all_points c).*1 ↔ connected sk root v.
Proof.
  intros Hall Hc. by destruct (tree_holds_component_aux _ _ _ _ Hall Hc).
Qed.

Lemma tree_holds_component_witness :
  ∃ i root,
    np_argmin (sq_dist (5, 5, 0)%Z <$> y_skeleton) = Ret i ∧
    y_skeleton !! i = Some root ∧
    NoDup (all_points y_canonical).*1 ∧
    ∀ v, v ∈ (all_points y_canonical).*1 ↔ connected y_skeleton root v.
Proof.
  apply (tree_holds_component (12, 12, 12)%Z (5, 5, 0)%Z y_skeleton y_canonical).
  - vm_compute. repeat constructor.
  - vm_compute. reflexivity.
Defined.

(** X17.  The second canonicalisation in [get_all_lines_and_tree] moves
    points between lines but neither drops nor adds one: the main tree
    holds exactly the voxels of the skeleton connected to the root, each
    once. *)
Theorem main_tree_holds_component data_shape center sk c :
  Forall (λ v, in_shape data_shape v = true) sk →
  get_all_lines_and_tree data_shape center sk = Ret c →
  ∃ i root,
    np_argmin (sq_dist center <$> sk) = Ret i ∧ sk !! i = Some root ∧
    NoDup (all_points c).*1 ∧
    ∀ v, v ∈ (all_points c).*1 ↔ connected sk root v.
Proof.
  intros Hall Hc. unfold get_all_lines_and_tree in Hc.
  apply bind_Ret in Hc as (c1 & Hc1 & Hc).
  destruct (tree_holds_component_aux data_shape center sk c1 Hall Hc1)
    as (Hok & i & root & Hi & Hr & Hnd & Hreach).
  destruct (recanonicalize_points_ok c1 Hok) as (c' & Hc' & _ & Hp).
  rewrite Hc in Hc'. injection Hc' as <-.
  exists i, root. split_and!; try done.
  - by rewrite Hp.
  - intros v. by rewrite Hp.
Qed.

Lemma main_tree_holds_component_witness :
  ∃ i root,
    np_argmin (sq_dist (5, 5, 0)%Z <$> y_skeleton) = Ret i ∧
    y_skeleton !! i = Some root ∧
    NoDup (all_points (ret_or inhabitant (recanonicalize y_canonical))).*1 ∧
    ∀ v, v ∈ (all_points (ret_or inhabitant (recanonicalize y_canonical))).*1
         ↔ connected y_skeleton root v.
Proof.
  apply (main_tree_holds_component (12, 12, 12)%Z (5, 5, 0)%Z y_skeleton).
  - vm_compute. repeat constructor.
  - vm_compute. reflexivity.
Defined.

(** ** [mean_insert] *)

Section mean_insert_props.
Context {point : Type}.
Variable midpoint : point → point → point.
Variable nudge : point → point.

Lemma mean_loop_spec (points : list point) :
  ∀ rest pre acc,
    points = pre ++ rest →
    ∃ r, foldl (mean_step point midpoint points) (Ret acc)
               (imap (λ i, pair (length pre + i)) rest) = Ret r ∧
         length r = length acc + 2 * (length rest - 1) ∧
         (∀ k, k < length acc → r !! k = acc !! k) ∧
         (∀ i p, rest !! i = Some p → i + 1 < length rest →
                 r !! (length acc + 2 * i) = Some p) ∧
         (∀ i p q, rest !! i = Some p → rest !! (i + 1) = Some q →
                   r !! (length acc + 2 * i + 1) = Some (midpoint p q)).
Proof.
  induction rest as [|p rest IH]; intros pre acc Hpts.
  - exists acc. simpl. split_and!; try done; lia.
  - cbn [imap foldl]. unfold mean_step at 2. cbn [mbind res_bind fst snd]. cbv beta.
    cbn [fst snd].
    assert (length points = length pre + S (length rest)) as Hlen.
    { rewrite Hpts, length_app. done. }
    destruct rest as [|q rest].
    + simpl in Hlen. destruct (decide (length pre + 0 + 1 < length points)) as [Hlt|_];
        [lia|]. simpl.
      exists acc. split_and!; try done; try (simpl; lia).
      intros i p' q' Hi Hq. destruct i; simpl in *; done.
    + simpl in Hlen.
      destruct (decide (length pre + 0 + 1 < length points)) as [_|Hge]; [|lia].
      assert (points !! (length pre + 0 + 1) = Some q) as Hq.
      { rewrite Hpts, lookup_app_r by lia.
        replace (length pre + 0 + 1 - length pre) with 1 by lia. done. }
      unfold py_index. rewrite Hq. cbn [mbind res_bind].
      destruct (IH (pre ++ [p]) (acc ++ [p; midpoint p q])) as (r & Hr & Hl & Hacc & Hev & Hodd).
      { by rewrite <- (assoc_L (++)). }
      exists r. split.
      { rewrite <- Hr. f_equal. apply imap_ext. intros i x _. simpl.
        rewrite length_app. simpl. f_equal. lia. }
      rewrite length_app in Hl, Hacc, Hev, Hodd. simpl in Hl, Hacc, Hev, Hodd.
      split_and!.
      * simpl. lia.
      * intros k Hk. rewrite Hacc by lia. by rewrite lookup_app_l.
      * intros [|i] p' Hi Hlt; simpl in Hi.
        -- injection Hi as <-. rewrite Hacc by lia.
           rewrite lookup_app_r by lia.
           by replace (length acc + 2 * 0 - length acc) with 0 by lia.
        -- replace (length acc + 2 * S i) with (length acc + 2 + 2 * i) by lia.
           apply Hev; [done|simpl in *; lia].
      * intros [|i] p' q' Hi Hq'; simpl in Hi, Hq'.
        -- injection Hi as <-. injection Hq' as <-. rewrite Hacc by lia.
           rewrite lookup_app_r by lia.
           by replace (length acc + 2 * 0 + 1 - length acc) with 1 by lia.
        -- replace (length acc + 2 * S i + 1) with (length acc + 2 + 2 * i + 1) by lia.
           by apply Hodd.
Qed.
End mean_insert_props.

(** X18.  [mean_insert] raises [IndexError] on an empty list of points.
    On [n >= 1] points it returns [2 n] points: the given points at the
    even positions, in order, between two neighbours their midpoint, and
    after the last point that point moved by 0.001.  The parameter
    [num_insert] has no effect. *)
Theorem mean_insert_shape {point : Type} (midpoint : point → point → point)
    (nudge : point → point) (points : list point) (num_insert : nat) :
  (points = [] ∧
   mean_insert point midpoint nudge points num_insert = Raise IndexError)
  ∨ (∃ r z,
       last points = Some z ∧
       mean_insert point midpoint nudge points num_insert = Ret r ∧
       length r = 2 * length points ∧
       (∀ i p, points !! i = Some p → r !! (2 * i) = Some p) ∧
       (∀ i p q, points !! i = Some p → points !! (i + 1) = Some q →
                 r !! (2 * i + 1) = Some (midpoint p q)) ∧
       r !! (2 * length points - 1) = Some (nudge z)).
Proof.
  destruct (last points) as [z|] eqn:Hlast.
  - right.
    destruct (mean_loop_spec midpoint points points [] []) as (r0 & Hr0 & Hl & _ & Hev & Hodd);
      [done|].
    simpl in Hl, Hev, Hodd.
    assert (length points ≠ 0) as Hne by (by destruct points).
    exists (r0 ++ [z; nudge z]), z. split; [done|].
    assert (points !! (length points - 1) = Some z) as Hz.
    { rewrite <- Hlast. rewrite last_lookup. f_equal. lia. }
    split_and!.
    + unfold mean_insert, py_last.
      change (imap pair points) with (imap (λ i, pair (length (@nil point) + i)) points).
      rewrite Hr0, Hlast. done.
    + rewrite length_app. simpl. lia.
    + intros i p Hi. apply lookup_lt_Some in Hi as Hlt.
      destruct (decide (i + 1 < length points)) as [Hin|Hend].
      * rewrite lookup_app_l by lia. by apply Hev.
      * assert (i = length points - 1) as -> by lia.
        rewrite Hz in Hi. injection Hi as <-.
        rewrite lookup_app_r by lia.
        by replace (2 * (length points - 1) - length r0) with 0 by lia.
    + intros i p q Hi Hq. apply lookup_lt_Some in Hq as Hlt.
      rewrite lookup_app_l by lia. by apply Hodd.
    + rewrite lookup_app_r by lia.
      by replace (2 * length points - 1 - length r0) with 1 by lia.
  - left. assert (points = []) as ->.
    { destruct points as [|p l] using rev_ind; [done|]. by rewrite last_snoc in Hlast. }
    done.
Qed.

(** ** Canonical trees are trees of voxel paths *)

Lemma chain_alt l :
  chain l ↔ ∀ k x y, l !! k = Some x → l !! S k = Some y → x.2 = y.1.
Proof.
  induction l as [|a l IH]; [done|]. destruct l as [|b l].
  - split; [|done]. intros _ [|k] x y Hx Hy; done.
  - cbn [chain]. rewrite IH. split.
    + intros [Hab Hl] [|k] x y Hx Hy; simpl in *.
      * by injection Hx as <-; injection Hy as <-.
      * by apply (Hl k).
    + intros H. split; [by apply (H 0)|]. intros k x y Hx Hy. by apply (H (S k)).
Qed.

Lemma chain_app l1 l2 :
  chain l1 → chain l2 →
  (∀ x y, last l1 = Some x → head l2 = Some y → x.2 = y.1) →
  chain (l1 ++ l2).
Proof.
  rewrite !chain_alt. intros H1 H2 Hj k x y Hx Hy.
  destruct (decide (S k < length l1)) as [Hlt|Hge].
  - rewrite lookup_app_l in Hx, Hy by lia. by apply (H1 k).
  - destruct (decide (k < length l1)) as [Hk|Hk].
    + rewrite lookup_app_l in Hx by lia. rewrite lookup_app_r in Hy by lia.
      apply Hj.
      * rewrite last_lookup, <- Hx. f_equal. lia.
      * rewrite head_lookup, <- Hy. f_equal. lia.
    + rewrite lookup_app_r in Hx, Hy by lia. apply (H2 (k - length l1)); [done|].
      rewrite <- Hy. f_equal. lia.
Qed.

Lemma chain_drop d l : chain l → chain (drop d l).
Proof.
  rewrite !chain_alt. intros H k x y. rewrite !lookup_drop. intros Hx Hy.
  apply (H (d + k)); [done|]. rewrite <- Hy. f_equal. lia.
Qed.

Lemma chain_take d l : chain l → chain (take d l).
Proof.
  rewrite !chain_alt. intros H k x y Hx Hy.
  apply lookup_take_Some in Hx as [Hx _]. apply lookup_take_Some in Hy as [Hy _].
  by apply (H k).
Qed.

Lemma path_tree_unfold t :
  path_tree t ↔ path_node_ok t ∧ Forall path_tree (subtree t).
Proof. apply all_nodes_unfold. Qed.

(** The new line ends where the line of the tree ends. *)
Lemma find_longest_line_last t l :
  ann_wf t → find_longest_line t = Ret l → last l = last (line t).
Proof.
  intros Hwf Hl. apply all_nodes_unfold in Hwf as [Hok Hsubs].
  rewrite find_longest_line_eq in Hl.
  destruct (decide (subtree t = [])) as [He|Hne].
  { rewrite He in Hl. rewrite andb_false_r in Hl. by injection Hl as <-. }
  destruct (dominant_child t Hok Hne) as (a & c & d & Ha & Hc & Hv & Hd & Hdl & Hpl).
  destruct Hok as ((Hln & Hlen & Hdpi) & Hsl).
  assert ((0 <? length (line t)) && (0 <? length (subtree t)) = true) as Hcond.
  { apply andb_true_iff. split; apply Nat.ltb_lt; [lia|].
    destruct (subtree t); simpl; [done|lia]. }
  rewrite Hcond, Ha in Hl. cbn [mbind res_bind] in Hl.
  rewrite on_index_lookup, Hc in Hl.
  apply bind_Ret in Hl as (lc & Hlc & Hl).
  apply py_index_Ret in Hd as Hd'. rewrite Hd' in Hl. cbn [mbind res_bind] in Hl.
  injection Hl as <-.
  rewrite !last_lookup, length_app, length_drop, lookup_app_r by lia.
  rewrite lookup_drop. f_equal. lia.
Qed.

(** The new line is a voxel path. *)
Lemma find_longest_line_chain t :
  ann_wf t → path_tree t → ∀ l, find_longest_line t = Ret l → chain l.
Proof.
  induction t as [t IH] using tree_ind'. intros Hwf Hpt l Hl.
  pose proof Hwf as Hwf'.
  apply all_nodes_unfold in Hwf as [Hok Hsubs].
  apply path_tree_unfold in Hpt as [[Hch Hatt] Hpsubs].
  rewrite find_longest_line_eq in Hl.
  destruct (decide (subtree t = [])) as [He|Hne].
  { rewrite He in Hl. rewrite andb_false_r in Hl. by injection Hl as <-. }
  destruct (dominant_child t Hok Hne) as (a & c & d & Ha & Hc & Hv & Hd & Hdl & Hpl).
  apply list_elem_of_lookup_2 in Hc as Hin.
  destruct Hok as ((Hln & Hlen & Hdpi) & Hsl).
  assert ((0 <? length (line t)) && (0 <? length (subtree t)) = true) as Hcond.
  { apply andb_true_iff. split; apply Nat.ltb_lt; [lia|].
    destruct (subtree t); simpl; [done|lia]. }
  rewrite Hcond, Ha in Hl. cbn [mbind res_bind] in Hl.
  rewrite on_index_lookup, Hc in Hl.
  apply bind_Ret in Hl as (lc & Hlc & Hl).
  apply py_index_Ret in Hd as Hd'. rewrite Hd' in Hl. cbn [mbind res_bind] in Hl.
  injection Hl as <-.
  rewrite Forall_forall in IH, Hsubs, Hpsubs.
  apply chain_app.
  - by apply (IH c Hin (Hsubs c Hin) (Hpsubs c Hin)).
  - by apply chain_drop.
  - intros x y Hx Hy.
    rewrite (find_longest_line_last c lc (Hsubs c Hin) Hlc) in Hx.
    destruct (Forall2_lookup_lr _ _ _ a c d Hatt Hc Hd) as (tl & pt & Htl & Hpt & Heq).
    rewrite Hx in Htl. injection Htl as <-.
    rewrite head_lookup, lookup_drop in Hy.
    replace (d + 0) with d in Hy by lia. rewrite Hpt in Hy. by injection Hy as <-.
Qed.

Section siblings_hang.
Variable t : tree.
Variable a dm sl : nat.
Variable l : list ppair.
Hypothesis Hatt : attach_ok t.
Hypothesis Hps : Forall path_tree (subtree t).
Hypothesis Hdm : dividePointIndex t !! a = Some dm.
Hypothesis Hsl : subLength t !! a = Some sl.
Hypothesis Hl : ∀ k pt, dm ≤ k → line t !! k = Some pt → l !! (sl + k - dm) = Some pt.

Lemma sibling_hangs i b di :
  subtree t !! i = Some b → dividePointIndex t !! i = Some di → dm ≤ di →
  branch_hangs l (BranchEntry b (sl + di - dm)).
Proof.
  intros Hb Hdi Hle. split; simpl.
  - destruct (Forall2_lookup_lr _ _ _ i b di Hatt Hb Hdi) as (tl & pt & Htl & Hpt & Heq).
    exists tl, pt. split_and!; try done. by apply Hl.
  - rewrite Forall_forall in Hps. apply Hps. by eapply list_elem_of_lookup_2.
Qed.

Lemma siblings0_hang idx :
  dm = 0 →
  ∀ brs brs', siblings0 t a brs idx = Ret brs' →
    Forall (branch_hangs l) brs → Forall (branch_hangs l) brs'.
Proof.
  intros Hz. induction idx as [|i idx IH]; intros brs brs' Hs Hbrs.
  - by injection Hs as <-.
  - cbn [siblings0] in Hs. destruct (decide (i ≠ a)) as [Hia|Hia]; [|by eapply IH].
    apply bind_Ret in Hs as (b & Hb & Hs). apply bind_Ret in Hs as (sl' & Hsl' & Hs).
    apply bind_Ret in Hs as (di & Hdi & Hs). apply bind_Ret in Hs as (dm' & Hdm' & Hs).
    apply py_index_Ret in Hb, Hsl', Hdi, Hdm'.
    rewrite Hsl in Hsl'. injection Hsl' as <-. rewrite Hdm in Hdm'. injection Hdm' as <-.
    apply (IH _ _ Hs). apply Forall_app. split; [done|]. apply Forall_singleton.
    apply (sibling_hangs i); [done|done|lia].
Qed.

Lemma siblings1_hang idx :
  ∀ nt brs nt' brs', siblings1 t a nt brs idx = Ret (nt', brs') →
    line nt = take dm (line t) → attach_ok nt → Forall path_tree (subtree nt) →
    Forall (branch_hangs l) brs →
    line nt' = take dm (line t) ∧ attach_ok nt' ∧ Forall path_tree (subtree nt') ∧
    Forall (branch_hangs l) brs'.
Proof.
  induction idx as [|i idx IH]; intros nt brs nt' brs' Hs Hln Hnatt Hnps Hbrs.
  - by injection Hs as <- <-.
  - cbn [siblings1] in Hs.
    apply bind_Ret in Hs as (di & Hdi & Hs). apply bind_Ret in Hs as (dm' & Hdm' & Hs).
    apply py_index_Ret in Hdi, Hdm'. rewrite Hdm in Hdm'. injection Hdm' as <-.
    destruct (di <? dm) eqn:Hlt.
    + apply Nat.ltb_lt in Hlt.
      apply bind_Ret in Hs as (b & Hb & Hs). apply bind_Ret in Hs as (sli & _ & Hs).
      apply py_index_Ret in Hb.
      apply (IH _ _ _ _ Hs); simpl; try done.
      * unfold attach_ok. simpl. apply Forall2_app; [done|].
        constructor; [|constructor].
        destruct (Forall2_lookup_lr _ _ _ i b di Hatt Hb Hdi)
          as (tl & pt & Htl & Hpt & Heq).
        exists tl, pt. split_and!; try done. rewrite Hln.
        by rewrite lookup_take_lt.
      * apply Forall_app. split; [done|]. apply Forall_singleton.
        rewrite Forall_forall in Hps. apply Hps. by eapply list_elem_of_lookup_2.
    + apply Nat.ltb_ge in Hlt.
      destruct ((dm <=? di) && bool_decide (i ≠ a)) eqn:Hc; [|by eapply IH].
      apply bind_Ret in Hs as (b & Hb & Hs). apply bind_Ret in Hs as (sl' & Hsl' & Hs).
      apply py_index_Ret in Hb, Hsl'. rewrite Hsl in Hsl'. injection Hsl' as <-.
      apply (IH _ _ _ _ Hs); try done.
      apply Forall_app. split; [done|]. apply Forall_singleton.
      by apply (sibling_hangs i).
Qed.
End siblings_hang.

Lemma branch_hangs_app l l' br : branch_hangs l br → branch_hangs (l ++ l') br.
Proof.
  intros [(tl & pt & Htl & Hpt & Heq) Hp]. split; [|done].
  exists tl, pt. split_and!; try done. by apply lookup_app_l_Some.
Qed.

(** Every collected branch hangs at its index of the new line. *)
Lemma branches_hang t :
  ann_wf t → path_tree t → ∀ l brs,
    find_longest_line t = Ret l → find_small_branches t = Ret brs →
    Forall (branch_hangs l) brs.
Proof.
  induction t as [t IH] using tree_ind'. intros Hwf Hpt l brs Hl Hb.
  apply all_nodes_unfold in Hwf as [Hok Hsubs].
  apply path_tree_unfold in Hpt as [[Hch Hatt] Hpsubs].
  rewrite find_longest_line_eq in Hl. rewrite find_small_branches_eq in Hb.
  destruct (decide (length (subtree t) = 0)) as [Hz|Hne].
  { injection Hb as <-. constructor. }
  assert (subtree t ≠ []) as Hne' by (by destruct (subtree t)).
  destruct (dominant_child t Hok Hne') as (a & c & d & Ha & Hc & Hv & Hd & Hdl & Hpl).
  apply list_elem_of_lookup_2 in Hc as Hin.
  destruct Hok as ((Hln & Hlen & Hdpi) & Hsl).
  assert ((0 <? length (line t)) && (0 <? length (subtree t)) = true) as Hcond.
  { apply andb_true_iff. split; apply Nat.ltb_lt; lia. }
  rewrite Hcond, Ha in Hl. cbn [mbind res_bind] in Hl.
  rewrite on_index_lookup, Hc in Hl.
  apply bind_Ret in Hl as (lc & Hlc & Hl).
  apply py_index_Ret in Hd as Hd'. rewrite Hd' in Hl. cbn [mbind res_bind] in Hl.
  injection Hl as <-.
  rewrite Ha in Hb. cbn [mbind res_bind] in Hb. rewrite Hd' in Hb.
  cbn [mbind res_bind] in Hb. rewrite on_index_lookup, Hc in Hb.
  rewrite Forall_forall in IH, Hsubs.
  assert (path_tree c) as Hpc by (rewrite Forall_forall in Hpsubs; by apply Hpsubs).
  assert (∀ rest, find_small_branches c = Ret rest →
                  Forall (branch_hangs (lc ++ drop d (line t))) rest) as Hrest.
  { intros rest Hr. eapply Forall_impl; [by apply (IH c Hin (Hsubs c Hin) Hpc lc)|].
    intros br. apply branch_hangs_app. }
  assert (length lc = path_len c) as Hlclen.
  { destruct (find_longest_line_ok c (Hsubs c Hin)) as (lc' & Hlc' & Hlen').
    rewrite Hlc in Hlc'. by injection Hlc' as <-. }
  assert (∀ k pt, d ≤ k → line t !! k = Some pt →
                  (lc ++ drop d (line t)) !! (path_len c + k - d) = Some pt) as Hlook.
  { intros k pt Hk Hpt. rewrite lookup_app_r by lia. rewrite lookup_drop.
    rewrite <- Hpt. f_equal. lia. }
  destruct (decide (d = 0)) as [Hz|Hnz].
  - apply bind_Ret in Hb as (sib & Hsib & Hb). apply bind_Ret in Hb as (rest & Hr & Hb).
    injection Hb as <-. apply Forall_app. split; [|by apply Hrest].
    by apply (siblings0_hang t a d (path_len c) _ Hatt Hpsubs Hd Hv Hlook _ Hz _ _ Hsib).
  - apply bind_Ret in Hb as ([nt sib] & Hsib & Hb).
    apply bind_Ret in Hb as (sl & Hsl' & Hb). apply bind_Ret in Hb as (rest & Hr & Hb).
    injection Hb as <-. apply py_index_Ret in Hsl'. rewrite Hv in Hsl'.
    injection Hsl' as <-.
    destruct (siblings1_hang t a d (path_len c) _ Hatt Hpsubs Hd Hv Hlook _ _ _ _ _ Hsib)
      as (Hntl & Hntatt & Hntps & Hsibs); try done; [constructor|].
    apply Forall_app. split; [|by apply Hrest].
    apply Forall_app. split; [done|]. apply Forall_singleton.
    assert (∃ tl, line t !! (d - 1) = Some tl) as [tl Htl].
    { apply lookup_lt_is_Some. lia. }
    assert (∃ pt, line t !! d = Some pt) as [pt Hpt].
    { apply lookup_lt_is_Some. lia. }
    split; simpl.
    + exists tl, pt. split_and!.
      * rewrite Hntl, last_lookup, length_take.
        rewrite lookup_take_lt by lia. rewrite <- Htl. f_equal. lia.
      * replace (path_len c) with (path_len c + d - d) by lia. by apply Hlook.
      * apply (proj1 (chain_alt (line t)) Hch (d - 1)); [done|].
        rewrite <- Hpt. f_equal. lia.
    + apply path_tree_unfold. split; [|done]. split; [|done].
      rewrite Hntl. by apply chain_take.
Qed.

Lemma create_path_tree fuel :
  ∀ t c, ann_wf t → path_tree t → create_new_tree_from_old fuel t = Ret c →
         path_tree c ∧ last (line c) = last (line t).
Proof.
  induction fuel as [|fuel IH]; intros t c Hwf Hpt Hc; [done|].
  apply create_new_tree_from_old_Ret in Hc
    as (new_line & brs & cs & Hl & Hb & (fuel' & [= <-] & Hcs) & ->).
  destruct (find_small_branches_ok t Hwf) as (brs' & Hb' & Hok).
  rewrite Hb in Hb'. injection Hb' as <-.
  pose proof (branches_hang t Hwf Hpt new_line brs Hl Hb) as Hhang.
  split; [|by apply find_longest_line_last].
  assert (Forall2 (λ br sub, path_tree sub ∧
                             last (line sub) = last (line (branch br))) brs cs) as Hsubs.
  { clear Hb Hl. revert Hok Hhang.
    induction Hcs as [|br sub brs cs Hsub _ IHcs]; intros Hok Hhang; [constructor|].
    apply Forall_cons in Hok as [(Hbw & _ & _) Hok].
    apply Forall_cons in Hhang as [[_ Hbp] Hhang].
    constructor; [by apply (IH (branch br))|by apply IHcs]. }
  apply path_tree_unfold. cbn [line subtree dividePointIndex]. split; [split|].
  - by apply (find_longest_line_chain t).
  - unfold attach_ok. cbn [line subtree dividePointIndex].
    clear Hok Hcs Hb Hl. revert Hhang.
    induction Hsubs as [|br sub brs cs [_ Hlast] _ IHs]; intros Hhang;
      [constructor|].
    apply Forall_cons in Hhang as [[(tl & pt & Htl & Hpt' & Heq) _] Hhang].
    simpl. constructor; [|by apply IHs].
    exists tl, pt. by rewrite Hlast.
  - eapply Forall2_right; [exact Hsubs|]. by intros br sub [? _].
Qed.

Lemma path_tree_annotated t : path_tree t → path_tree (annotated t).
Proof.
  induction t as [t IH] using tree_ind'. intros Hpt.
  apply path_tree_unfold in Hpt as [[Hch Hatt] Hsubs].
  apply path_tree_unfold. rewrite annotated_unfold.
  cbn [line subtree dividePointIndex]. split; [split; [done|]|].
  - unfold attach_ok in *. cbn [line subtree dividePointIndex].
    apply Forall2_fmap_l. eapply Forall2_impl; [exact Hatt|].
    intros c k (tl & pt & Htl & Hpt & Heq). exists tl, pt.
    split_and!; try done. by rewrite annotated_unfold.
  - apply Forall_fmap. rewrite Forall_forall in IH, Hsubs. apply Forall_forall.
    intros c Hc. by apply IH; [|apply Hsubs].
Qed.

Lemma path_tree_empty_depth_info t : path_tree t → path_tree (empty_depth_info t).
Proof.
  induction t as [t IH] using tree_ind'. intros Hpt.
  apply path_tree_unfold in Hpt as [[Hch Hatt] Hsubs].
  apply path_tree_unfold. rewrite empty_depth_info_unfold.
  cbn [line subtree dividePointIndex]. split; [split; [done|]|].
  - unfold attach_ok in *. cbn [line subtree dividePointIndex].
    apply Forall2_fmap_l. eapply Forall2_impl; [exact Hatt|].
    intros c k (tl & pt & Htl & Hpt & Heq). exists tl, pt.
    split_and!; try done. by rewrite empty_depth_info_unfold.
  - apply Forall_fmap. rewrite Forall_forall in IH, Hsubs. apply Forall_forall.
    intros c Hc. by apply IH; [|apply Hsubs].
Qed.

Lemma canonical_path_ok t0 t r :
  raw_wf t0 → path_tree t0 → assign_depth t0 = Ret (t, r) →
  ∃ c, create_new_tree_from_old (tree_size t) t = Ret c ∧
       all_nodes canon_node_ok c ∧ path_tree c ∧ last (line c) = last (line t0).
Proof.
  intros Hraw Hpt Ha.
  destruct (canonical_ok t0 t r Hraw Ha) as (c & Hc & Hok & _).
  exists c. split_and!; try done.
  all: destruct (assign_depth_ok t0 Hraw) as (t' & d & Ha' & Hann & Hline & _).
  all: rewrite Ha in Ha'; injection Ha' as <- _.
  all: assert (path_tree t) as Hpt'.
  1, 3: destruct (assign_depth_cases t0) as [[_ H]|[_ H]]; rewrite H in Ha; [|done];
        injection Ha as <- _; by apply path_tree_annotated.
  - by apply (create_path_tree (tree_size t) t c).
  - rewrite <- Hline. by apply (create_path_tree (tree_size t) t c).
Qed.

(** X19.  Canonicalisation turns a tree of voxel paths into a tree of voxel
    paths: in the canonical tree every line is a chain, the parent of each
    pair being the point of the next pair, and every child hangs where its
    own path continues, the parent of the last pair of its line being the
    point of its parent's line at its divide index.  The new line of the
    root ends where the line of the root ended. *)
Theorem canonical_is_path_tree t0 t r :
  raw_wf t0 → path_tree t0 → assign_depth t0 = Ret (t, r) →
  ∃ c, create_new_tree_from_old (tree_size t) t = Ret c ∧
       path_tree c ∧ last (line c) = last (line t0).
Proof.
  intros Hraw Hpt Ha.
  destruct (canonical_path_ok t0 t r Hraw Hpt Ha) as (c & ? & _ & ? & ?). eauto.
Qed.

Lemma all_nodes_nodes (P : tree → Prop) t :
  all_nodes P t ↔ ∀ n, n ∈ nodes t → P n.
Proof.
  induction t as [t IH] using tree_ind'.
  rewrite all_nodes_unfold. split.
  - intros [Ht Hsubs] n Hn. rewrite nodes_unfold in Hn.
    apply elem_of_cons in Hn as [->|Hn]; [done|].
    apply elem_of_flat_map in Hn as (c & Hc & Hn).
    rewrite Forall_forall in IH, Hsubs. by apply (proj1 (IH c Hc) (Hsubs c Hc) n).
  - intros H. split.
    + apply H. rewrite nodes_unfold. apply list_elem_of_here.
    + rewrite Forall_forall in IH. apply Forall_forall. intros c Hc.
      apply (proj2 (IH c Hc)). intros n Hn. apply H. by apply (nodes_child t c).
Qed.

Lemma raw_tree_path data_shape center sk t0 :
  Forall (λ v, in_shape data_shape v = true) sk →
  raw_tree_from_region data_shape center sk = Ret t0 →
  path_tree t0 ∧
  ∃ i root, np_argmin (sq_dist center <$> sk) = Ret i ∧ sk !! i = Some root ∧
            line t0 = [(root, (0, 0, 0)%Z)].
Proof.
  intros Hall Hraw.
  apply raw_tree_from_region_Ret in Hraw
    as (i & root & m & g & sd & ml & fd' & Hi & Hr & Hm & Hl & Hml & Hb).
  destruct (set_all_spec sk (np_zeros data_shape) Hall) as (m' & Hm' & Hs & Hset).
  rewrite Hm in Hm'. injection Hm' as <-. simpl in Hs.
  assert (in_shape (shape m) root = true) as Hroot.
  { rewrite Hs. rewrite Forall_forall in Hall. apply Hall.
    by eapply list_elem_of_lookup_2. }
  destruct (raw_build_complete m root (0, 0, 0)%Z 0 0 g sd ml Hroot Hl Hml)
    as (t' & fd'' & Hb' & Hline & Hlines & _ & _).
  rewrite Hb in Hb'. injection Hb' as <- <-.
  split; [|by exists i, root].
  set (fd0 := replicate _ _) in Hb.
  destruct (build_tree_structure_ok sd (S (fd_zeros fd0))
              (Node [(root, (0, 0, 0)%Z)] [] [] [] [] 0) 0 fd0)
    as (t' & fd'' & Hb' & Hbuilt & _); [lia| |].
  { apply all_nodes_unfold. simpl. split; [|constructor].
    split; [constructor|done]. }
  rewrite Hb in Hb'. injection Hb' as <- <-.
  apply all_nodes_nodes. intros n Hn. split.
  - rewrite nodes_unfold in Hn. apply elem_of_cons in Hn as [->|Hn].
    + by rewrite Hline.
    + assert (line n ∈ (seg_items sd).*2) as Hin.
      { rewrite <- Hlines. apply list_elem_of_fmap. by exists n. }
      apply list_elem_of_fmap in Hin as (x & -> & Hx).
      by apply (seg_dic_ok_items sd x (labelling_shape m root g sd Hl)).
  - by apply (proj1 (all_nodes_nodes built_ok t0) Hbuilt n).
Qed.

Lemma y_raw_path : path_tree y_raw.
Proof.
  apply (raw_tree_path (12, 12, 12)%Z (5, 5, 0)%Z y_skeleton y_raw).
  - vm_compute. repeat constructor.
  - apply y_raw_from_region.
Qed.

(** X20.  Both trees of the pipeline are trees of voxel paths that end at
    the root voxel: in the tree of [get_tree_from_region] and in the main
    tree of [get_all_lines_and_tree] every line is a chain, every child
    hangs where its path continues, and the last pair of the root's line is
    the root voxel, the skeleton coordinate nearest to the centre, with the
    parent [(0, 0, 0)] it was given. *)
Theorem pipeline_path_trees data_shape center sk c :
  Forall (λ v, in_shape data_shape v = true) sk →
  get_all_lines_and_tree data_shape center sk = Ret c →
  ∃ c1 i root,
    get_tree_from_region data_shape center sk = Ret c1 ∧
    np_argmin (sq_dist center <$> sk) = Ret i ∧ sk !! i = Some root ∧
    path_tree c1 ∧ last (line c1) = Some (root, (0, 0, 0)%Z) ∧
    path_tree c ∧ last (line c) = Some (root, (0, 0, 0)%Z).
Proof.
  intros Hall Hc. unfold get_all_lines_and_tree in Hc.
  apply bind_Ret in Hc as (c1 & Hc1 & Hc).
  pose proof Hc1 as Hc1'. unfold get_tree_from_region in Hc1'.
  apply bind_Ret in Hc1' as (t0 & Hraw & Hc1').
  apply bind_Ret in Hc1' as ([t r] & Ha & Hc1').
  destruct (raw_tree_path data_shape center sk t0 Hall Hraw)
    as (Hpt0 & i & root & Hi & Hr & Hline).
  pose proof (raw_tree_from_region_wf _ _ _ _ Hraw) as Hwf.
  destruct (canonical_path_ok t0 t r Hwf Hpt0 Ha) as (c1' & Hc1'' & Hok1 & Hp1 & Hl1).
  rewrite Hc1' in Hc1''. injection Hc1'' as <-.
  rewrite Hline in Hl1. simpl in Hl1.
  unfold recanonicalize in Hc.
  apply bind_Ret in Hc as ([t2 r2] & Ha2 & Hc).
  pose proof (empty_depth_info_raw c1 Hok1) as Hraw2.
  destruct (canonical_path_ok _ t2 r2 Hraw2 (path_tree_empty_depth_info c1 Hp1) Ha2)
    as (c' & Hc' & _ & Hp2 & Hl2).
  rewrite Hc in Hc'. injection Hc' as <-.
  rewrite empty_depth_info_unfold in Hl2. cbn [line] in Hl2. rewrite Hl1 in Hl2.
  exists c1, i, root. done.
Qed.

Lemma pipeline_path_trees_witness :
  ∃ c1 i root,
    get_tree_from_region (12, 12, 12)%Z (5, 5, 0)%Z y_skeleton = Ret c1 ∧
    np_argmin (sq_dist (5, 5, 0)%Z <$> y_skeleton) = Ret i ∧
    y_skeleton !! i = Some root ∧
    path_tree c1 ∧ last (line c1) = Some (root, (0, 0, 0)%Z) ∧
    path_tree (ret_or inhabitant (recanonicalize y_canonical)) ∧
    last (line (ret_or inhabitant (recanonicalize y_canonical)))
    = Some (root, (0, 0, 0)%Z).
Proof.
  apply (pipeline_path_trees (12, 12, 12)%Z (5, 5, 0)%Z y_skeleton).
  - vm_compute. repeat constructor.
  - vm_compute. reflexivity.
Defined.

Lemma canonical_is_path_tree_witness :
  ∃ c, create_new_tree_from_old (tree_size y_annotated) y_annotated = Ret c ∧
       path_tree c ∧ last (line c) = last (line y_raw).
Proof.
  apply (canonical_is_path_tree y_raw y_annotated (3, 10)).
  - apply y_raw_wf.
  - apply y_raw_path.
  - apply y_annotated_eq.
Defined.

(** ** When the pipeline returns *)



(** ** What annotation returns, what canonicalisation leaves *)

(** X22.  The length that [assign_depth] returns for a raw tree is the
    number of points of the line that [find_longest_line] then builds for
    the annotated tree, the line of the canonical root. *)
Theorem returned_length_is_line_length t0 t d len :
  raw_wf t0 → assign_depth t0 = Ret (t, (d, len)) →
  ∃ l, find_longest_line t = Ret l ∧ length l = len.
Proof.
  intros Hraw Ha.
  destruct (assign_depth_ok t0 Hraw) as (t' & d' & Ha' & _).
  rewrite Ha in Ha'. injection Ha' as <- <- ->.
  destruct (canonical_ok t0 t _ Hraw Ha) as (c & _ & _ & Hl & Hlen). eauto.
Qed.

Lemma returned_length_is_line_length_witness :
  ∃ l, find_longest_line y_annotated = Ret l ∧ length l = 10.
Proof.
  apply (returned_length_is_line_length y_raw y_annotated 3 10).
  - apply y_raw_wf.
  - apply y_annotated_eq.
Defined.

(** X23.  A canonical tree carries no depth information: whatever tree is
    canonicalised, every node of the result has layer 0 and an empty [deep]
    list, also the nodes made from the synthetic nodes of layer 999. *)
Theorem canonical_forgets_layers fuel t c :
  create_new_tree_from_old fuel t = Ret c →
  all_nodes (λ n, layer n = 0 ∧ deep n = []) c.
Proof.
  revert t c. induction fuel as [|fuel IH]; intros t c Hc; [done|].
  apply create_new_tree_from_old_Ret in Hc
    as (new_line & brs & cs & _ & _ & (fuel' & [= <-] & Hcs) & ->).
  apply all_nodes_unfold. simpl. split; [done|].
  eapply Forall2_right; [exact Hcs|]. intros br sub Hsub. by apply (IH (branch br)).
Qed.

Lemma canonical_forgets_layers_witness :
  all_nodes (λ n, layer n = 0 ∧ deep n = []) y_canonical.
Proof.
  apply (canonical_forgets_layers (tree_size y_annotated) y_annotated y_canonical).
  vm_compute. reflexivity.
Defined.

(** ** Canonicalisation never reads [deep] *)

Lemma forget_deep_unfold t :
  forget_deep t
  = Node (line t) (map forget_deep (subtree t)) [] (subLength t)
         (dividePointIndex t) (layer t).
Proof. by destruct t. Qed.

Lemma forget_deep_fields t :
  line (forget_deep t) = line t ∧
  subtree (forget_deep t) = map forget_deep (subtree t) ∧
  subLength (forget_deep t) = subLength t ∧
  dividePointIndex (forget_deep t) = dividePointIndex t.
Proof. by destruct t. Qed.

Lemma py_index_map {A B} (f : A → B) l i :
  py_index (map f l) i = res_map f (py_index l i).
Proof.
  unfold py_index, res_map. change (map f l) with (f <$> l).
  rewrite list_lookup_fmap. by destruct (l !! i).
Qed.

Lemma find_longest_line_forget t :
  find_longest_line (forget_deep t) = find_longest_line t.
Proof.
  induction t as [t IH] using tree_ind'.
  rewrite (find_longest_line_eq (forget_deep t)), (find_longest_line_eq t).
  rewrite forget_deep_unfold. cbn [line subtree subLength dividePointIndex].
  rewrite length_map.
  destruct ((0 <? length (line t)) && (0 <? length (subtree t))); [|done].
  destruct (np_argmax (subLength t)) as [a| |]; [|done|done]. cbn [mbind res_bind].
  rewrite !on_index_lookup. change (map forget_deep (subtree t)) with
    (forget_deep <$> subtree t). rewrite list_lookup_fmap.
  destruct (subtree t !! a) as [c|] eqn:Hc; [|done]. simpl.
  rewrite Forall_forall in IH. rewrite (IH c); [done|].
  by eapply list_elem_of_lookup_2.
Qed.

Lemma siblings0_forget t a idx :
  ∀ brs,
    siblings0 (forget_deep t) a (map forget_branch brs) idx
    = res_map (map forget_branch) (siblings0 t a brs idx).
Proof.
  induction idx as [|i idx IH]; intros brs; [done|].
  cbn [siblings0]. destruct (decide (i ≠ a)); [|apply IH].
  rewrite forget_deep_unfold. cbn [subtree subLength dividePointIndex].
  rewrite py_index_map. rewrite <- forget_deep_unfold.
  destruct (py_index (subtree t) i) as [b| |]; [|done|done].
  change (res_map forget_deep (Ret b)) with (Ret (forget_deep b)).
  cbn [mbind res_bind].
  destruct (py_index (subLength t) a) as [sl| |]; [|done|done]. cbn [mbind res_bind].
  destruct (py_index (dividePointIndex t) i) as [di| |]; [|done|done].
  cbn [mbind res_bind].
  destruct (py_index (dividePointIndex t) a) as [dm| |]; [|done|done].
  cbn [mbind res_bind].
  rewrite <- IH. by rewrite map_app.
Qed.

Lemma siblings1_forget t a idx :
  ∀ nt brs,
    siblings1 (forget_deep t) a (forget_deep nt) (map forget_branch brs) idx
    = res_map (λ r, (forget_deep r.1, map forget_branch r.2))
              (siblings1 t a nt brs idx).
Proof.
  induction idx as [|i idx IH]; intros nt brs; [done|].
  cbn [siblings1].
  rewrite (forget_deep_unfold t). cbn [subtree subLength dividePointIndex].
  rewrite <- (forget_deep_unfold t).
  destruct (py_index (dividePointIndex t) i) as [di| |]; [|done|done].
  cbn [mbind res_bind].
  destruct (py_index (dividePointIndex t) a) as [dm| |]; [|done|done].
  cbn [mbind res_bind].
  destruct (di <? dm).
  - rewrite py_index_map.
    destruct (py_index (subtree t) i) as [b| |]; [|done|done].
    change (res_map forget_deep (Ret b)) with (Ret (forget_deep b)).
    cbn [mbind res_bind].
    destruct (py_index (subLength t) i) as [sli| |]; [|done|done].
    cbn [mbind res_bind]. rewrite <- IH. f_equal.
    rewrite (forget_deep_unfold (Node _ _ _ _ _ _)), (forget_deep_unfold nt).
    cbn [line subtree deep subLength dividePointIndex layer].
    by rewrite map_app.
  - destruct ((dm <=? di) && bool_decide (i ≠ a)); [|apply IH].
    rewrite py_index_map.
    destruct (py_index (subtree t) i) as [b| |]; [|done|done].
    change (res_map forget_deep (Ret b)) with (Ret (forget_deep b)).
    cbn [mbind res_bind].
    destruct (py_index (subLength t) a) as [sl| |]; [|done|done].
    cbn [mbind res_bind]. rewrite <- IH. by rewrite map_app.
Qed.

Lemma find_small_branches_forget t :
  find_small_branches (forget_deep t)
  = res_map (map forget_branch) (find_small_branches t).
Proof.
  induction t as [t IH] using tree_ind'.
  rewrite (find_small_branches_eq (forget_deep t)), (find_small_branches_eq t).
  destruct (forget_deep_fields t) as (-> & -> & -> & ->). rewrite length_map.
  destruct (decide (length (subtree t) = 0)); [done|].
  destruct (np_argmax (subLength t)) as [a| |]; [|done|done]. cbn [mbind res_bind].
  destruct (py_index (dividePointIndex t) a) as [dm| |]; [|done|done].
  cbn [mbind res_bind res_map].
  assert (on_index find_small_branches (map forget_deep (subtree t)) a
          = res_map (map forget_branch)
                    (on_index find_small_branches (subtree t) a)) as Hrest.
  { rewrite !on_index_lookup. change (map forget_deep (subtree t)) with
      (forget_deep <$> subtree t). rewrite list_lookup_fmap.
    destruct (subtree t !! a) as [c|] eqn:Hc; [|done]. simpl.
    rewrite Forall_forall in IH. apply IH. by eapply list_elem_of_lookup_2. }
  destruct (decide (dm = 0)).
  - rewrite (siblings0_forget t a _ []).
    destruct (siblings0 t a [] _) as [sib| |]; [|done|done].
    cbn [res_map mbind res_bind]. rewrite Hrest.
    destruct (on_index find_small_branches (subtree t) a) as [rest| |]; [|done|done].
    cbn [res_map mbind res_bind]. by rewrite map_app.
  - change (Node (take dm (line t)) [] [] [] [] 999)
      with (forget_deep (Node (take dm (line t)) [] [] [] [] 999)) at 1.
    rewrite (siblings1_forget t a _ _ []).
    destruct (siblings1 t a _ [] _) as [[nt sib]| |]; [|done|done].
    cbn [res_map mbind res_bind fst snd].
    destruct (py_index (subLength t) a) as [sl| |]; [|done|done].
    cbn [mbind res_bind]. rewrite Hrest.
    destruct (on_index find_small_branches (subtree t) a) as [rest| |]; [|done|done].
    cbn [res_map mbind res_bind]. by rewrite !map_app.
Qed.

Lemma canon_branches_forget rec brs :
  (∀ br, br ∈ brs → rec (forget_deep (branch br)) = rec (branch br)) →
  ∀ acc, canon_branches rec acc (map forget_branch brs) = canon_branches rec acc brs.
Proof.
  induction brs as [|br brs IH]; intros Hrec acc; [done|].
  cbn [map canon_branches]. destruct acc as [[subs dpis] sls].
  cbn [forget_branch branch br_dividePointIndex].
  rewrite (Hrec br) by apply list_elem_of_here.
  destruct (rec (branch br)) as [sub| |]; [|done|done]. cbn [mbind res_bind].
  rewrite (forget_deep_unfold (branch br)). cbn [subLength].
  apply IH. intros br' Hbr'. apply Hrec. by apply list_elem_of_further.
Qed.

Lemma create_forget fuel :
  ∀ t, create_new_tree_from_old fuel (forget_deep t) = create_new_tree_from_old fuel t.
Proof.
  induction fuel as [|fuel IH]; intros t; [done|].
  cbn [create_new_tree_from_old].
  rewrite find_longest_line_forget, find_small_branches_forget.
  destruct (find_longest_line t) as [l| |]; [|done|done]. cbn [mbind res_bind].
  destruct (find_small_branches t) as [brs| |]; [|done|done].
  cbn [res_map mbind res_bind].
  rewrite canon_branches_forget; [done|]. intros br _. apply IH.
Qed.

(** ** Annotating again after a reset *)

Lemma map_ext_Forall {A B} (f g : A → B) l :
  Forall (λ x, f x = g x) l → map f l = map g l.
Proof. induction 1 as [|x l Hx _ IH]; simpl; [done|]. by rewrite Hx, IH. Qed.

Lemma returned_length_annotated t : returned_length (annotated t) = returned_length t.
Proof.
  induction t as [t IH] using tree_ind'.
  rewrite (returned_length_unfold (annotated t)), (returned_length_unfold t).
  rewrite annotated_unfold. cbn [line subtree dividePointIndex].
  rewrite map_map. by rewrite (map_ext_Forall _ returned_length _ IH).
Qed.

Lemma returned_length_empty_depth_info t :
  returned_length (empty_depth_info t) = returned_length t.
Proof.
  induction t as [t IH] using tree_ind'.
  rewrite (returned_length_unfold (empty_depth_info t)), (returned_length_unfold t).
  rewrite empty_depth_info_unfold. cbn [line subtree dividePointIndex].
  rewrite map_map. by rewrite (map_ext_Forall _ returned_length _ IH).
Qed.

Lemma calculate_tree_depth_empty_depth_info t :
  _calculate_tree_depth (empty_depth_info t) = _calculate_tree_depth t.
Proof.
  induction t as [t IH] using tree_ind'.
  rewrite (calculate_tree_depth_eq (empty_depth_info t)), (calculate_tree_depth_eq t).
  rewrite empty_depth_info_unfold. cbn [subtree].
  rewrite map_map. by rewrite (map_ext_Forall _ _calculate_tree_depth _ IH).
Qed.

Lemma indexed_annotated t : indexed t → indexed (annotated t).
Proof.
  induction t as [t IH] using tree_ind'. intros [Hl Hs]%indexed_unfold.
  apply indexed_unfold. rewrite annotated_unfold. cbn [subtree dividePointIndex].
  rewrite length_map. split; [done|]. apply Forall_fmap.
  rewrite Forall_forall in IH, Hs. apply Forall_forall. intros c Hc.
  by apply IH; [|apply Hs].
Qed.

Lemma indexed_empty_depth_info t : indexed t → indexed (empty_depth_info t).
Proof.
  induction t as [t IH] using tree_ind'. intros [Hl Hs]%indexed_unfold.
  apply indexed_unfold. rewrite empty_depth_info_unfold.
  cbn [subtree dividePointIndex].
  rewrite length_map. split; [done|]. apply Forall_fmap.
  rewrite Forall_forall in IH, Hs. apply Forall_forall. intros c Hc.
  by apply IH; [|apply Hs].
Qed.

Lemma tree_size_forget_deep t : tree_size (forget_deep t) = tree_size t.
Proof.
  induction t as [t IH] using tree_ind'.
  rewrite (tree_size_unfold (forget_deep t)), (tree_size_unfold t).
  rewrite forget_deep_unfold. cbn [subtree].
  rewrite map_map. by rewrite (map_ext_Forall _ tree_size _ IH).
Qed.

Lemma forget_reannotated t :
  all_nodes (λ n, subLength n = []) t →
  forget_deep (annotated (empty_depth_info (annotated t))) = forget_deep (annotated t).
Proof.
  induction t as [t IH] using tree_ind'. intros [Hsl Hsubs]%all_nodes_unfold.
  rewrite (forget_deep_unfold (annotated (empty_depth_info (annotated t)))),
    (forget_deep_unfold (annotated t)).
  rewrite (annotated_unfold (empty_depth_info (annotated t))).
  rewrite (empty_depth_info_unfold (annotated t)). rewrite (annotated_unfold t).
  cbn [line subtree deep subLength dividePointIndex layer].
  rewrite Hsl. cbn [app]. rewrite !map_map. f_equal.
  - apply map_ext_Forall. rewrite Forall_forall in IH, Hsubs. apply Forall_forall.
    intros c Hc. by apply IH; [|apply Hsubs].
  - apply map_ext_Forall. apply Forall_forall. intros c _.
    by rewrite returned_length_empty_depth_info, returned_length_annotated.
Qed.

(** X24.  Canonicalisation never reads [deep], and a reset makes
    annotation repeatable: after [empty_depth_info], [assign_depth] returns
    the same pair as the first time and leaves the same tree up to the
    [deep] lists, which now hold each depth twice; the canonical tree of the
    tree annotated twice is the canonical tree of the tree annotated once. *)
Theorem reannotation_is_harmless t0 t1 r1 :
  raw_wf t0 → assign_depth t0 = Ret (t1, r1) →
  ∃ t2,
    assign_depth (empty_depth_info t1) = Ret (t2, r1) ∧
    forget_deep t2 = forget_deep t1 ∧
    create_new_tree_from_old (tree_size t2) t2
    = create_new_tree_from_old (tree_size t1) t1.
Proof.
  intros Hraw Ha.
  destruct (assign_depth_cases t0) as [[Hix H]|[_ H]]; rewrite H in Ha; [|done].
  injection Ha as <- <-.
  exists (annotated (empty_depth_info (annotated t0))).
  assert (forget_deep (annotated (empty_depth_info (annotated t0)))
          = forget_deep (annotated t0)) as Hf.
  { apply forget_reannotated. eapply all_nodes_impl; [|exact Hraw].
    by intros n (_ & _ & ?). }
  split_and!.
  - rewrite assign_depth_closed
      by (by apply indexed_empty_depth_info, indexed_annotated).
    by rewrite calculate_tree_depth_empty_depth_info, calculate_tree_depth_annotated,
      returned_length_empty_depth_info, returned_length_annotated.
  - done.
  - rewrite <- (tree_size_forget_deep (annotated (empty_depth_info (annotated t0)))),
      <- (tree_size_forget_deep (annotated t0)), Hf.
    rewrite <- (create_forget _ (annotated (empty_depth_info (annotated t0)))),
      <- (create_forget _ (annotated t0)). by rewrite Hf.
Qed.

Lemma reannotation_is_harmless_witness :
  ∃ t2,
    assign_depth (empty_depth_info y_annotated) = Ret (t2, (3, 10)) ∧
    forget_deep t2 = forget_deep y_annotated ∧
    create_new_tree_from_old (tree_size t2) t2
    = create_new_tree_from_old (tree_size y_annotated) y_annotated.
Proof.
  apply (reannotation_is_harmless y_raw y_annotated (3, 10)).
  - apply y_raw_wf.
  - apply y_annotated_eq.
Defined.

(** ** The root of the tree *)





